(** * SummaC: NLI-based consistency scoring (model_summac.py)

    A shallow embedding of [summac/summac/model_summac.py]: the text
    chunker, the [SummaCImager] with its cache and cache file, the
    histogram of [SummaCConv] and the zero-shot aggregation of [SummaCZS].

    Modelling conventions.
    - Python [str] is [string]; a character is an [ascii], that is a code
      point below 256.
    - A numpy array of floats is a nested list of rationals [Q]; arithmetic
      is exact, and results are compared with [==] ([Qeq]).
    - A Python [dict] is an insertion-ordered association list with unique
      keys ([PyDict]); iteration order is insertion order, as in Python.
    - The NLI predictor (tokenizer, model and softmax) and the sentence
      segmenter of nltk are external: they are fields of the imager record.
      The predictor maps each (premise, hypothesis) pair to its three
      probabilities, whatever batch the pair is in.
    - A raised exception is [None] / an [exn] value.
    - The learned head of [SummaCConv] ([forward], [score]) is not part of
      this development. *)

From Stdlib Require Import List String Ascii Bool Arith Lia.
From Stdlib Require Import ZArith QArith Qminmax Lqa.
From Stdlib Require Import Permutation SetoidList SetoidPermutation Morphisms.
Import ListNotations.

Local Open Scope string_scope.
Local Open Scope list_scope.
Local Open Scope nat_scope.

(** ** Option monad for code that may raise *)

Definition obind {A B : Type} (o : option A) (k : A -> option B) : option B :=
  match o with
  | Some a => k a
  | None => None
  end.

Notation "x <- c1 ;; c2" := (obind c1 (fun x => c2))
  (at level 61, c1 at next level, right associativity).

Fixpoint mapM {A B : Type} (f : A -> option B) (l : list A) : option (list B) :=
  match l with
  | [] => Some []
  | a :: l' => b <- f a ;; bs <- mapM f l' ;; Some (b :: bs)
  end.

(** ** Python strings *)

Module PyStr.

(** [s.startswith(p)] *)
Fixpoint startswith (p s : string) : bool :=
  match p with
  | EmptyString => true
  | String a p' =>
      match s with
      | EmptyString => false
      | String b s' => Ascii.eqb a b && startswith p' s'
      end
  end.

(** [s.endswith(p)] *)
Definition endswith (p s : string) : bool :=
  startswith (string_of_list_ascii (rev (list_ascii_of_string p)))
             (string_of_list_ascii (rev (list_ascii_of_string s))).

(** [p in s] *)
Fixpoint contains (p s : string) : bool :=
  startswith p s ||
  match s with
  | EmptyString => false
  | String _ s' => contains p s'
  end.

(** [s.split(sep)] for a non-empty [sep]: scan from the left; at an
    occurrence of [sep] close the current piece and jump over the
    occurrence ([skip] counts the characters of it still to pass). *)
Fixpoint split_go (sep s : string) (skip : nat) (cur : string) : list string :=
  match s with
  | EmptyString => [cur]
  | String c s' =>
      match skip with
      | S k => split_go sep s' k cur
      | O =>
          if startswith sep s
          then cur :: split_go sep s' (String.length sep - 1) EmptyString
          else split_go sep s' 0 (cur ++ String c EmptyString)
      end
  end.

Definition split (sep s : string) : list string := split_go sep s 0 EmptyString.

(** [s.count(sep)], the number of non-overlapping occurrences *)
Definition count (sep s : string) : nat := List.length (split sep s) - 1.

(** [sep.join(parts)] *)
Fixpoint join (sep : string) (parts : list string) : string :=
  match parts with
  | [] => EmptyString
  | [x] => x
  | x :: rest => x ++ sep ++ join sep rest
  end.

(** [c.isspace()] on the code points below 256 *)
Definition is_space (c : ascii) : bool :=
  let n := nat_of_ascii c in
  ((9 <=? n) && (n <=? 13)) || ((28 <=? n) && (n <=? 32))
  || (n =? 133) || (n =? 160).

Fixpoint lstrip (s : string) : string :=
  match s with
  | EmptyString => EmptyString
  | String c s' => if is_space c then lstrip s' else s
  end.

Fixpoint rstrip (s : string) : string :=
  match s with
  | EmptyString => EmptyString
  | String c s' =>
      let r := rstrip s' in
      if is_space c && (r =? EmptyString)%string then EmptyString else String c r
  end.

(** [s.strip()] *)
Definition strip (s : string) : string := rstrip (lstrip s).

End PyStr.

(** ** Python dictionaries, in insertion order

    The order matters to [save_cache]: when two keys of the cache join to
    the same string, the later item wins. *)

Section PyDict.
Context {K V : Type}.
Variable K_dec : forall a b : K, {a = b} + {a <> b}.

Definition dict := list (K * V).

(** [d.get(k)]; [None] is the [KeyError] of [d[k]] *)
Fixpoint dict_get (k : K) (d : list (K * V)) : option V :=
  match d with
  | [] => None
  | (k', v) :: d' => if K_dec k k' then Some v else dict_get k d'
  end.

(** [k in d] *)
Definition dict_mem (k : K) (d : list (K * V)) : bool :=
  match dict_get k d with Some _ => true | None => false end.

(** [d[k] = v]: replace in place, or append a new item *)
Fixpoint dict_set (k : K) (v : V) (d : list (K * V)) : list (K * V) :=
  match d with
  | [] => [(k, v)]
  | (k', v') :: d' =>
      if K_dec k k' then (k', v) :: d' else (k', v') :: dict_set k v d'
  end.

(** [{k: v for k, v in items}] *)
Definition dict_of_items (items : list (K * V)) : list (K * V) :=
  fold_left (fun d kv => dict_set (fst kv) (snd kv) d) items [].

Definition dict_keys (d : list (K * V)) : list K := map fst d.

(** the invariant of a dictionary: no key occurs twice *)
Definition dict_wf (d : list (K * V)) : Prop := NoDup (dict_keys d).
End PyDict.

(** ** Arrays as nested lists *)

Definition plane := list (list Q).
Definition image := list plane.

(** [np.zeros((d, n, m))] *)
Definition zeros (d n m : nat) : image := repeat (repeat (repeat 0%Q m) n) d.

(** [l[n] = f(l[n])]; an index out of range (an [IndexError] in Python)
    leaves the list as it is *)
Fixpoint list_update {A : Type} (n : nat) (f : A -> A) (l : list A) : list A :=
  match l, n with
  | [], _ => []
  | x :: l', O => f x :: l'
  | x :: l', S n' => x :: list_update n' f l'
  end.

(** [image[d, i, j] = v] *)
Definition set_cell (img : image) (d i j : nat) (v : Q) : image :=
  list_update d (list_update i (list_update j (fun _ => v))) img.

(** [image[d, i, j]] *)
Definition get_cell (img : image) (d i j : nat) : option Q :=
  p <- nth_error img d ;; r <- nth_error p i ;; nth_error r j.

(** [image[:, :n, :]] *)
Definition slice_rows (n : nat) (img : image) : image := map (firstn n) img.

(** [image.shape] of a rectangular array *)
Definition shape (img : image) : nat * nat * nat :=
  (List.length img, List.length (hd [] img), List.length (hd [] (hd [] img))).

(** [img] is a rectangular [d] x [n] x [m] array *)
Definition has_shape (d n m : nat) (img : image) : Prop :=
  List.length img = d /\
  Forall (fun p => List.length p = n /\ Forall (fun r => List.length r = m) p) img.

(** ** Model table *)

(** [model_map]: name, then (model card, entailment index, contradiction
    index) *)
Definition model_map : list (string * (string * nat * nat)) :=
  [ ("snli-base", ("boychaboy/SNLI_roberta-base", 0, 2));
    ("snli-large", ("boychaboy/SNLI_roberta-large", 0, 2));
    ("mnli-base", ("microsoft/deberta-base-mnli", 2, 0));
    ("mnli", ("roberta-large-mnli", 2, 0));
    ("anli", ("ynie/roberta-large-snli_mnli_fever_anli_R1_R2_R3-nli", 0, 2));
    ("vitc-base", ("tals/albert-base-vitaminc-mnli", 0, 1));
    ("vitc", ("tals/albert-xlarge-vitaminc-mnli", 0, 1));
    ("vitc-only", ("tals/albert-xlarge-vitaminc", 0, 1)) ].

Definition card_to_name (card : string) : string :=
  let card2name := dict_of_items string_dec
                     (map (fun kv => (fst (fst (snd kv)), fst kv)) model_map) in
  match dict_get string_dec card card2name with
  | Some name => name
  | None => card
  end.

Definition name_to_card (name : string) : string :=
  match dict_get string_dec name model_map with
  | Some info => fst (fst info)
  | None => name
  end.

(** [list(set([0, 1, 2]) - set([ent_idx, con_idx]))[0]]: a set of small
    integers is listed in increasing order *)
Definition get_neutral_idx (ent_idx con_idx : nat) : nat :=
  hd 0 (filter (fun k => negb (k =? ent_idx) && negb (k =? con_idx)) [0; 1; 2]).

(** ** SummaCImager *)

Inductive gran := Paragraph | Sentence | Document | TwoSents | Mixed.

(** membership in [["paragraph", "sentence", "document", "2sents", "mixed"]] *)
Definition gran_of_string (s : string) : option gran :=
  if (s =? "paragraph")%string then Some Paragraph
  else if (s =? "sentence")%string then Some Sentence
  else if (s =? "document")%string then Some Document
  else if (s =? "2sents")%string then Some TwoSents
  else if (s =? "mixed")%string then Some Mixed
  else None.

(** the three class probabilities returned by the predictor for one pair *)
Definition probs := (Q * Q * Q)%type.

(** [batch_probs[:, idx]] for one row; the indices of [model_map] are 0, 1
    and 2 *)
Definition pick (idx : nat) (p : probs) : Q :=
  match idx with
  | 0 => fst (fst p)
  | 1 => snd (fst p)
  | _ => snd p
  end.

(** The imager object.  [grans] is [granularity.split("-")] after the
    assertion of [__init__]: a non-empty list (first token, other tokens)
    of recognised granularities.  [sent_tokenize] is nltk's segmenter and
    [nli_model] is tokenizer, model and softmax applied to one
    (premise, hypothesis) pair. *)
Record SummaCImager := mkImager {
  sent_tokenize : string -> list string;
  nli_model : string -> string -> probs;
  grans : gran * list gran;
  model_name : string;
  model_card : string;
  entailment_idx : nat;
  contradiction_idx : nat;
  neutral_idx : nat;
  granularity : string;
  use_cache : bool;
  cache_folder : string;
  max_doc_sents : nat;
  cache : list (list string * image)
}.

Definition key_dec : forall a b : list string, {a = b} + {a <> b} :=
  list_eq_dec string_dec.

Definition set_cache (im : SummaCImager) (c : list (list string * image)) : SummaCImager :=
  mkImager (sent_tokenize im) (nli_model im) (grans im) (model_name im)
           (model_card im) (entailment_idx im) (contradiction_idx im)
           (neutral_idx im) (granularity im) (use_cache im) (cache_folder im)
           (max_doc_sents im) c.

(** [SummaCImager.__init__]; [None] is a failed assertion *)
Definition SummaCImager_init (tok : string -> list string)
    (nli : string -> string -> probs)
    (name granularity_ : string) (use_cache_ : bool) (max_doc_sents_ : nat)
    : option SummaCImager :=
  gs <- mapM gran_of_string (PyStr.split "-" granularity_) ;;
  if negb (List.length gs <=? 2) then None else
  info <- dict_get string_dec name model_map ;;
  match gs with
  | [] => None
  | g :: rest =>
      let ent := snd (fst info) in
      let con := snd info in
      Some (mkImager tok nli (g, rest) name (name_to_card name) ent con
                     (get_neutral_idx ent con) granularity_ use_cache_
                     "./datasets/summac_cache/" max_doc_sents_ [])
  end.

Definition split_sentences (im : SummaCImager) (text : string) : list string :=
  let sentences := sent_tokenize im text in
  filter (fun sent => 10 <? String.length sent) sentences.

Definition split_2sents (im : SummaCImager) (text : string) : list string :=
  let sentences := sent_tokenize im text in
  let sentences := filter (fun sent => 10 <? String.length sent) sentences in
  map (fun i => PyStr.join " " (firstn 2 (skipn i sentences)))
      (seq 0 (List.length sentences)).

Definition split_paragraphs (im : SummaCImager) (text : string) : list string :=
  let nl := String (ascii_of_nat 10) EmptyString in
  let paragraphs :=
    if 0 <? PyStr.count (nl ++ nl) text
    then map PyStr.strip (PyStr.split (nl ++ nl) text)
    else map PyStr.strip (PyStr.split nl text) in
  filter (fun p => 10 <? String.length p) paragraphs.

Definition split_text (im : SummaCImager) (text : string) (g : gran) : list string :=
  match g with
  | Document => [text]
  | Paragraph => split_paragraphs im text
  | Sentence => split_sentences im text
  | TwoSents => split_2sents im text
  | Mixed => split_sentences im text ++ split_paragraphs im text
  end.

Record ChunkPair := mkChunk {
  premise : string;
  hypothesis : string;
  doc_i : nat;
  gen_i : nat;
  pair_idx : option nat
}.

Definition build_chunk_dataset (im : SummaCImager) (original generated : string)
    (pair_idx_ : option nat) : list ChunkPair * nat * nat :=
  let '(gran_doc, gran_sum) :=
    match snd (grans im) with
    | [] => (fst (grans im), fst (grans im))
    | g1 :: _ => (fst (grans im), g1)
    end in
  let original_chunks := firstn (max_doc_sents im) (split_text im original gran_doc) in
  let generated_chunks := split_text im generated gran_sum in
  let N_ori := List.length original_chunks in
  let N_gen := List.length generated_chunks in
  let dataset :=
    flat_map (fun i =>
      map (fun j => mkChunk (nth i original_chunks EmptyString)
                            (nth j generated_chunks EmptyString) i j pair_idx_)
          (seq 0 N_gen))
      (seq 0 N_ori) in
  (dataset, N_ori, N_gen).

(** Modelled from the spec: [utils_misc.batcher], imported by
    model_summac.py, is not among the sources.  The spec has the chunk
    pairs batched with a fixed batch size: consecutive groups of
    [batch_size] elements in order, and a last, shorter group for what is
    left over. *)
Fixpoint batcher_go {A : Type} (batch_size : nat) (batch : list A) (l : list A)
    : list (list A) :=
  match l with
  | [] => match batch with [] => [] | _ => [batch] end
  | elem :: l' =>
      let batch := batch ++ [elem] in
      if List.length batch =? batch_size
      then batch :: batcher_go batch_size [] l'
      else batcher_go batch_size batch l'
  end.

Definition batcher {A : Type} (l : list A) (batch_size : nat) : list (list A) :=
  batcher_go batch_size [] l.

(** the three assignments [image[0, i, j] = evid], [image[1, i, j] = cont],
    [image[2, i, j] = neut] for one chunk pair *)
Definition write_probs (im : SummaCImager) (img : image) (b : ChunkPair) (p : probs)
    : image :=
  let img := set_cell img 0 (doc_i b) (gen_i b) (pick (entailment_idx im) p) in
  let img := set_cell img 1 (doc_i b) (gen_i b) (pick (contradiction_idx im) p) in
  set_cell img 2 (doc_i b) (gen_i b) (pick (neutral_idx im) p).

(** one call of the predictor on a batch: the probabilities of each pair *)
Definition batch_probs (im : SummaCImager) (batch : list ChunkPair) : list probs :=
  map (fun b => nli_model im (premise b) (hypothesis b)) batch.

(** the body of the batch loop of [build_image] *)
Definition fill_batch (im : SummaCImager) (img : image) (batch : list ChunkPair)
    : image :=
  fold_left (fun img bp => write_probs im img (fst bp) (snd bp))
            (combine batch (batch_probs im batch)) img.

(** [SummaCImager.build_image]: the image and the imager afterwards *)
Definition build_image (im : SummaCImager) (original generated : string)
    : image * SummaCImager :=
  let cache_key := [original; generated] in
  match (if use_cache im then dict_get key_dec cache_key (cache im) else None) with
  | Some cached_image => (slice_rows (max_doc_sents im) cached_image, im)
  | None =>
      let '(dataset, N_ori, N_gen) := build_chunk_dataset im original generated None in
      if List.length dataset =? 0 then (zeros 3 1 1, im)
      else
        let img := fold_left (fill_batch im) (batcher dataset 20) (zeros 3 N_ori N_gen) in
        if use_cache im
        then (img, set_cache im (dict_set key_dec cache_key img (cache im)))
        else (img, im)
  end.

(** [enumerate(l)] *)
Definition enumerate {A : Type} (l : list A) : list (nat * A) :=
  combine (seq 0 (List.length l)) l.

(** the body of the batch loop of [build_images]: each result goes to
    [todo_images[b["pair_idx"]]] *)
Definition scatter_batch (im : SummaCImager) (todo_images : list image)
    (batch : list ChunkPair) : list image :=
  fold_left (fun imgs bp =>
               match pair_idx (fst bp) with
               | Some k => list_update k (fun img => write_probs im img (fst bp) (snd bp)) imgs
               | None => imgs
               end)
            (combine batch (batch_probs im batch)) todo_images.

(** [SummaCImager.build_images]; [None] is a [KeyError] or an [IndexError] *)
Definition build_images (im : SummaCImager) (originals generateds : list string)
    (batch_size : nat) : option (list image * SummaCImager) :=
  let todo :=
    filter (fun og => negb (dict_mem key_dec [fst og; snd og] (cache im)))
           (combine originals generateds) in
  let '(total_dataset, todo_images) :=
    fold_left (fun acc ip =>
                 let '(dataset, N_ori, N_gen) :=
                   build_chunk_dataset im (fst (snd ip)) (snd (snd ip)) (Some (fst ip)) in
                 let img := if List.length dataset =? 0 then zeros 3 1 1
                            else zeros 3 N_ori N_gen in
                 (fst acc ++ dataset, snd acc ++ [img]))
              (enumerate todo) ([], []) in
  let todo_images :=
    fold_left (scatter_batch im) (batcher total_dataset batch_size) todo_images in
  cache' <- fold_left (fun oc ip =>
                         c <- oc ;;
                         img <- nth_error todo_images (fst ip) ;;
                         Some (dict_set key_dec [fst (snd ip); snd (snd ip)] img c))
                      (enumerate todo) (Some (cache im)) ;;
  images <- mapM (fun og => dict_get key_dec [fst og; snd og] cache')
                 (combine originals generateds) ;;
  Some (images, set_cache im cache').

(** ** The cache file *)

(** What a file holds: nothing (as [open(path, "w")] followed by [close]
    leaves it), or the JSON object written by [json.dump]: string keys in
    order, each with a nested list of numbers. *)
Inductive file_data :=
| EmptyFile
| JsonFile (doc : list (string * image)).

Record filesystem := mkFS {
  dirs : list string;
  files : list (string * file_data)
}.

Inductive exn := JSONDecodeError.

Inductive outcome (A : Type) :=
| Returned (a : A)
| Raised (e : exn).
Arguments Returned {A} a.
Arguments Raised {A} e.

Definition path_exists (fs : filesystem) (path : string) : bool :=
  existsb (String.eqb path) (dirs fs) || dict_mem string_dec path (files fs).

(** [os.path.join(a, b)] for a relative [b] *)
Definition path_join (a b : string) : string :=
  if PyStr.startswith "/" b then b
  else if (a =? "")%string || PyStr.endswith "/" a
       then a ++ b
       else a ++ "/" ++ b.

(** [SummaCImager.get_cache_file]: the path, and the file system afterwards *)
Definition get_cache_file (im : SummaCImager) (fs : filesystem) : string * filesystem :=
  let cache_file :=
    path_join (cache_folder im)
              ("cache_" ++ model_name im ++ "_" ++ granularity im ++ ".json") in
  if negb (path_exists fs (cache_folder im)) then
    let fs := mkFS (cache_folder im :: dirs fs) (files fs) in
    if negb (path_exists fs cache_file)
    then (cache_file, mkFS (dirs fs) (dict_set string_dec cache_file EmptyFile (files fs)))
    else (cache_file, fs)
  else (cache_file, fs).

Definition SEP : string := "[///]".

(** a key: a non-empty tuple of texts, none of which contains the separator *)
Definition sep_free_key (k : list string) : Prop :=
  k <> [] /\ Forall (fun t => PyStr.contains SEP t = false) k.

(** [SummaCImager.save_cache] *)
Definition save_cache (im : SummaCImager) (fs : filesystem) : filesystem :=
  let cache_cp :=
    dict_of_items string_dec
      (map (fun kv => (PyStr.join SEP (fst kv), snd kv)) (cache im)) in
  let '(cache_file, fs) := get_cache_file im fs in
  mkFS (dirs fs) (dict_set string_dec cache_file (JsonFile cache_cp) (files fs)).

(** [SummaCImager.load_cache]: the file system afterwards, and the imager or
    the exception of [json.load].  [os.path.isfile] holds when the path has
    file data; [json.load] parses a written JSON object and raises on an
    empty file. *)
Definition load_cache (im : SummaCImager) (fs : filesystem)
    : filesystem * outcome SummaCImager :=
  let '(cache_file, fs) := get_cache_file im fs in
  match dict_get string_dec cache_file (files fs) with
  | None => (fs, Returned im)
  | Some EmptyFile => (fs, Raised JSONDecodeError)
  | Some (JsonFile cache_cp) =>
      (fs, Returned
             (set_cache im
                (dict_of_items key_dec
                   (map (fun kv => (PyStr.split SEP (fst kv), snd kv)) cache_cp))))
  end.

(** ** SummaCConv: the histogram *)

(** the [bins] argument: ["even%d"] with its number, or ["percentile"] *)
Inductive bins_mode :=
| Even (n_bins : nat)
| Percentile.

(** [list(np.arange(0, 1, 1 / n_bins)) + [1.0]]; [None] is the
    [ZeroDivisionError] of [1 / 0] *)
Definition even_bins (n : nat) : option (list Q) :=
  match n with
  | 0 => None
  | _ => Some (map (fun k => (inject_Z (Z.of_nat k) / inject_Z (Z.of_nat n))%Q) (seq 0 n)
               ++ [1%Q])
  end.

Definition percentile_bins : list Q :=
  [ 0; 1#100; 2#100; 3#100; 4#100; 7#100; 13#100; 37#100; 90#100; 91#100;
    92#100; 93#100; 94#100; 95#100; 955#1000; 96#100; 965#1000; 97#100;
    975#1000; 98#100; 985#1000; 99#100; 995#1000; 1 ]%Q.

Definition bins_of_mode (b : bins_mode) : option (list Q) :=
  match b with
  | Even n => even_bins n
  | Percentile => Some percentile_bins
  end.

Record SummaCConv := mkConv {
  imagers : list SummaCImager;
  bins : list Q;
  nli_labels : string;
  n_bins : nat;
  n_rows : nat;
  n_labels : nat;
  n_depth : nat;
  full_size : nat;
  agg : string
}.

(** the assertion on [nli_labels] *)
Definition valid_nli_labels (l : string) : bool :=
  existsb (String.eqb l) ["e"; "c"; "n"; "ec"; "en"; "cn"; "ecn"].

(** the configuration part of [SummaCConv.__init__], given its imagers *)
Definition SummaCConv_init (imagers_ : list SummaCImager) (bins_ : bins_mode)
    (nli_labels_ agg_ : string) : option SummaCConv :=
  if negb (valid_nli_labels nli_labels_) then None else
  if List.length imagers_ =? 0 then None else
  edges <- bins_of_mode bins_ ;;
  let n_bins_ := List.length edges - 1 in
  let n_depth_ := List.length imagers_ * String.length nli_labels_ in
  Some (mkConv imagers_ edges nli_labels_ n_bins_ 10 2 n_depth_ (n_depth_ * n_bins_) agg_).

(** the counts of one bin and of those after it: the bin from [lo] to the
    next edge is closed on the left and open on the right, the last bin is
    closed on both sides *)
Fixpoint histogram_from (lo : Q) (edges : list Q) (a : list Q) : list nat :=
  match edges with
  | [] => []
  | [hi] =>
      [List.length (filter (fun v => Qle_bool lo v && Qle_bool v hi) a)]
  | hi :: rest =>
      List.length (filter (fun v => Qle_bool lo v && negb (Qle_bool hi v)) a)
      :: histogram_from hi rest a
  end.

(** [np.histogram(a, range=(0, 1), bins=edges, density=False)[0]] for
    increasing [edges] (numpy raises when they are not); with explicit
    edges [range] has no effect *)
Definition np_histogram (edges : list Q) (a : list Q) : list nat :=
  match edges with
  | [] => []
  | lo :: rest => histogram_from lo rest a
  end.

(** the test of [compute_histogram] on [i_depth] *)
Definition label_selected (labels : string) (i_depth : nat) : bool :=
  ((i_depth mod 3 =? 0) && PyStr.contains "e" labels)
  || ((i_depth mod 3 =? 1) && PyStr.contains "c" labels)
  || ((i_depth mod 3 =? 2) && PyStr.contains "n" labels).

(** [image[i_depth, :, i_gen]] *)
Definition column (img : image) (i_depth i_gen : nat) : list Q :=
  map (fun row => nth i_gen row 0%Q) (nth i_depth img []).

(** the histograms of one generated unit, before [np.concatenate] *)
Definition histos_of (conv : SummaCConv) (img : image) (i_gen : nat) : list (list nat) :=
  map (fun i_depth => np_histogram (bins conv) (column img i_depth i_gen))
      (filter (label_selected (nli_labels conv)) (seq 0 (List.length img))).

(** [SummaCConv.compute_histogram] on a given image: the rows of the
    histogram matrix.  Counts are kept as naturals ([np.array] turns them
    into floats when a padding row is present).  [None] is the [ValueError]
    of [np.concatenate] on an empty list. *)
Definition compute_histogram (conv : SummaCConv) (img : image)
    : option (list (list nat)) :=
  let '(N_depth, N_ori, N_gen) := shape img in
  full_histogram <-
    mapM (fun i_gen =>
            match histos_of conv img i_gen with
            | [] => None
            | histos => Some (concat histos)
            end)
         (seq 0 N_gen) ;;
  let n_rows_missing := n_rows conv - List.length full_histogram in
  let full_histogram :=
    full_histogram ++ repeat (repeat 0 (full_size conv)) n_rows_missing in
  Some (firstn (n_rows conv) full_histogram).

(** [np.concatenate(arrays, axis=0)] of three-dimensional arrays; [None] is
    the [ValueError] raised for an empty list, or when two arrays differ in
    a dimension other than the first *)
Definition np_concatenate (arrays : list image) : option image :=
  match arrays with
  | [] => None
  | a0 :: _ =>
      if forallb (fun a => (snd (fst (shape a)) =? snd (fst (shape a0)))
                           && (snd (shape a) =? snd (shape a0)))
                 arrays
      then Some (concat arrays)
      else None
  end.

(** [SummaCConv.build_image]: [np.concatenate] of the imagers' images along
    the first axis, and the imagers afterwards *)
Definition SummaCConv_build_image (conv : SummaCConv) (original generated : string)
    : option image * list SummaCImager :=
  let results := map (fun imager => build_image imager original generated) (imagers conv) in
  (np_concatenate (map fst results), map snd results).

(** [SummaCConv.compute_histogram(original, generated)], the call without
    an image: the image is built first.  The result is the image with its
    histogram matrix, and the imagers afterwards. *)
Definition compute_histogram_of_texts (conv : SummaCConv) (original generated : string)
    : option (image * list (list nat)) * list SummaCImager :=
  let '(built, imagers') := SummaCConv_build_image conv original generated in
  (img <- built ;; rows <- compute_histogram conv img ;; Some (img, rows), imagers').

(** ** SummaCZS: zero-shot aggregation *)

(** [np.max(a)], [np.min(a)] and [np.mean(a)] of a vector; [None] on an
    empty one (an exception for max and min, nan for mean) *)
Definition np_max (a : list Q) : option Q :=
  match a with
  | [] => None
  | x :: xs => Some (fold_left Qmax xs x)
  end.

Definition np_min (a : list Q) : option Q :=
  match a with
  | [] => None
  | x :: xs => Some (fold_left Qmin xs x)
  end.

Definition qsum (a : list Q) : Q := fold_right Qplus 0%Q a.

Definition np_mean (a : list Q) : option Q :=
  match a with
  | [] => None
  | _ => Some (qsum a / inject_Z (Z.of_nat (List.length a)))%Q
  end.

(** the columns [p[:, j]] of a plane *)
Definition columns (p : plane) : list (list Q) :=
  map (fun j => map (fun row => nth j row 0%Q) p) (seq 0 (List.length (hd [] p))).

(** a reduction with [axis=0]: one value per column *)
Definition reduce_axis0 (red : list Q -> option Q) (p : plane) : option (list Q) :=
  match p with
  | [] => None
  | _ => mapM red (columns p)
  end.

Record SummaCZS := mkZS {
  imager : SummaCImager;
  op1 : string;
  op2 : string;
  use_ent : bool;
  use_con : bool
}.

(** [SummaCZS.__init__], given its imager; [None] is a failed assertion *)
Definition SummaCZS_init (imager_ : SummaCImager) (op1_ op2_ : string)
    (use_ent_ use_con_ : bool) : option SummaCZS :=
  if negb (existsb (String.eqb op2_) ["min"; "mean"; "max"]) then None else
  if negb (existsb (String.eqb op1_) ["max"; "mean"; "min"]) then None else
  Some (mkZS imager_ op1_ op2_ use_ent_ use_con_).

(** [SummaCZS.image2score]; [None] stands for an exception or nan *)
Definition image2score (zs : SummaCZS) (img : image) : option Q :=
  p0 <- nth_error img 0 ;;
  ent_scores <- reduce_axis0 np_max p0 ;;
  p1 <- nth_error img 1 ;;
  co_scores <- reduce_axis0 np_max p1 ;;
  ec <- (if (op1 zs =? "mean")%string then
           e <- reduce_axis0 np_mean p0 ;; c <- reduce_axis0 np_mean p1 ;; Some (e, c)
         else if (op1 zs =? "min")%string then
           e <- reduce_axis0 np_min p0 ;; c <- reduce_axis0 np_min p1 ;; Some (e, c)
         else Some (ent_scores, co_scores)) ;;
  scores <- (if use_ent zs && use_con zs then
               Some (map (fun x => (fst x - snd x)%Q) (combine (fst ec) (snd ec)))
             else if use_ent zs then Some (fst ec)
             else if use_con zs then Some (map (fun c => (1 - c)%Q) (snd ec))
             else None) ;;
  final_score <- np_mean scores ;;
  if (op2 zs =? "min")%string then np_min scores
  else if (op2 zs =? "max")%string then np_max scores
  else Some final_score.

(** [SummaCZS.score_one] *)
Definition score_one (zs : SummaCZS) (original generated : string)
    : option Q * image * SummaCZS :=
  let '(img, imager') := build_image (imager zs) original generated in
  (image2score zs img, img,
   mkZS imager' (op1 zs) (op2 zs) (use_ent zs) (use_con zs)).

(** [SummaCZS.score] *)
Definition score (zs : SummaCZS) (sources generateds : list string) (batch_size : nat)
    : option (list Q * list image * SummaCZS) :=
  r <- build_images (imager zs) sources generateds batch_size ;;
  scores <- mapM (image2score zs) (fst r) ;;
  Some (scores, fst r, mkZS (snd r) (op1 zs) (op2 zs) (use_ent zs) (use_con zs)).

(** *** The scorer as the spec words it *)

(** the reduction named by [op1] or [op2] *)
Definition reduction (op : string) : option (list Q -> option Q) :=
  if (op =? "max")%string then Some np_max
  else if (op =? "mean")%string then Some np_mean
  else if (op =? "min")%string then Some np_min
  else None.

(** the combination mode: both, entailment only, contradiction only *)
Definition combine_scores (use_ent_ use_con_ : bool) (ent con : list Q)
    : option (list Q) :=
  match use_ent_, use_con_ with
  | true, true => Some (map (fun x => (fst x - snd x)%Q) (combine ent con))
  | true, false => Some ent
  | false, true => Some (map (fun c => (1 - c)%Q) con)
  | false, false => None
  end.

(** [image_to_score] of the spec: [op1] on the entailment plane and on the
    contradiction plane across the original units, the combination, then
    [op2] on the combined vector *)
Definition image2score_spec (zs : SummaCZS) (img : image) : option Q :=
  red1 <- reduction (op1 zs) ;;
  red2 <- reduction (op2 zs) ;;
  p_ent <- nth_error img 0 ;;
  p_con <- nth_error img 1 ;;
  ent <- reduce_axis0 red1 p_ent ;;
  con <- reduce_axis0 red1 p_con ;;
  combined <- combine_scores (use_ent zs) (use_con zs) ent con ;;
  red2 combined.

(** a reduction that is defined on every non-empty vector *)
Definition total_reduction (red : list Q -> option Q) : Prop :=
  forall x xs, exists y, red (x :: xs) = Some y.

(** *** Reference forms of the two image builders *)

(** the writes of one chunk pair, with the probabilities of its own texts *)
Definition write_one (im : SummaCImager) (img : image) (b : ChunkPair) : image :=
  write_probs im img b (nli_model im (premise b) (hypothesis b)).

(** the same, into the image of the pair that [b] belongs to *)
Definition scatter_one (im : SummaCImager) (imgs : list image) (b : ChunkPair)
    : list image :=
  match pair_idx b with
  | Some k => list_update k (fun img => write_one im img b) imgs
  | None => imgs
  end.

(** the image of one pair computed from scratch, one chunk pair at a time *)
Definition compute_image (im : SummaCImager) (original generated : string) : image :=
  let '(dataset, N_ori, N_gen) := build_chunk_dataset im original generated None in
  if List.length dataset =? 0 then zeros 3 1 1
  else fold_left (write_one im) dataset (zeros 3 N_ori N_gen).

(** the image of the pair named by a cache key *)
Definition image_of_key (im : SummaCImager) (k : list string) : image :=
  match k with
  | [original; generated] => compute_image im original generated
  | _ => []
  end.

(** a chunk pair with another pair index *)
Definition set_pair_idx (p : option nat) (b : ChunkPair) : ChunkPair :=
  mkChunk (premise b) (hypothesis b) (doc_i b) (gen_i b) p.

(** the pairs that [build_images] has to compute *)
Definition todo_pairs (im : SummaCImager) (originals generateds : list string)
    : list (string * string) :=
  filter (fun og => negb (dict_mem key_dec [fst og; snd og] (cache im)))
         (combine originals generateds).

(** the cache after [build_images] has stored the images of [todo] *)
Definition store_images (im : SummaCImager) (todo : list (string * string))
    (c : list (list string * image)) : list (list string * image) :=
  fold_left (fun c og =>
               dict_set key_dec [fst og; snd og]
                        (compute_image im (fst og) (snd og)) c)
            todo c.

(** the class index behind each plane of an image *)
Definition class_idx (im : SummaCImager) (d : nat) : nat :=
  match d with
  | 0 => entailment_idx im
  | 1 => contradiction_idx im
  | _ => neutral_idx im
  end.

(** the numbers of original and generated units of a pair *)
Definition N_ori_of (im : SummaCImager) (original generated : string) : nat :=
  snd (fst (build_chunk_dataset im original generated None)).

Definition N_gen_of (im : SummaCImager) (original generated : string) : nat :=
  snd (build_chunk_dataset im original generated None).

(** [build_image] called on each pair in turn, the imager passed along *)
Fixpoint build_image_each (im : SummaCImager) (pairs : list (string * string))
    : list image * SummaCImager :=
  match pairs with
  | [] => ([], im)
  | og :: rest =>
      let '(img, im1) := build_image im (fst og) (snd og) in
      let '(imgs, im2) := build_image_each im1 rest in
      (img :: imgs, im2)
  end.

(** the image that [build_image] returns for a pair on the imager [im] *)
Definition single_image (im : SummaCImager) (og : string * string) : image :=
  match (if use_cache im then dict_get key_dec [fst og; snd og] (cache im) else None) with
  | Some cached_image => slice_rows (max_doc_sents im) cached_image
  | None => compute_image im (fst og) (snd og)
  end.

(** the dataset and the empty image of the pair at one index of the to-do
    list, as the second loop of [build_images] makes them *)
Definition indexed_dataset (im : SummaCImager) (ip : nat * (string * string))
    : list ChunkPair :=
  fst (fst (build_chunk_dataset im (fst (snd ip)) (snd (snd ip)) (Some (fst ip)))).

Definition indexed_zeros (im : SummaCImager) (ip : nat * (string * string)) : image :=
  let '(dataset, N_ori, N_gen) :=
    build_chunk_dataset im (fst (snd ip)) (snd (snd ip)) (Some (fst ip)) in
  if List.length dataset =? 0 then zeros 3 1 1 else zeros 3 N_ori N_gen.

(** the image that [build_images] returns for a pair: the cached image if
    the pair was cached, the computed image if not *)
Definition bulk_image (im : SummaCImager) (og : string * string) : image :=
  match dict_get key_dec [fst og; snd og] (cache im) with
  | Some cached_image => cached_image
  | None => compute_image im (fst og) (snd og)
  end.

(** a cache that differs from the cache of [im] only by computed images of
    pairs that [im] had not cached, each within the cap on original units *)
Definition cache_grown (im : SummaCImager) (c : list (list string * image)) : Prop :=
  forall o g,
    dict_get key_dec [o; g] c = dict_get key_dec [o; g] (cache im)
    \/ (dict_get key_dec [o; g] (cache im) = None /\
        dict_get key_dec [o; g] c = Some (compute_image im o g) /\
        slice_rows (max_doc_sents im) (compute_image im o g) = compute_image im o g).

(** the predictor returns a probability distribution *)
Definition distribution (p : probs) : Prop :=
  (0 <= fst (fst p))%Q /\ (0 <= snd (fst p))%Q /\ (0 <= snd p)%Q /\
  (fst (fst p) + snd (fst p) + snd p == 1)%Q.

(** the three class indices of the imager are those of an entry of
    [model_map] *)
Definition indices_of_model_map (im : SummaCImager) : Prop :=
  (exists name info,
     dict_get string_dec name model_map = Some info /\
     entailment_idx im = snd (fst info) /\ contradiction_idx im = snd info) /\
  neutral_idx im = get_neutral_idx (entailment_idx im) (contradiction_idx im).

(** at every cell of an N x M image the three planes add up to one *)
Definition cells_sum_to_one (n m : nat) (img : image) : Prop :=
  forall i j, i < n -> j < m ->
    exists e c u,
      get_cell img 0 i j = Some e /\ get_cell img 1 i j = Some c /\
      get_cell img 2 i j = Some u /\ (e + c + u == 1)%Q.

(** *** Permuting an image *)

(** [l[sigma]]: the elements of [l] at the indices [sigma] *)
Definition permute {A : Type} (d : A) (sigma : list nat) (l : list A) : list A :=
  map (fun i => nth i l d) sigma.

(** [image[:, sigma, :]] *)
Definition permute_rows (sigma : list nat) (img : image) : image :=
  map (permute [] sigma) img.

(** [image[:, :, tau]] *)
Definition permute_cols (tau : list nat) (img : image) : image :=
  map (map (permute 0%Q tau)) img.

(** scores that may be missing, compared as rationals *)
Definition oq_eq (a b : option Q) : Prop :=
  match a, b with
  | Some x, Some y => (x == y)%Q
  | None, None => True
  | _, _ => False
  end.

(** lifting a relation to results that may be missing *)
Definition orel {A : Type} (R : A -> A -> Prop) (a b : option A) : Prop :=
  match a, b with
  | Some x, Some y => R x y
  | None, None => True
  | _, _ => False
  end.

(** a reduction that does not depend on the order of the vector *)
Definition order_free (red : list Q -> option Q) : Prop :=
  forall l l', PermutationA Qeq l l' -> oq_eq (red l) (red l').

(** edges that do not decrease, starting from [lo] *)
Fixpoint chain (lo : Q) (edges : list Q) : Prop :=
  match edges with
  | [] => True
  | hi :: rest => (lo <= hi)%Q /\ chain hi rest
  end.

(** edges that cover [0, 1] *)
Definition covering (edges : list Q) : Prop :=
  exists lo e rest,
    edges = lo :: e :: rest /\ chain lo (e :: rest) /\
    (lo <= 0)%Q /\ (1 <= last (e :: rest) lo)%Q.

(** every value of the image lies in [0, 1] *)
Definition unit_valued (img : image) : Prop :=
  Forall (Forall (Forall (fun v => (0 <= v)%Q /\ (v <= 1)%Q))) img.

(** the path of the cache file *)
Definition cache_path (im : SummaCImager) : string :=
  path_join (cache_folder im)
            ("cache_" ++ model_name im ++ "_" ++ granularity im ++ ".json").

(** *** Further notions used in the properties *)

(** [s] is the model card of an entry of [model_map] *)
Definition is_card (s : string) : bool :=
  existsb (fun kv => (fst (fst (snd kv)) =? s)%string) model_map.

(** the granularities of the document side and of the summary side, as
    [build_chunk_dataset] picks them from [grans] *)
Definition gran_doc (im : SummaCImager) : gran := fst (grans im).

Definition gran_sum (im : SummaCImager) : gran :=
  match snd (grans im) with
  | [] => fst (grans im)
  | g1 :: _ => g1
  end.

(** two imagers that split texts alike, as the imagers of one [SummaCConv]
    do: [__init__] makes them with the same granularity and keyword
    arguments *)
Definition same_splitting (im im0 : SummaCImager) : Prop :=
  sent_tokenize im = sent_tokenize im0 /\ grans im = grans im0 /\
  max_doc_sents im = max_doc_sents im0.

(** the numbers of rows and columns of the computed image of a pair *)
Definition units_of (im : SummaCImager) (original generated : string) : nat * nat :=
  if N_ori_of im original generated * N_gen_of im original generated =? 0
  then (1, 1)
  else (N_ori_of im original generated, N_gen_of im original generated).

(** ** Sample inputs *)

(** a small sentence segmenter: a sentence ends at a full stop followed by
    a space *)
Definition demo_tokenize (text : string) : list string :=
  let parts := PyStr.split ". " text in
  map (fun p => (p ++ ".")%string) (removelast parts) ++ [last parts EmptyString].

(** a small predictor: a pair of equal texts is entailed, a pair of texts of
    equal length is neutral, any other pair is half contradicted *)
Definition demo_nli (p h : string) : probs :=
  if (p =? h)%string then (7#10, 1#10, 2#10)%Q
  else if String.length p =? String.length h then (1#4, 1#4, 1#2)%Q
  else (1#10, 5#10, 4#10)%Q.

(** [SummaCImager("vitc", "sentence", use_cache=True, max_doc_sents=100)]
    with these two collaborators *)
Definition demo_imager : SummaCImager :=
  mkImager demo_tokenize demo_nli (Sentence, []) "vitc"
           "tals/albert-xlarge-vitaminc-mnli" 0 1 2 "sentence" true
           "./datasets/summac_cache/" 100 [].

Definition demo_doc : string :=
  "Jeff joined Microsoft in 1992. He led developer evangelism for Windows NT.".

Definition demo_sum : string := "Jeff joined Microsoft in 1992.".

(** a 3 x 2 x 2 image: each cell is a probability distribution *)
Definition demo_image : image :=
  [ [ [7#10; 1#10]; [2#10; 3#10] ];
    [ [1#10; 6#10]; [5#10; 2#10] ];
    [ [2#10; 3#10]; [3#10; 5#10] ] ]%Q.

(** [SummaCZS(op1="max", op2="mean", use_ent=True, use_con=True)] *)
Definition demo_zs : SummaCZS := mkZS demo_imager "max" "mean" true true.

(** the sample imager after one pair has been cached *)
Definition demo_cached : SummaCImager :=
  set_cache demo_imager [([demo_doc; demo_sum], demo_image)].

(** the sample imager made with [use_cache=False] *)
Definition demo_uncached : SummaCImager :=
  mkImager demo_tokenize demo_nli (Sentence, []) "vitc"
           "tals/albert-xlarge-vitaminc-mnli" 0 1 2 "sentence" false
           "./datasets/summac_cache/" 100 [].

(** [SummaCConv(models=["vitc"], bins="percentile", nli_labels="e")] on the
    sample imager *)
Definition demo_conv : SummaCConv :=
  mkConv [demo_imager] percentile_bins "e" 23 10 2 1 23 "mean".

(** an imager like the sample one but with [max_doc_sents=1] *)
Definition demo_capped : SummaCImager :=
  mkImager demo_tokenize demo_nli (Sentence, []) "vitc"
           "tals/albert-xlarge-vitaminc-mnli" 0 1 2 "sentence" true
           "./datasets/summac_cache/" 1 [].

(** [SummaCZS(granularity="document", model_name="vitc")], the scorer of
    the [__main__] block, on the sample collaborators *)
Definition demo_document_zs : SummaCZS :=
  mkZS (mkImager demo_tokenize demo_nli (Document, []) "vitc"
                 "tals/albert-xlarge-vitaminc-mnli" 0 1 2 "document" true
                 "./datasets/summac_cache/" 100 [])
       "max" "mean" true true.

(** * Properties *)

(** ** Text chunking *)

Lemma nth_error_map_seq {A : Type} (f : nat -> A) (n i : nat) :
  i < n -> nth_error (map f (seq 0 n)) i = Some (f i).
Proof.
  intros Hi. rewrite nth_error_map, nth_error_seq.
  destruct (Nat.ltb_spec i n); [reflexivity | lia].
Qed.

Lemma nth_error_skipn_0 {A : Type} (l : list A) (i : nat) :
  nth_error l i = hd_error (skipn i l).
Proof.
  revert l; induction i as [|i IH]; intros [|x l]; simpl; auto.
Qed.

Lemma window_two {A : Type} (l : list A) (i : nat) (a b : A) :
  nth_error l i = Some a -> nth_error l (S i) = Some b ->
  firstn 2 (skipn i l) = [a; b].
Proof.
  revert l; induction i as [|i IH]; intros [|x l] Ha Hb; simpl in *; try discriminate.
  - destruct l as [|y l]; simpl in *; try discriminate. congruence.
  - apply IH; assumption.
Qed.

Lemma window_last {A : Type} (l : list A) (i : nat) (a : A) :
  nth_error l i = Some a -> nth_error l (S i) = None ->
  firstn 2 (skipn i l) = [a].
Proof.
  revert l; induction i as [|i IH]; intros [|x l] Ha Hb; simpl in *; try discriminate.
  - destruct l as [|y l]; simpl in *; try discriminate. congruence.
  - apply IH; assumption.
Qed.

(** C8 (as the code has it): with granularity [2sents] the text is
    segmented, sentences of at most 10 characters are dropped, and there is
    one unit per kept sentence: the sentence joined by a space to the next
    kept sentence when there is one, and the last kept sentence alone. *)
Theorem split_2sents_windows (im : SummaCImager) (text : string) :
  let sents := filter (fun s => 10 <? String.length s) (sent_tokenize im text) in
  let units := split_text im text TwoSents in
  List.length units = List.length sents /\
  (forall i a b, nth_error sents i = Some a -> nth_error sents (S i) = Some b ->
                 nth_error units i = Some (a ++ " " ++ b)%string) /\
  (forall i a, nth_error sents i = Some a -> nth_error sents (S i) = None ->
               nth_error units i = Some a).
Proof.
  intros sents units. subst units. simpl. unfold split_2sents. fold sents.
  split; [|split].
  - now rewrite length_map, length_seq.
  - intros i a b Ha Hb.
    assert (Hi : i < List.length sents) by (apply nth_error_Some; congruence).
    rewrite nth_error_map_seq by exact Hi.
    now rewrite (window_two _ _ _ _ Ha Hb).
  - intros i a Ha Hb.
    assert (Hi : i < List.length sents) by (apply nth_error_Some; congruence).
    rewrite nth_error_map_seq by exact Hi.
    now rewrite (window_last _ _ _ Ha Hb).
Qed.

(** the units of the sample document: the last one is a single sentence *)
Lemma split_2sents_windows_witness :
  nth_error (split_text demo_imager demo_doc TwoSents) 0
  = Some "Jeff joined Microsoft in 1992. He led developer evangelism for Windows NT."
  /\ nth_error (split_text demo_imager demo_doc TwoSents) 1
     = Some "He led developer evangelism for Windows NT.".
Proof.
  destruct (split_2sents_windows demo_imager demo_doc) as (_ & H2 & H1).
  split.
  - exact (H2 0 "Jeff joined Microsoft in 1992."
                "He led developer evangelism for Windows NT." eq_refl eq_refl).
  - exact (H1 1 "He led developer evangelism for Windows NT." eq_refl eq_refl).
Defined.

(** C8 as the spec words it fails: the last unit is not the join of two
    consecutive kept sentences. *)
Lemma split_2sents_last_unit_single :
  ~ (forall u, In u (split_text demo_imager demo_doc TwoSents) ->
     exists i a b,
       nth_error (filter (fun s => 10 <? String.length s) (demo_tokenize demo_doc)) i = Some a /\
       nth_error (filter (fun s => 10 <? String.length s) (demo_tokenize demo_doc)) (S i) = Some b /\
       u = (a ++ " " ++ b)%string).
Proof.
  intros H.
  destruct (H "He led developer evangelism for Windows NT.") as (i & a & b & Ha & Hb & Hu).
  - vm_compute. right; left; reflexivity.
  - vm_compute in Ha, Hb.
    destruct i as [|[|i]]; simpl in Ha, Hb.
    + injection Ha as <-. injection Hb as <-. discriminate Hu.
    + discriminate Hb.
    + destruct i; discriminate Hb.
Qed.

(** ** Strings: splitting a joined key *)

Lemma str_app_nil_r (s : string) : (s ++ "")%string = s.
Proof. induction s as [|c s IH]; simpl; [reflexivity | now rewrite IH]. Qed.

Lemma str_app_assoc (a b c : string) : ((a ++ b) ++ c)%string = (a ++ b ++ c)%string.
Proof. induction a as [|x a IH]; simpl; [reflexivity | now rewrite IH]. Qed.

Lemma str_length_app (a b : string) :
  String.length (a ++ b) = String.length a + String.length b.
Proof. induction a as [|x a IH]; simpl; [reflexivity | now rewrite IH]. Qed.

Lemma str_app_neq (a b : string) : b <> EmptyString -> (a ++ b)%string <> a.
Proof.
  intros Hb Heq. apply (f_equal String.length) in Heq.
  rewrite str_length_app in Heq. destruct b; [congruence | simpl in Heq; lia].
Qed.

Local Arguments Ascii.eqb : simpl never.

(** An occurrence of the separator that starts inside [x], in [x] followed
    by a separator, lies inside [x]: no proper suffix of the separator
    starts with its first character. *)
Lemma sep_no_overlap (x b : string) :
  x <> EmptyString ->
  PyStr.startswith SEP (x ++ SEP ++ b) = true -> PyStr.startswith SEP x = true.
Proof.
  assert (E1 : Ascii.eqb "/" "[" = false) by reflexivity.
  assert (E2 : Ascii.eqb "]" "[" = false) by reflexivity.
  intros Hx.
  destruct x as [|c1 [|c2 [|c3 [|c4 [|c5 x]]]]]; [congruence | | | | |];
    simpl; intros H; rewrite ?E1, ?E2, ?andb_false_r in H;
    try discriminate H; exact H.
Qed.

Lemma contains_cons (c : ascii) (a : string) :
  PyStr.contains SEP (String c a) = false ->
  PyStr.startswith SEP (String c a) = false /\ PyStr.contains SEP a = false.
Proof.
  change (PyStr.contains SEP (String c a))
    with (PyStr.startswith SEP (String c a) || PyStr.contains SEP a).
  intros H. now apply orb_false_elim in H.
Qed.

Lemma split_go_free (a cur : string) :
  PyStr.contains SEP a = false -> PyStr.split_go SEP a 0 cur = [(cur ++ a)%string].
Proof.
  revert cur; induction a as [|c a IH]; intros cur H.
  - simpl. now rewrite str_app_nil_r.
  - apply contains_cons in H as [H1 H2].
    change (PyStr.split_go SEP (String c a) 0 cur)
      with (if PyStr.startswith SEP (String c a)
            then cur :: PyStr.split_go SEP a (String.length SEP - 1) EmptyString
            else PyStr.split_go SEP a 0 (cur ++ String c EmptyString)).
    rewrite H1, IH by assumption. now rewrite str_app_assoc.
Qed.

Lemma split_go_sep (a b cur : string) :
  PyStr.contains SEP a = false ->
  PyStr.split_go SEP (a ++ SEP ++ b) 0 cur
  = (cur ++ a)%string :: PyStr.split_go SEP b 0 EmptyString.
Proof.
  revert cur; induction a as [|c a IH]; intros cur H.
  - cbn. now rewrite str_app_nil_r.
  - apply contains_cons in H as [H1 H2].
    change (PyStr.split_go SEP (String c a ++ SEP ++ b) 0 cur)
      with (if PyStr.startswith SEP (String c a ++ SEP ++ b)
            then cur :: PyStr.split_go SEP (a ++ SEP ++ b) (String.length SEP - 1) EmptyString
            else PyStr.split_go SEP (a ++ SEP ++ b) 0 (cur ++ String c EmptyString)).
    destruct (PyStr.startswith SEP (String c a ++ SEP ++ b)) eqn:E.
    + apply sep_no_overlap in E; [congruence | discriminate].
    + rewrite IH by assumption. now rewrite str_app_assoc.
Qed.

Lemma split_join (k : list string) :
  sep_free_key k -> PyStr.split SEP (PyStr.join SEP k) = k.
Proof.
  intros [Hne Hall]. unfold PyStr.split.
  induction k as [|x k IH]; [congruence|].
  inversion Hall as [|? ? Hx Hk]; subst.
  destruct k as [|y k].
  - simpl. now rewrite split_go_free.
  - change (PyStr.join SEP (x :: y :: k))
      with (x ++ SEP ++ PyStr.join SEP (y :: k))%string.
    rewrite split_go_sep by assumption. simpl. f_equal.
    apply IH; [discriminate | assumption].
Qed.

(** ** Dictionaries *)

Section PyDictFacts.
Context {K V : Type}.
Variable K_dec : forall a b : K, {a = b} + {a <> b}.

Lemma dict_get_set_eq (k : K) (v : V) (d : list (K * V)) :
  dict_get K_dec k (dict_set K_dec k v d) = Some v.
Proof.
  induction d as [|[k' v'] d IH]; simpl.
  - destruct (K_dec k k); congruence.
  - destruct (K_dec k k') as [->|Hne]; simpl.
    + destruct (K_dec k' k'); congruence.
    + destruct (K_dec k k'); congruence.
Qed.

Lemma dict_get_set_neq (k k0 : K) (v : V) (d : list (K * V)) :
  k0 <> k -> dict_get K_dec k0 (dict_set K_dec k v d) = dict_get K_dec k0 d.
Proof.
  intros Hne. induction d as [|[k' v'] d IH]; simpl.
  - destruct (K_dec k0 k); congruence.
  - destruct (K_dec k k') as [->|Hne']; simpl.
    + destruct (K_dec k0 k'); congruence.
    + destruct (K_dec k0 k'); congruence.
Qed.

Lemma dict_get_None (k : K) (d : list (K * V)) :
  dict_get K_dec k d = None <-> ~ In k (dict_keys d).
Proof.
  induction d as [|[k' v'] d IH]; simpl.
  - tauto.
  - destruct (K_dec k k') as [->|Hne].
    + split; [discriminate | tauto].
    + rewrite IH. split; [intros H [H'|H']; congruence | tauto].
Qed.

Lemma dict_mem_set (k k0 : K) (v : V) (d : list (K * V)) :
  dict_mem K_dec k0 d = true -> dict_mem K_dec k0 (dict_set K_dec k v d) = true.
Proof.
  unfold dict_mem. destruct (K_dec k0 k) as [->|Hne].
  - now rewrite dict_get_set_eq.
  - now rewrite dict_get_set_neq.
Qed.

Lemma dict_set_fresh (k : K) (v : V) (d : list (K * V)) :
  ~ In k (dict_keys d) -> dict_set K_dec k v d = d ++ [(k, v)].
Proof.
  induction d as [|[k' v'] d IH]; simpl; intros H.
  - reflexivity.
  - destruct (K_dec k k') as [->|Hne]; [tauto|].
    rewrite IH; [reflexivity | tauto].
Qed.

Lemma dict_fold_nodup (items acc : list (K * V)) :
  NoDup (dict_keys (acc ++ items)) ->
  fold_left (fun d kv => dict_set K_dec (fst kv) (snd kv) d) items acc = acc ++ items.
Proof.
  revert acc; induction items as [|[k v] items IH]; intros acc H; simpl.
  - now rewrite app_nil_r.
  - assert (Hk : ~ In k (dict_keys acc)).
    { unfold dict_keys in *. rewrite map_app in H. simpl in H.
      apply NoDup_remove_2 in H. intros Hin. apply H, in_or_app. now left. }
    rewrite dict_set_fresh by exact Hk.
    rewrite IH; rewrite <- app_assoc; simpl; [reflexivity | exact H].
Qed.

Lemma dict_of_items_nodup (items : list (K * V)) :
  NoDup (dict_keys items) -> dict_of_items K_dec items = items.
Proof. intros H. unfold dict_of_items. now rewrite dict_fold_nodup. Qed.

End PyDictFacts.

(** ** The cache file: saving and loading *)

Lemma NoDup_map_inj_on {A B : Type} (f : A -> B) (l : list A) :
  (forall x y, In x l -> In y l -> f x = f y -> x = y) ->
  NoDup l -> NoDup (map f l).
Proof.
  intros Hinj Hnd. induction Hnd as [|x l Hx Hnd IH]; simpl; constructor.
  - intros Hin. apply in_map_iff in Hin as (y & Hy & Hyl).
    assert (y = x) by (apply Hinj; simpl; auto). subst. contradiction.
  - apply IH. intros a b Ha Hb. apply Hinj; simpl; auto.
Qed.

Lemma join_injective (k1 k2 : list string) :
  sep_free_key k1 -> sep_free_key k2 ->
  PyStr.join SEP k1 = PyStr.join SEP k2 -> k1 = k2.
Proof.
  intros H1 H2 E. rewrite <- (split_join k1 H1), <- (split_join k2 H2).
  now rewrite E.
Qed.

(** the dictionary written to the file is the cache with joined keys, in
    the same order *)
Lemma joined_cache (c : list (list string * image)) :
  dict_wf c -> (forall k, In k (dict_keys c) -> sep_free_key k) ->
  dict_of_items string_dec (map (fun kv => (PyStr.join SEP (fst kv), snd kv)) c)
  = map (fun kv => (PyStr.join SEP (fst kv), snd kv)) c.
Proof.
  intros Hwf Hkeys. apply dict_of_items_nodup.
  unfold dict_keys. rewrite map_map. simpl.
  rewrite <- (map_map fst (PyStr.join SEP)).
  apply NoDup_map_inj_on; [|exact Hwf].
  intros x y Hx Hy. apply join_injective; apply Hkeys; assumption.
Qed.

Lemma split_joined_cache (c : list (list string * image)) :
  dict_wf c -> (forall k, In k (dict_keys c) -> sep_free_key k) ->
  dict_of_items key_dec
    (map (fun kv => (PyStr.split SEP (fst kv), snd kv))
         (map (fun kv => (PyStr.join SEP (fst kv), snd kv)) c))
  = c.
Proof.
  intros Hwf Hkeys.
  assert (E : map (fun kv => (PyStr.split SEP (fst kv), snd kv))
                  (map (fun kv => (PyStr.join SEP (fst kv), snd kv)) c) = c).
  { rewrite map_map. simpl. rewrite <- (map_id c) at 2.
    apply map_ext_in. intros [k v] Hin. simpl. f_equal.
    apply split_join, Hkeys. unfold dict_keys. now apply (in_map fst) in Hin. }
  rewrite E. now apply dict_of_items_nodup.
Qed.

Lemma get_cache_file_path (im : SummaCImager) (fs : filesystem) :
  fst (get_cache_file im fs) = cache_path im.
Proof.
  unfold get_cache_file, cache_path.
  destruct (negb (path_exists fs (cache_folder im))); [|reflexivity].
  match goal with |- context [if ?c then _ else _] => destruct c end; reflexivity.
Qed.

Lemma get_cache_file_folder (im : SummaCImager) (fs : filesystem) :
  path_exists (snd (get_cache_file im fs)) (cache_folder im) = true.
Proof.
  unfold get_cache_file.
  destruct (path_exists fs (cache_folder im)) eqn:E; simpl; [exact E|].
  match goal with |- context [if ?c then _ else _] => destruct c end;
    unfold path_exists; simpl; now rewrite String.eqb_refl.
Qed.

Lemma get_cache_file_present (im : SummaCImager) (fs : filesystem) :
  path_exists fs (cache_folder im) = true ->
  get_cache_file im fs = (cache_path im, fs).
Proof. intros H. unfold get_cache_file, cache_path. now rewrite H. Qed.

Lemma cache_path_not_folder (im : SummaCImager) :
  (cache_path im =? cache_folder im)%string = false.
Proof.
  apply String.eqb_neq. unfold cache_path, path_join. simpl.
  destruct ((cache_folder im =? "")%string || PyStr.endswith "/" (cache_folder im));
    apply str_app_neq; discriminate.
Qed.

(** C5: saving the cache and loading it into an imager of the same model
    name, granularity and cache folder restores the cache: the same keys in
    the same order, each with its image, when the keys are pairs of texts
    without the separator. *)
Theorem save_load_cache_round_trip (im im2 : SummaCImager) (fs : filesystem) :
  dict_wf (cache im) ->
  (forall k, In k (dict_keys (cache im)) ->
     exists o g, k = [o; g] /\ PyStr.contains SEP o = false
                 /\ PyStr.contains SEP g = false) ->
  model_name im2 = model_name im ->
  granularity im2 = granularity im ->
  cache_folder im2 = cache_folder im ->
  load_cache im2 (save_cache im fs)
  = (save_cache im fs, Returned (set_cache im2 (cache im))).
Proof.
  intros Hwf Hkeys Hn Hg Hf.
  assert (Hfree : forall k, In k (dict_keys (cache im)) -> sep_free_key k).
  { intros k Hk. destruct (Hkeys k Hk) as (o & g & -> & Ho & Hg').
    split; [discriminate | repeat constructor; assumption]. }
  assert (Hpath : cache_path im2 = cache_path im)
    by (unfold cache_path; now rewrite Hn, Hg, Hf).
  unfold save_cache. rewrite (joined_cache _ Hwf Hfree).
  pose proof (get_cache_file_path im fs) as Hp.
  pose proof (get_cache_file_folder im fs) as Hd.
  destruct (get_cache_file im fs) as [cache_file fs1]. simpl in Hp, Hd. subst cache_file.
  unfold load_cache. rewrite get_cache_file_present.
  - rewrite Hpath. simpl. rewrite dict_get_set_eq.
    now rewrite (split_joined_cache _ Hwf Hfree).
  - rewrite Hf. unfold path_exists in *. simpl.
    apply orb_true_iff in Hd as [Hd|Hd]; [now rewrite Hd|].
    rewrite (dict_mem_set string_dec _ _ _ _ Hd). apply orb_true_r.
Qed.

(** ** Loading when the store is missing *)

(** the cache folder is there and the cache file is not: nothing is loaded *)
Lemma load_cache_missing_file (im : SummaCImager) (fs : filesystem) :
  path_exists fs (cache_folder im) = true ->
  dict_get string_dec (cache_path im) (files fs) = None ->
  load_cache im fs = (fs, Returned im).
Proof.
  intros Hd Hf. unfold load_cache. rewrite get_cache_file_present by exact Hd.
  now rewrite Hf.
Qed.

(** C9 fails on the code: when the cache folder is missing too,
    [get_cache_file] makes the folder and an empty cache file, and
    [load_cache] then raises on parsing the empty file. *)
Theorem load_cache_missing_folder_raises (im : SummaCImager) (fs : filesystem) :
  path_exists fs (cache_folder im) = false ->
  path_exists fs (cache_path im) = false ->
  snd (load_cache im fs) = Raised JSONDecodeError.
Proof.
  intros Hd Hf. unfold load_cache, get_cache_file. fold (cache_path im).
  rewrite Hd. cbn [negb].
  assert (Hf' : path_exists (mkFS (cache_folder im :: dirs fs) (files fs))
                            (cache_path im) = false).
  { unfold path_exists in *. cbn [dirs files existsb].
    rewrite cache_path_not_folder. exact Hf. }
  rewrite Hf'. cbn [negb files snd]. now rewrite dict_get_set_eq.
Qed.

Lemma load_cache_missing_folder_raises_witness :
  snd (load_cache demo_imager (mkFS [] [])) = Raised JSONDecodeError.
Proof.
  apply load_cache_missing_folder_raises; reflexivity.
Defined.

(** ** Zero-shot aggregation *)

Lemma mapM_length {A B : Type} (f : A -> option B) (l : list A) (v : list B) :
  mapM f l = Some v -> List.length v = List.length l.
Proof.
  revert v; induction l as [|a l IH]; simpl; intros v H.
  - injection H as <-. reflexivity.
  - destruct (f a); simpl in H; [|discriminate].
    destruct (mapM f l) eqn:E; simpl in H; [|discriminate].
    injection H as <-. simpl. now rewrite (IH _ eq_refl).
Qed.

Lemma mapM_total {A B : Type} (f : A -> option B) (l : list A) :
  (forall x, In x l -> exists y, f x = Some y) -> exists v, mapM f l = Some v.
Proof.
  induction l as [|a l IH]; simpl; intros H.
  - now exists [].
  - destruct (H a) as [y Hy]; [now left|].
    destruct IH as [v Hv]; [intros x Hx; apply H; now right|].
    rewrite Hy, Hv. simpl. now eexists.
Qed.

Lemma np_max_total : total_reduction np_max.
Proof. intros x xs. simpl. now eexists. Qed.

Lemma np_min_total : total_reduction np_min.
Proof. intros x xs. simpl. now eexists. Qed.

Lemma np_mean_total : total_reduction np_mean.
Proof. intros x xs. simpl. now eexists. Qed.

Lemma reduce_axis0_total (red : list Q -> option Q) (r : list Q) (p : plane) :
  total_reduction red ->
  exists v, reduce_axis0 red (r :: p) = Some v /\ List.length v = List.length r.
Proof.
  intros Hred. unfold reduce_axis0.
  destruct (mapM_total red (columns (r :: p))) as [v Hv].
  - intros c Hc. unfold columns in Hc. apply in_map_iff in Hc as (j & <- & _).
    simpl. apply Hred.
  - exists v. split; [exact Hv|].
    apply mapM_length in Hv. rewrite Hv. unfold columns.
    now rewrite length_map, length_seq.
Qed.

Ltac axis0_some red r p v Hv Hl :=
  let H := fresh in
  assert (H : total_reduction red)
    by (first [exact np_max_total | exact np_min_total | exact np_mean_total]);
  destruct (reduce_axis0_total red r p H) as (v & Hv & Hl); clear H.

Ltac eval_streq :=
  repeat match goal with
         | |- context [String.eqb ?a ?b] =>
             let v := eval vm_compute in (String.eqb a b) in
             change (String.eqb a b) with v
         end.

Ltac ops_cases H1 H2 :=
  destruct H1 as [<-|[<-|[<-|[]]]]; destruct H2 as [<-|[<-|[<-|[]]]];
  unfold reduction; eval_streq; cbn [obind].

Lemma image2score_eq_spec (zs : SummaCZS) (img : image) :
  In (op1 zs) ["max"; "mean"; "min"] -> In (op2 zs) ["min"; "mean"; "max"] ->
  image2score zs img = image2score_spec zs img.
Proof.
  intros H1 H2. unfold image2score, image2score_spec, combine_scores.
  simpl in H1, H2.
  destruct (nth_error img 0) as [[|r0 p0]|].
  - ops_cases H1 H2; destruct (nth_error img 1); reflexivity.
  - axis0_some np_max r0 p0 e0 He0 Hl0.
    axis0_some np_mean r0 p0 e1 He1 Hl1.
    axis0_some np_min r0 p0 e2 He2 Hl2.
    destruct (nth_error img 1) as [[|r1 p1]|].
    + ops_cases H1 H2; rewrite ?He0, ?He1, ?He2; reflexivity.
    + axis0_some np_max r1 p1 c0 Hc0 Hm0.
      axis0_some np_mean r1 p1 c1 Hc1 Hm1.
      axis0_some np_min r1 p1 c2 Hc2 Hm2.
      ops_cases H1 H2;
        rewrite ?He0, ?Hc0, ?He1, ?Hc1, ?He2, ?Hc2;
        cbn [obind fst snd];
        rewrite ?He0, ?Hc0, ?He1, ?Hc1, ?He2, ?Hc2;
        cbn [obind fst snd];
        destruct (use_ent zs), (use_con zs); cbn [andb obind]; try reflexivity;
        match goal with
        | |- obind (np_mean ?s) _ = _ => destruct s; reflexivity
        end.
    + ops_cases H1 H2; rewrite ?He0, ?He1, ?He2; reflexivity.
  - ops_cases H1 H2; reflexivity.
Qed.

Lemma reduction_total (op : string) (red : list Q -> option Q) :
  reduction op = Some red -> total_reduction red.
Proof.
  unfold reduction. intros H.
  destruct (op =? "max")%string; [injection H as <-; exact np_max_total|].
  destruct (op =? "mean")%string; [injection H as <-; exact np_mean_total|].
  destruct (op =? "min")%string; [injection H as <-; exact np_min_total|].
  discriminate.
Qed.

Lemma reduction_valid (op : string) :
  In op ["max"; "mean"; "min"] -> exists red, reduction op = Some red.
Proof.
  simpl. intros [<-|[<-|[<-|[]]]]; unfold reduction; eval_streq; now eexists.
Qed.

Lemma has_shape_plane (d n m k : nat) (img : image) :
  has_shape d n m img -> k < d -> 1 <= n ->
  exists r p, nth_error img k = Some (r :: p) /\ List.length r = m.
Proof.
  intros [Hd Hall] Hk Hn.
  destruct (nth_error img k) as [p|] eqn:E.
  - rewrite Forall_forall in Hall. destruct (Hall p (nth_error_In _ _ E)) as [Hp Hr].
    destruct p as [|r p]; simpl in Hp; [lia|].
    exists r, p. split; [reflexivity|]. now inversion Hr.
  - apply nth_error_None in E. lia.
Qed.

Lemma image2score_spec_total (zs : SummaCZS) (img : image) (n m : nat) :
  In (op1 zs) ["max"; "mean"; "min"] -> In (op2 zs) ["min"; "mean"; "max"] ->
  use_ent zs || use_con zs = true ->
  1 <= n -> 1 <= m -> has_shape 3 n m img ->
  exists s, image2score_spec zs img = Some s.
Proof.
  intros H1 H2 Hflag Hn Hm Hs.
  destruct (reduction_valid _ H1) as [red1 E1].
  destruct (reduction_valid (op2 zs)) as [red2 E2].
  { simpl in *. tauto. }
  destruct (has_shape_plane 3 n m 0 img Hs) as (r0 & p0 & Hp0 & Hr0); [lia | lia |].
  destruct (has_shape_plane 3 n m 1 img Hs) as (r1 & p1 & Hp1 & Hr1); [lia | lia |].
  destruct (reduce_axis0_total red1 r0 p0 (reduction_total _ _ E1)) as (e & He & Hle).
  destruct (reduce_axis0_total red1 r1 p1 (reduction_total _ _ E1)) as (c & Hc & Hlc).
  unfold image2score_spec. rewrite E1, E2, Hp0, Hp1. cbn [obind].
  rewrite He, Hc. cbn [obind].
  assert (Hcomb : exists x xs, combine_scores (use_ent zs) (use_con zs) e c = Some (x :: xs)).
  { unfold combine_scores.
    destruct e as [|e0 e]; [simpl in Hle; lia|].
    destruct c as [|c0 c]; [simpl in Hlc; lia|].
    destruct (use_ent zs), (use_con zs); simpl in *; try discriminate; eauto. }
  destruct Hcomb as (x & xs & ->). cbn [obind].
  apply (reduction_total _ _ E2).
Qed.

(** C4: for valid [op1], [op2] and at least one of the two flags,
    [image2score] is the scorer of the spec ([op1] on the entailment and the
    contradiction planes across the original units, the combination by the
    flags, [op2] on the combined vector), and on a 3 x N x M image with
    N, M >= 1 it returns a number. *)
Theorem image2score_refines_spec (zs : SummaCZS) (img : image) :
  In (op1 zs) ["max"; "mean"; "min"] -> In (op2 zs) ["min"; "mean"; "max"] ->
  use_ent zs || use_con zs = true ->
  image2score zs img = image2score_spec zs img /\
  (forall n m, 1 <= n -> 1 <= m -> has_shape 3 n m img ->
               exists s, image2score zs img = Some s).
Proof.
  intros H1 H2 Hflag. split.
  - now apply image2score_eq_spec.
  - intros n m Hn Hm Hs. rewrite image2score_eq_spec by assumption.
    now apply (image2score_spec_total zs img n m).
Qed.

(** ** Reductions do not depend on the order *)

Lemma oq_eq_refl (a : option Q) : oq_eq a a.
Proof. destruct a; simpl; [reflexivity | exact I]. Qed.

Lemma oq_eq_trans (a b c : option Q) : oq_eq a b -> oq_eq b c -> oq_eq a c.
Proof.
  destruct a, b, c; simpl; try tauto. intros H1 H2. now rewrite H1.
Qed.

Section FoldOrder.
Variable f : Q -> Q -> Q.
Hypothesis f_proper : Proper (Qeq ==> Qeq ==> Qeq) f.
Hypothesis f_comm : forall x y, (f x y == f y x)%Q.
Hypothesis f_assoc : forall x y z, (f x (f y z) == f (f x y) z)%Q.

Lemma fold_left_init (l : list Q) (x y : Q) :
  (x == y)%Q -> (fold_left f l x == fold_left f l y)%Q.
Proof.
  revert x y; induction l as [|a l IH]; intros x y H; simpl; [exact H|].
  apply IH. now rewrite H.
Qed.

Lemma fold_left_permA (l l' : list Q) :
  PermutationA Qeq l l' -> forall x, (fold_left f l x == fold_left f l' x)%Q.
Proof.
  induction 1 as [|a b l l' Hab Hl IH|a b l|l1 l2 l3 H1 IH1 H2 IH2]; intros x; simpl.
  - reflexivity.
  - rewrite IH. apply fold_left_init. now rewrite Hab.
  - apply fold_left_init.
    rewrite <- !f_assoc. now rewrite (f_comm b a).
  - now rewrite IH1.
Qed.

Lemma fold_head_order_free :
  order_free (fun a => match a with [] => None | x :: xs => Some (fold_left f xs x) end).
Proof.
  intros l l' H.
  induction H as [|a b l l' Hab Hl IH|a b l|l1 l2 l3 H1 IH1 H2 IH2]; simpl.
  - exact I.
  - rewrite (fold_left_permA _ _ Hl). now apply fold_left_init.
  - apply fold_left_init, f_comm.
  - eapply oq_eq_trans; eassumption.
Qed.

End FoldOrder.

Lemma np_max_order_free : order_free np_max.
Proof.
  apply (fold_head_order_free Qmax).
  - exact Q.max_compat.
  - intros x y. apply Q.max_comm.
  - intros x y z. apply Q.max_assoc.
Qed.

Lemma np_min_order_free : order_free np_min.
Proof.
  apply (fold_head_order_free Qmin).
  - exact Q.min_compat.
  - intros x y. apply Q.min_comm.
  - intros x y z. apply Q.min_assoc.
Qed.

Lemma qsum_permA (l l' : list Q) : PermutationA Qeq l l' -> (qsum l == qsum l')%Q.
Proof.
  induction 1 as [|a b l l' Hab Hl IH|a b l|l1 l2 l3 H1 IH1 H2 IH2]; simpl.
  - reflexivity.
  - now rewrite Hab, IH.
  - rewrite !Qplus_assoc. now rewrite (Qplus_comm b a).
  - now rewrite IH1.
Qed.

Lemma permA_length (l l' : list Q) :
  PermutationA Qeq l l' -> List.length l = List.length l'.
Proof.
  induction 1; simpl; congruence.
Qed.

Lemma np_mean_order_free : order_free np_mean.
Proof.
  intros l l' H. pose proof (permA_length _ _ H) as Hl.
  pose proof (qsum_permA _ _ H) as Hs.
  destruct l as [|x l], l' as [|y l']; try (simpl in Hl; discriminate); [exact I|].
  unfold np_mean, oq_eq. rewrite Hl. now rewrite Hs.
Qed.

Lemma reduction_order_free (op : string) (red : list Q -> option Q) :
  reduction op = Some red -> order_free red.
Proof.
  unfold reduction. intros H.
  destruct (op =? "max")%string; [injection H as <-; exact np_max_order_free|].
  destruct (op =? "mean")%string; [injection H as <-; exact np_mean_order_free|].
  destruct (op =? "min")%string; [injection H as <-; exact np_min_order_free|].
  discriminate.
Qed.

Lemma Forall2_permA (l l' : list Q) : Forall2 Qeq l l' -> PermutationA Qeq l l'.
Proof. induction 1; constructor; assumption. Qed.

(** ** Permutations of rows and columns *)

Lemma map_nth_seq {A : Type} (d : A) (l : list A) :
  map (fun i => nth i l d) (seq 0 (List.length l)) = l.
Proof.
  induction l as [|x l IH]; simpl; [reflexivity|].
  f_equal. rewrite <- seq_shift, map_map. exact IH.
Qed.

Lemma perm_in_range (sigma : list nat) (n k : nat) :
  Permutation sigma (seq 0 n) -> In k sigma -> k < n.
Proof.
  intros H Hk. apply (Permutation_in _ H) in Hk. apply in_seq in Hk. lia.
Qed.

Lemma perm_length (sigma : list nat) (n : nat) :
  Permutation sigma (seq 0 n) -> List.length sigma = n.
Proof. intros H. apply Permutation_length in H. now rewrite length_seq in H. Qed.

Lemma permute_perm {A : Type} (d : A) (sigma : list nat) (l : list A) :
  Permutation sigma (seq 0 (List.length l)) -> Permutation (permute d sigma l) l.
Proof.
  intros H. unfold permute.
  eapply Permutation_trans; [apply Permutation_map, H|].
  now rewrite map_nth_seq.
Qed.

Lemma nth_map_in_range {A B : Type} (f : A -> B) (l : list A) (k : nat) (d : A) (e : B) :
  k < List.length l -> nth k (map f l) e = f (nth k l d).
Proof.
  intros Hk. rewrite (nth_indep _ e (f d)) by now rewrite length_map.
  apply map_nth.
Qed.

Lemma nth_map_seq {A : Type} (F : nat -> A) (m k : nat) (d : A) :
  k < m -> nth k (map F (seq 0 m)) d = F k.
Proof.
  intros Hk. rewrite (nth_map_in_range F _ k 0) by now rewrite length_seq.
  now rewrite seq_nth.
Qed.

Lemma nth_nil_0 (j : nat) : nth j (@nil Q) 0%Q = 0%Q.
Proof. destruct j; reflexivity. Qed.

Lemma columns_permute_rows (sigma : list nat) (p : plane) (m : nat) :
  Forall (fun r => List.length r = m) p ->
  Permutation sigma (seq 0 (List.length p)) ->
  columns (permute [] sigma p) = map (permute 0%Q sigma) (columns p).
Proof.
  intros Hrows Hperm.
  assert (Hhd : List.length (hd [] (permute [] sigma p)) = List.length (hd [] p)).
  { destruct p as [|r p].
    - apply Permutation_sym, Permutation_nil in Hperm. now subst.
    - destruct sigma as [|k sigma].
      + apply Permutation_nil in Hperm. discriminate.
      + change (hd [] (permute [] (k :: sigma) (r :: p))) with (nth k (r :: p) []).
        change (hd [] (r :: p)) with r.
        rewrite Forall_forall in Hrows.
        rewrite (Hrows r) by now left.
        apply Hrows. apply (nth_In (r :: p)).
        apply (perm_in_range _ _ _ Hperm). now left. }
  unfold columns. rewrite Hhd, map_map. apply map_ext. intros j.
  unfold permute. rewrite map_map. apply map_ext. intros i.
  pose proof (map_nth (fun row => nth j row 0%Q) p [] i) as E.
  cbv beta in E. rewrite nth_nil_0 in E. now rewrite E.
Qed.

Lemma columns_permute_cols (tau : list nat) (r : list Q) (p : plane) (m : nat) :
  Forall (fun r => List.length r = m) (r :: p) ->
  Permutation tau (seq 0 m) ->
  columns (map (permute 0%Q tau) (r :: p)) = permute [] tau (columns (r :: p)).
Proof.
  intros Hrows Hperm.
  pose proof (perm_length _ _ Hperm) as Hlen.
  assert (Hr : List.length r = m) by now inversion Hrows.
  unfold columns.
  change (hd [] (map (permute 0%Q tau) (r :: p))) with (permute 0%Q tau r).
  change (hd [] (r :: p)) with r.
  assert (Hpl : List.length (permute 0%Q tau r) = m)
    by (unfold permute; now rewrite length_map).
  rewrite Hpl, Hr.
  set (F := fun j => map (fun row => nth j row 0%Q) (r :: p)).
  transitivity (map F tau).
  - replace (map F tau)
      with (map F (map (fun i => nth i tau 0) (seq 0 (List.length tau))))
      by now rewrite map_nth_seq.
    rewrite Hlen, map_map.
    apply map_ext_in. intros j Hj. apply in_seq in Hj.
    unfold F. rewrite map_map. apply map_ext. intros row.
    unfold permute.
    apply (nth_map_in_range (fun i => nth i row 0%Q) tau j 0 0%Q). lia.
  - unfold permute. apply map_ext_in. intros k Hk.
    symmetry. apply nth_map_seq. now apply (perm_in_range _ _ _ Hperm).
Qed.

Lemma mapM_nth {A B : Type} (f : A -> option B) (l : list A) (v : list B)
    (k : nat) (d : A) (e : B) :
  mapM f l = Some v -> k < List.length l -> f (nth k l d) = Some (nth k v e).
Proof.
  revert v k; induction l as [|a l IH]; intros v k H Hk; simpl in *; [lia|].
  destruct (f a) eqn:Ea; simpl in H; [|discriminate].
  destruct (mapM f l) eqn:El; simpl in H; [|discriminate].
  injection H as <-. destruct k; simpl; [exact Ea|].
  apply IH; [reflexivity | lia].
Qed.

Lemma mapM_permute {A B : Type} (f : A -> option B) (l : list A) (v : list B)
    (tau : list nat) (d : A) (e : B) :
  mapM f l = Some v -> (forall k, In k tau -> k < List.length l) ->
  mapM f (permute d tau l) = Some (permute e tau v).
Proof.
  intros H. induction tau as [|k tau IH]; intros Hr; simpl; [reflexivity|].
  rewrite (mapM_nth f l v k d e H) by (apply Hr; now left).
  rewrite IH by (intros k' Hk'; apply Hr; now right). reflexivity.
Qed.

Lemma mapM_rel (red : list Q -> option Q) (l l' : list (list Q)) :
  Forall2 (fun a b => oq_eq (red a) (red b)) l l' ->
  orel (Forall2 Qeq) (mapM red l) (mapM red l').
Proof.
  induction 1 as [|a b l l' Hab Hl IH]; simpl; [constructor|].
  destruct (red a), (red b); simpl in Hab; try contradiction; simpl; [|exact I].
  destruct (mapM red l), (mapM red l'); simpl in IH; try contradiction; simpl;
    [|exact I].
  now constructor.
Qed.

Lemma Forall2_map_l {A : Type} (R : A -> A -> Prop) (g : A -> A) (l : list A) :
  (forall c, In c l -> R (g c) c) -> Forall2 R (map g l) l.
Proof.
  induction l as [|c l IH]; intros H; simpl; constructor.
  - apply H. now left.
  - apply IH. intros c' Hc'. apply H. now right.
Qed.

Lemma axis0_rows (red : list Q -> option Q) (sigma : list nat) (p : plane) (m : nat) :
  order_free red ->
  Forall (fun r => List.length r = m) p ->
  Permutation sigma (seq 0 (List.length p)) ->
  orel (Forall2 Qeq) (reduce_axis0 red (permute [] sigma p)) (reduce_axis0 red p).
Proof.
  intros Hred Hrows Hperm.
  pose proof (columns_permute_rows sigma p m Hrows Hperm) as Hcols.
  destruct p as [|r p].
  - apply Permutation_sym, Permutation_nil in Hperm. subst. exact I.
  - destruct sigma as [|k sigma].
    + apply Permutation_nil in Hperm. discriminate.
    + unfold reduce_axis0.
      change (permute [] (k :: sigma) (r :: p))
        with (nth k (r :: p) [] :: permute [] sigma (r :: p)) in *.
      rewrite Hcols. apply mapM_rel, Forall2_map_l.
      intros c Hc. apply Hred, Permutation_PermutationA; [exact Q_Setoid|].
      apply permute_perm.
      unfold columns in Hc. apply in_map_iff in Hc as (j & <- & _).
      now rewrite length_map.
Qed.

Lemma axis0_cols (red : list Q -> option Q) (tau : list nat) (r : list Q)
    (p : plane) (m : nat) :
  total_reduction red ->
  Forall (fun r => List.length r = m) (r :: p) ->
  Permutation tau (seq 0 m) ->
  exists v, reduce_axis0 red (r :: p) = Some v /\ List.length v = m /\
            reduce_axis0 red (map (permute 0%Q tau) (r :: p))
            = Some (permute 0%Q tau v).
Proof.
  intros Hred Hrows Hperm.
  destruct (reduce_axis0_total red r p Hred) as (v & Hv & Hl).
  assert (Hr : List.length r = m) by now inversion Hrows.
  exists v. split; [exact Hv|]. split; [congruence|].
  pose proof (columns_permute_cols tau r p m Hrows Hperm) as Hcols.
  unfold reduce_axis0 in *. simpl map in *. rewrite Hcols.
  apply mapM_permute; [exact Hv|].
  intros k Hk. unfold columns. rewrite length_map, length_seq. simpl hd. rewrite Hr.
  now apply (perm_in_range _ _ _ Hperm).
Qed.

Lemma combine_scores_rel (ue uc : bool) (e e' c c' : list Q) :
  Forall2 Qeq e e' -> Forall2 Qeq c c' ->
  orel (Forall2 Qeq) (combine_scores ue uc e c) (combine_scores ue uc e' c').
Proof.
  intros He Hc. unfold combine_scores. destruct ue, uc; simpl; try exact I.
  - revert c c' Hc. induction He as [|x x' e e' Hx He IH]; intros c c' Hc; simpl.
    + constructor.
    + destruct Hc as [|y y' c c' Hy Hc]; simpl; constructor.
      * now rewrite Hx, Hy.
      * now apply IH.
  - exact He.
  - induction Hc as [|y y' c c' Hy Hc IH]; simpl; constructor; [now rewrite Hy | exact IH].
Qed.

Lemma combine_map_same {A B : Type} (f : nat -> A) (g : nat -> B) (l : list nat) :
  combine (map f l) (map g l) = map (fun k => (f k, g k)) l.
Proof. induction l as [|k l IH]; simpl; [reflexivity | now rewrite IH]. Qed.

Lemma combine_scores_permute (ue uc : bool) (tau : list nat) (v w : list Q) (m : nat) :
  List.length v = m -> List.length w = m -> (forall k, In k tau -> k < m) ->
  combine_scores ue uc (permute 0%Q tau v) (permute 0%Q tau w)
  = option_map (permute 0%Q tau) (combine_scores ue uc v w).
Proof.
  intros Hv Hw Hr. unfold combine_scores, permute.
  destruct ue, uc; simpl; try reflexivity; f_equal.
  - rewrite combine_map_same, map_map. apply map_ext_in. intros k Hk.
    rewrite (nth_map_in_range _ (combine v w) k (0%Q, 0%Q)).
    + now rewrite combine_nth by congruence.
    + rewrite length_combine, Hv, Hw, Nat.min_id. now apply Hr.
  - rewrite map_map. apply map_ext_in. intros k Hk.
    symmetry. apply nth_map_in_range. rewrite Hw. now apply Hr.
Qed.

Lemma combine_scores_length (ue uc : bool) (v w s : list Q) (m : nat) :
  List.length v = m -> List.length w = m ->
  combine_scores ue uc v w = Some s -> List.length s = m.
Proof.
  intros Hv Hw. unfold combine_scores.
  destruct ue, uc; intros H; try discriminate; injection H as <-.
  - now rewrite length_map, length_combine, Hv, Hw, Nat.min_id.
  - exact Hv.
  - now rewrite length_map.
Qed.

Lemma has_shape_nth (d n m k : nat) (img : image) (p : plane) :
  has_shape d n m img -> nth_error img k = Some p ->
  List.length p = n /\ Forall (fun r => List.length r = m) p.
Proof.
  intros [_ Hall] E. rewrite Forall_forall in Hall.
  exact (Hall p (nth_error_In _ _ E)).
Qed.

Lemma has_shape_permute_rows (d n m : nat) (img : image) (sigma : list nat) :
  has_shape d n m img -> Permutation sigma (seq 0 n) ->
  has_shape d n m (permute_rows sigma img).
Proof.
  intros [Hd Hall] Hperm. split.
  - unfold permute_rows. now rewrite length_map.
  - unfold permute_rows. rewrite Forall_map. eapply Forall_impl; [|exact Hall].
    intros p [Hp Hrows]. split.
    + unfold permute. rewrite length_map. now apply perm_length.
    + unfold permute. rewrite Forall_map, Forall_forall. intros k Hk.
      rewrite Forall_forall in Hrows. apply Hrows, nth_In.
      rewrite Hp. now apply (perm_in_range _ _ _ Hperm).
Qed.

Lemma nth_error_permute_rows (sigma : list nat) (img : image) (k : nat) :
  nth_error (permute_rows sigma img) k = option_map (permute [] sigma) (nth_error img k).
Proof. apply nth_error_map. Qed.

Lemma nth_error_permute_cols (tau : list nat) (img : image) (k : nat) :
  nth_error (permute_cols tau img) k
  = option_map (map (permute 0%Q tau)) (@nth_error plane img k).
Proof. apply nth_error_map. Qed.

Lemma image2score_spec_rows (zs : SummaCZS) (img : image) (d n m : nat)
    (sigma : list nat) :
  has_shape d n m img -> Permutation sigma (seq 0 n) ->
  oq_eq (image2score_spec zs (permute_rows sigma img)) (image2score_spec zs img).
Proof.
  intros Hs Hperm. unfold image2score_spec.
  destruct (reduction (op1 zs)) as [red1|] eqn:E1; [|exact I].
  destruct (reduction (op2 zs)) as [red2|] eqn:E2; [|exact I].
  cbn [obind]. rewrite !nth_error_permute_rows.
  destruct (nth_error img 0) as [p0|] eqn:Ep0; [|exact I].
  destruct (nth_error img 1) as [p1|] eqn:Ep1; [|exact I].
  cbn [option_map obind].
  destruct (has_shape_nth _ _ _ _ _ _ Hs Ep0) as [Hn0 Hr0].
  destruct (has_shape_nth _ _ _ _ _ _ Hs Ep1) as [Hn1 Hr1].
  pose proof (axis0_rows red1 sigma p0 m (reduction_order_free _ _ E1) Hr0) as R0.
  pose proof (axis0_rows red1 sigma p1 m (reduction_order_free _ _ E1) Hr1) as R1.
  rewrite Hn0 in R0. rewrite Hn1 in R1. specialize (R0 Hperm). specialize (R1 Hperm).
  destruct (reduce_axis0 red1 (permute [] sigma p0)) as [e'|],
           (reduce_axis0 red1 p0) as [e|]; simpl in R0; try contradiction; [|exact I].
  cbn [obind].
  destruct (reduce_axis0 red1 (permute [] sigma p1)) as [c'|],
           (reduce_axis0 red1 p1) as [c|]; simpl in R1; try contradiction; [|exact I].
  cbn [obind].
  pose proof (combine_scores_rel (use_ent zs) (use_con zs) _ _ _ _ R0 R1) as RC.
  destruct (combine_scores (use_ent zs) (use_con zs) e' c') as [s'|],
           (combine_scores (use_ent zs) (use_con zs) e c) as [s|];
    simpl in RC; try contradiction; [|exact I].
  cbn [obind]. apply (reduction_order_free _ _ E2). now apply Forall2_permA.
Qed.

Lemma image2score_spec_cols (zs : SummaCZS) (img : image) (d n m : nat)
    (tau : list nat) :
  has_shape d n m img -> Permutation tau (seq 0 m) ->
  oq_eq (image2score_spec zs (permute_cols tau img)) (image2score_spec zs img).
Proof.
  intros Hs Hperm. unfold image2score_spec.
  destruct (reduction (op1 zs)) as [red1|] eqn:E1; [|exact I].
  destruct (reduction (op2 zs)) as [red2|] eqn:E2; [|exact I].
  cbn [obind]. rewrite !nth_error_permute_cols.
  destruct (nth_error img 0) as [p0|] eqn:Ep0; [|exact I].
  destruct (nth_error img 1) as [p1|] eqn:Ep1; [|exact I].
  cbn [option_map obind].
  destruct (has_shape_nth _ _ _ _ _ _ Hs Ep0) as [Hn0 Hr0].
  destruct (has_shape_nth _ _ _ _ _ _ Hs Ep1) as [Hn1 Hr1].
  destruct p0 as [|r0 p0]; [exact I|].
  destruct p1 as [|r1 p1]; [simpl in Hn0, Hn1; lia|].
  destruct (axis0_cols red1 tau r0 p0 m (reduction_total _ _ E1) Hr0 Hperm)
    as (v & Hv & Hlv & Hv').
  destruct (axis0_cols red1 tau r1 p1 m (reduction_total _ _ E1) Hr1 Hperm)
    as (w & Hw & Hlw & Hw').
  rewrite Hv, Hv', Hw, Hw'. cbn [obind].
  rewrite (combine_scores_permute _ _ tau v w m Hlv Hlw)
    by (intros k Hk; now apply (perm_in_range _ _ _ Hperm)).
  destruct (combine_scores (use_ent zs) (use_con zs) v w) as [s|] eqn:Es; [|exact I].
  cbn [option_map obind].
  apply (reduction_order_free _ _ E2), Permutation_PermutationA; [exact Q_Setoid|].
  apply permute_perm.
  now rewrite (combine_scores_length _ _ _ _ _ m Hlv Hlw Es).
Qed.

(** the score does not change under a permutation of the rows and a
    permutation of the columns, for every valid [op1] and [op2] *)
Lemma image2score_perm (zs : SummaCZS) (img : image) (d n m : nat)
    (sigma tau : list nat) :
  In (op1 zs) ["max"; "mean"; "min"] -> In (op2 zs) ["min"; "mean"; "max"] ->
  has_shape d n m img ->
  Permutation sigma (seq 0 n) -> Permutation tau (seq 0 m) ->
  oq_eq (image2score zs (permute_cols tau (permute_rows sigma img)))
        (image2score zs img).
Proof.
  intros H1 H2 Hs Hsig Htau. rewrite !image2score_eq_spec by assumption.
  eapply oq_eq_trans.
  - apply (image2score_spec_cols zs _ d n m tau); [|exact Htau].
    now apply has_shape_permute_rows.
  - now apply (image2score_spec_rows zs img d n m sigma).
Qed.

(** [np.max] and [np.min] return the greatest and the least element *)
Lemma fold_max_spec (xs : list Q) (x0 : Q) :
  (x0 <= fold_left Qmax xs x0)%Q /\
  Forall (fun y => (y <= fold_left Qmax xs x0)%Q) xs /\
  Exists (fun y => (y == fold_left Qmax xs x0)%Q) (x0 :: xs).
Proof.
  revert x0; induction xs as [|a xs IH]; intros x0; simpl.
  - split; [apply Qle_refl|]. split; [constructor|]. left. reflexivity.
  - destruct (IH (Qmax x0 a)) as (H1 & H2 & H3).
    split; [eapply Qle_trans; [apply Q.le_max_l | exact H1]|].
    split.
    + constructor; [eapply Qle_trans; [apply Q.le_max_r | exact H1] | exact H2].
    + inversion H3 as [? ? E|? ? E]; subst.
      * destruct (Q.max_dec x0 a) as [M|M].
        -- left. apply Qeq_trans with (Qmax x0 a); [apply Qeq_sym, M | exact E].
        -- right. left. apply Qeq_trans with (Qmax x0 a); [apply Qeq_sym, M | exact E].
      * right. now right.
Qed.

Lemma fold_min_spec (xs : list Q) (x0 : Q) :
  (fold_left Qmin xs x0 <= x0)%Q /\
  Forall (fun y => (fold_left Qmin xs x0 <= y)%Q) xs /\
  Exists (fun y => (y == fold_left Qmin xs x0)%Q) (x0 :: xs).
Proof.
  revert x0; induction xs as [|a xs IH]; intros x0; simpl.
  - split; [apply Qle_refl|]. split; [constructor|]. left. reflexivity.
  - destruct (IH (Qmin x0 a)) as (H1 & H2 & H3).
    split; [eapply Qle_trans; [exact H1 | apply Q.le_min_l]|].
    split.
    + constructor; [eapply Qle_trans; [exact H1 | apply Q.le_min_r] | exact H2].
    + inversion H3 as [? ? E|? ? E]; subst.
      * destruct (Q.min_dec x0 a) as [M|M].
        -- left. apply Qeq_trans with (Qmin x0 a); [apply Qeq_sym, M | exact E].
        -- right. left. apply Qeq_trans with (Qmin x0 a); [apply Qeq_sym, M | exact E].
      * right. now right.
Qed.

Lemma np_max_greatest (l : list Q) (x : Q) :
  np_max l = Some x ->
  Forall (fun y => (y <= x)%Q) l /\ Exists (fun y => (y == x)%Q) l.
Proof.
  destruct l as [|x0 xs]; [discriminate|]. simpl. intros H. injection H as <-.
  destruct (fold_max_spec xs x0) as (H1 & H2 & H3). split; [now constructor | exact H3].
Qed.

Lemma np_min_least (l : list Q) (x : Q) :
  np_min l = Some x ->
  Forall (fun y => (x <= y)%Q) l /\ Exists (fun y => (y == x)%Q) l.
Proof.
  destruct l as [|x0 xs]; [discriminate|]. simpl. intros H. injection H as <-.
  destruct (fold_min_spec xs x0) as (H1 & H2 & H3). split; [now constructor | exact H3].
Qed.

(** C7 (as the code has it): for every valid [op1] and [op2], not only for
    mean and mean, the score is unchanged by a permutation of the rows and a
    permutation of the columns of the image; and [np.max] and [np.min], the
    reductions behind max and min, return the greatest and the least
    element of the vector. *)
Theorem image2score_permutation_invariant (zs : SummaCZS) (img : image)
    (d n m : nat) (sigma tau : list nat) :
  In (op1 zs) ["max"; "mean"; "min"] -> In (op2 zs) ["min"; "mean"; "max"] ->
  has_shape d n m img ->
  Permutation sigma (seq 0 n) -> Permutation tau (seq 0 m) ->
  oq_eq (image2score zs (permute_cols tau (permute_rows sigma img)))
        (image2score zs img) /\
  (forall l x, np_max l = Some x ->
     Forall (fun y => (y <= x)%Q) l /\ Exists (fun y => (y == x)%Q) l) /\
  (forall l x, np_min l = Some x ->
     Forall (fun y => (x <= y)%Q) l /\ Exists (fun y => (y == x)%Q) l).
Proof.
  intros H1 H2 Hs Hsig Htau. split; [|split].
  - now apply (image2score_perm zs img d n m).
  - exact np_max_greatest.
  - exact np_min_least.
Qed.

Lemma image2score_permutation_invariant_witness :
  oq_eq (image2score demo_zs (permute_cols [1; 0] (permute_rows [1; 0] demo_image)))
        (image2score demo_zs demo_image).
Proof.
  apply (image2score_permutation_invariant demo_zs demo_image 3 2 2 [1; 0] [1; 0]).
  - simpl. auto.
  - simpl. auto.
  - split; [reflexivity|]. repeat constructor.
  - apply perm_swap.
  - apply perm_swap.
Defined.

(** C7 as the spec words it fails: with max for both operators, which are
    not mean, the score is invariant as well. *)
Lemma permutation_invariant_not_only_mean :
  ~ (forall zs : SummaCZS,
       In (op1 zs) ["max"; "mean"; "min"] -> In (op2 zs) ["min"; "mean"; "max"] ->
       (forall img d n m sigma tau,
          has_shape d n m img ->
          Permutation sigma (seq 0 n) -> Permutation tau (seq 0 m) ->
          oq_eq (image2score zs (permute_cols tau (permute_rows sigma img)))
                (image2score zs img)) ->
       op1 zs = "mean" /\ op2 zs = "mean").
Proof.
  intros H.
  destruct (H (mkZS demo_imager "max" "max" true true)) as [E _].
  - simpl. auto.
  - simpl. auto.
  - intros img d n m sigma tau Hs Hsig Htau.
    apply (image2score_perm _ img d n m); simpl; auto.
  - discriminate E.
Qed.

Lemma image2score_refines_spec_witness :
  image2score demo_zs demo_image = image2score_spec demo_zs demo_image /\
  exists s, image2score demo_zs demo_image = Some s.
Proof.
  assert (H1 : In (op1 demo_zs) ["max"; "mean"; "min"]) by (simpl; auto).
  assert (H2 : In (op2 demo_zs) ["min"; "mean"; "max"]) by (simpl; auto).
  destruct (image2score_refines_spec demo_zs demo_image H1 H2 eq_refl) as [E T].
  split; [exact E|].
  apply (T 2 2); [lia | lia |].
  split; [reflexivity|]. repeat constructor.
Defined.

(** ** The degenerate image *)

Lemma flat_map_length_const {A B : Type} (f : A -> list B) (l : list A) (k : nat) :
  (forall x, List.length (f x) = k) ->
  List.length (flat_map f l) = List.length l * k.
Proof.
  intros H. induction l as [|x l IH]; simpl; [reflexivity|].
  now rewrite length_app, H, IH.
Qed.

Lemma build_chunk_dataset_length (im : SummaCImager) (original generated : string)
    (pidx : option nat) (ds : list ChunkPair) (n m : nat) :
  build_chunk_dataset im original generated pidx = (ds, n, m) ->
  List.length ds = n * m.
Proof.
  unfold build_chunk_dataset.
  destruct (match snd (grans im) with
            | [] => (fst (grans im), fst (grans im))
            | g1 :: _ => (fst (grans im), g1)
            end) as [gd gs].
  intros H. injection H as <- <- <-.
  rewrite (flat_map_length_const _ _ (List.length (split_text im generated gs))).
  - now rewrite length_seq.
  - intros i. now rewrite length_map, length_seq.
Qed.

Lemma image2score_zero (zs : SummaCZS) :
  use_ent zs = true -> use_con zs = true ->
  image2score zs (zeros 3 1 1) = Some 0%Q.
Proof.
  intros He Hc. unfold image2score. rewrite He, Hc.
  destruct (op1 zs =? "mean")%string, (op1 zs =? "min")%string,
           (op2 zs =? "min")%string, (op2 zs =? "max")%string; reflexivity.
Qed.

(** C3 (as the code has it): when the pair is not answered from the cache
    and chunking leaves no unit on one side, [build_image] returns the
    3 x 1 x 1 zero image, and with both flags the scorer maps that image to
    exactly zero. *)
Theorem degenerate_image_scores_zero (im : SummaCImager) (original generated : string)
    (zs : SummaCZS) :
  use_cache im = false \/ dict_get key_dec [original; generated] (cache im) = None ->
  N_ori_of im original generated = 0 \/ N_gen_of im original generated = 0 ->
  use_ent zs = true -> use_con zs = true ->
  fst (build_image im original generated) = zeros 3 1 1 /\
  image2score zs (zeros 3 1 1) = Some 0%Q.
Proof.
  intros Hmiss Hempty He Hc. split; [|now apply image2score_zero].
  unfold build_image.
  assert (Hlook : (if use_cache im
                   then dict_get key_dec [original; generated] (cache im)
                   else None) = None).
  { destruct Hmiss as [-> | ->]; [reflexivity | now destruct (use_cache im)]. }
  rewrite Hlook.
  destruct (build_chunk_dataset im original generated None) as [[ds n] m] eqn:E.
  pose proof E as E0.
  apply build_chunk_dataset_length in E.
  unfold N_ori_of, N_gen_of in Hempty. rewrite E0 in Hempty. simpl in Hempty.
  assert (Hz : List.length ds = 0) by (destruct Hempty; subst; lia).
  now rewrite Hz.
Qed.

Lemma degenerate_image_scores_zero_witness :
  fst (build_image demo_imager demo_doc "Too short.") = zeros 3 1 1 /\
  image2score demo_zs (zeros 3 1 1) = Some 0%Q.
Proof.
  apply degenerate_image_scores_zero.
  - right. reflexivity.
  - right. vm_compute. reflexivity.
  - reflexivity.
  - reflexivity.
Defined.

(** C3 as the spec words it fails: the degenerate image has three planes,
    it is not a 1 x 1 x 1 array. *)
Lemma degenerate_image_has_three_planes :
  split_text demo_imager "Too short." Sentence = [] /\
  shape (fst (build_image demo_imager demo_doc "Too short.")) = (3, 1, 1) /\
  fst (build_image demo_imager demo_doc "Too short.") <> zeros 1 1 1.
Proof.
  split; [vm_compute; reflexivity|]. split; [vm_compute; reflexivity|].
  vm_compute. discriminate.
Qed.

Lemma save_load_cache_round_trip_witness :
  load_cache demo_imager (save_cache demo_cached (mkFS [] []))
  = (save_cache demo_cached (mkFS [] []),
     Returned (set_cache demo_imager (cache demo_cached))).
Proof.
  apply save_load_cache_round_trip.
  - repeat constructor. simpl. tauto.
  - intros k [<-|[]]. exists demo_doc, demo_sum.
    repeat split; vm_compute; reflexivity.
  - reflexivity.
  - reflexivity.
  - reflexivity.
Defined.

(** ** Histograms *)

Lemma Qle_bool_false (x y : Q) : Qle_bool x y = false -> ~ (x <= y)%Q.
Proof. intros H Hle. apply Qle_bool_iff in Hle. congruence. Qed.

Ltac qbools :=
  repeat match goal with
         | H : Qle_bool _ _ = true |- _ => apply Qle_bool_iff in H
         | H : Qle_bool _ _ = false |- _ => apply Qle_bool_false in H
         end.

Lemma count_split (lo hi top : Q) (a : list Q) :
  (lo <= hi)%Q -> (hi <= top)%Q ->
  List.length (filter (fun v => Qle_bool lo v && negb (Qle_bool hi v)) a)
  + List.length (filter (fun v => Qle_bool hi v && Qle_bool v top) a)
  = List.length (filter (fun v => Qle_bool lo v && Qle_bool v top) a).
Proof.
  intros H1 H2. induction a as [|v a IH]; simpl; [reflexivity|].
  destruct (Qle_bool lo v) eqn:E1, (Qle_bool hi v) eqn:E2, (Qle_bool v top) eqn:E3;
    simpl; try lia; exfalso; qbools; lra.
Qed.

Lemma last_indep_cons (e : Q) (rest : list Q) (d d' : Q) :
  last (e :: rest) d = last (e :: rest) d'.
Proof.
  revert e; induction rest as [|e' rest IH]; intros e; [reflexivity|].
  change (last (e' :: rest) d = last (e' :: rest) d'). apply IH.
Qed.

Lemma chain_last (lo e : Q) (rest : list Q) :
  chain lo (e :: rest) -> (lo <= last (e :: rest) lo)%Q.
Proof.
  revert lo e; induction rest as [|e' rest IH]; intros lo e [H1 H2].
  - exact H1.
  - change (last (e :: e' :: rest) lo) with (last (e' :: rest) lo).
    rewrite (last_indep_cons e' rest lo e).
    apply Qle_trans with e; [exact H1 | now apply IH].
Qed.

Lemma list_sum_cons (x : nat) (l : list nat) : list_sum (x :: l) = x + list_sum l.
Proof. reflexivity. Qed.

(** the counts of the bins add up to the number of values between the first
    and the last edge *)
Lemma histogram_from_sum (lo e : Q) (rest a : list Q) :
  chain lo (e :: rest) ->
  list_sum (histogram_from lo (e :: rest) a)
  = List.length (filter (fun v => Qle_bool lo v && Qle_bool v (last (e :: rest) lo)) a).
Proof.
  revert lo e; induction rest as [|e' rest IH]; intros lo e Hc.
  - simpl. lia.
  - destruct Hc as [H1 H2].
    change (histogram_from lo (e :: e' :: rest) a)
      with (List.length (filter (fun v => Qle_bool lo v && negb (Qle_bool e v)) a)
            :: histogram_from e (e' :: rest) a).
    change (last (e :: e' :: rest) lo) with (last (e' :: rest) lo).
    rewrite list_sum_cons, (IH e e' H2).
    rewrite (last_indep_cons e' rest lo e).
    apply count_split; [exact H1 | now apply chain_last].
Qed.

Lemma histogram_from_length (lo : Q) (edges a : list Q) :
  List.length (histogram_from lo edges a) = List.length edges.
Proof.
  revert lo; induction edges as [|e rest IH]; intros lo; [reflexivity|].
  destruct rest as [|e' rest]; [reflexivity|].
  change (histogram_from lo (e :: e' :: rest) a)
    with (List.length (filter (fun v => Qle_bool lo v && negb (Qle_bool e v)) a)
          :: histogram_from e (e' :: rest) a).
  cbn [List.length]. f_equal. apply IH.
Qed.

Lemma np_histogram_sum (edges a : list Q) :
  covering edges ->
  Forall (fun v => (0 <= v)%Q /\ (v <= 1)%Q) a ->
  list_sum (np_histogram edges a) = List.length a /\
  List.length (np_histogram edges a) = List.length edges - 1.
Proof.
  intros (lo & e & rest & -> & Hc & Hlo & Hhi) Ha. split.
  - unfold np_histogram. rewrite histogram_from_sum by exact Hc.
    f_equal. apply forallb_filter_id. apply forallb_forall. intros v Hv.
    rewrite Forall_forall in Ha. destruct (Ha v Hv) as [H0 H1].
    apply andb_true_intro. split; apply Qle_bool_iff; lra.
  - unfold np_histogram. rewrite histogram_from_length. simpl. lia.
Qed.

Lemma even_edge_step (n k : nat) :
  (inject_Z (Z.of_nat k) / inject_Z (Z.of_nat (S n))
   <= inject_Z (Z.of_nat (S k)) / inject_Z (Z.of_nat (S n)))%Q.
Proof.
  unfold Qdiv. apply Qmult_le_compat_r.
  - rewrite <- Zle_Qle. lia.
  - apply Qinv_le_0_compat. change 0%Q with (inject_Z 0). rewrite <- Zle_Qle. lia.
Qed.

Lemma even_edge_top (n : nat) :
  (inject_Z (Z.of_nat n) / inject_Z (Z.of_nat (S n)) <= 1)%Q.
Proof.
  apply Qle_shift_div_r.
  - change 0%Q with (inject_Z 0). rewrite <- Zlt_Qlt. lia.
  - rewrite Qmult_1_l. rewrite <- Zle_Qle. lia.
Qed.

Lemma even_chain (n len start : nat) :
  start + len = n ->
  chain (inject_Z (Z.of_nat start) / inject_Z (Z.of_nat (S n)))%Q
        (map (fun k => (inject_Z (Z.of_nat k) / inject_Z (Z.of_nat (S n)))%Q)
             (seq (S start) len) ++ [1%Q]).
Proof.
  revert start; induction len as [|len IH]; intros start H; cbn [seq map app chain].
  - split; [|exact I]. replace start with n by lia. apply even_edge_top.
  - split; [apply even_edge_step|]. apply IH. lia.
Qed.

Lemma even_bins_S (n : nat) :
  even_bins (S n)
  = Some (map (fun k => (inject_Z (Z.of_nat k) / inject_Z (Z.of_nat (S n)))%Q)
              (seq 0 (S n)) ++ [1%Q]).
Proof. reflexivity. Qed.

Lemma percentile_covering : covering percentile_bins.
Proof.
  unfold covering, percentile_bins.
  eexists _, _, _. split; [reflexivity|]. split.
  - cbn [chain]. repeat split; unfold Qle; simpl; lia.
  - split; unfold Qle; simpl; lia.
Qed.

Lemma bins_covering (b : bins_mode) (edges : list Q) :
  bins_of_mode b = Some edges -> covering edges.
Proof.
  destruct b as [n|]; unfold bins_of_mode.
  - destruct n as [|n]; [discriminate|]. rewrite even_bins_S. intros H.
    assert (E0 : edges
                 = map (fun k => (inject_Z (Z.of_nat k) / inject_Z (Z.of_nat (S n)))%Q)
                       (seq 0 (S n)) ++ [1%Q]) by congruence.
    subst edges. clear H.
    pose proof (even_chain n n 0 eq_refl) as Hc.
    change (seq 0 (S n)) with (0 :: seq 1 n). cbn [map app].
    destruct (map (fun k => (inject_Z (Z.of_nat k) / inject_Z (Z.of_nat (S n)))%Q)
                  (seq 1 n) ++ [1%Q]) as [|e rest] eqn:E.
    + destruct (map _ (seq 1 n)); discriminate E.
    + exists (inject_Z (Z.of_nat 0) / inject_Z (Z.of_nat (S n)))%Q, e, rest.
      split; [reflexivity|]. split; [exact Hc|]. split.
      * unfold Qdiv. rewrite Qmult_0_l. apply Qle_refl.
      * rewrite <- E, last_last. apply Qle_refl.
  - intros H. injection H as <-. exact percentile_covering.
Qed.

Lemma column_unit (img : image) (i_depth i_gen : nat) :
  unit_valued img ->
  Forall (fun v => (0 <= v)%Q /\ (v <= 1)%Q) (column img i_depth i_gen).
Proof.
  intros Hu. unfold column. rewrite Forall_map.
  assert (Hp : Forall (Forall (fun v => (0 <= v)%Q /\ (v <= 1)%Q)) (nth i_depth img [])).
  { destruct (nth_in_or_default i_depth img []) as [Hin| ->]; [|constructor].
    unfold unit_valued in Hu. rewrite Forall_forall in Hu. now apply Hu. }
  eapply Forall_impl; [|exact Hp]. intros row Hrow.
  destruct (nth_in_or_default i_gen row 0%Q) as [Hin| ->].
  - rewrite Forall_forall in Hrow. now apply Hrow.
  - split; [apply Qle_refl | unfold Qle; simpl; lia].
Qed.

Lemma column_length (img : image) (d n m i_depth i_gen : nat) :
  has_shape d n m img -> i_depth < d ->
  List.length (column img i_depth i_gen) = n.
Proof.
  intros [Hd Hall] Hi. unfold column. rewrite length_map.
  rewrite Forall_forall in Hall. apply Hall, nth_In. lia.
Qed.

Lemma valid_labels_select (labels : string) :
  valid_nli_labels labels = true ->
  exists i, i < 3 /\ label_selected labels i = true.
Proof.
  unfold valid_nli_labels. rewrite existsb_exists.
  intros (l & Hin & Heq). apply String.eqb_eq in Heq. subst l.
  simpl in Hin.
  destruct Hin as [<-|[<-|[<-|[<-|[<-|[<-|[<-|[]]]]]]]].
  - exists 0. split; [lia | reflexivity].
  - exists 1. split; [lia | reflexivity].
  - exists 2. split; [lia | reflexivity].
  - exists 0. split; [lia | reflexivity].
  - exists 0. split; [lia | reflexivity].
  - exists 1. split; [lia | reflexivity].
  - exists 0. split; [lia | reflexivity].
Qed.

Lemma mapM_map {A B : Type} (f : A -> option B) (g : A -> B) (l : list A) :
  (forall x, In x l -> f x = Some (g x)) -> mapM f l = Some (map g l).
Proof.
  induction l as [|a l IH]; intros H; simpl; [reflexivity|].
  rewrite (H a) by now left. rewrite IH by (intros x Hx; apply H; now right).
  reflexivity.
Qed.

Lemma has_shape_shape (d n m : nat) (img : image) :
  has_shape d n m img -> 1 <= d -> 1 <= n -> shape img = (d, n, m).
Proof.
  intros [Hd Hall] H1 Hn. unfold shape.
  destruct img as [|p img]; [simpl in Hd; lia|].
  inversion Hall as [|? ? [Hp Hrows] _]; subst.
  destruct p as [|r p]; [simpl in Hn; lia|].
  inversion Hrows; subst. reflexivity.
Qed.

(** C6: for an image of the imagers of a [SummaCConv] with values in
    [0, 1] and N >= 1 original units, the histogram matrix has [n_rows]
    rows, and the row of every generated unit kept in it is the
    concatenation of its per-(model, label) histograms, each of [n_bins]
    counts that add up to N. *)
Theorem histogram_segments_sum (imagers_ : list SummaCImager) (b : bins_mode)
    (labels agg_ : string) (conv : SummaCConv) (img : image) (n m : nat) :
  SummaCConv_init imagers_ b labels agg_ = Some conv ->
  has_shape (3 * List.length imagers_) n m img ->
  1 <= n ->
  unit_valued img ->
  exists rows,
    compute_histogram conv img = Some rows /\
    List.length rows = n_rows conv /\
    forall i_gen, i_gen < m -> i_gen < n_rows conv ->
      nth_error rows i_gen = Some (concat (histos_of conv img i_gen)) /\
      histos_of conv img i_gen <> [] /\
      Forall (fun h => List.length h = n_bins conv /\ list_sum h = n)
             (histos_of conv img i_gen).
Proof.
  intros Hinit Hs Hn Hu. unfold SummaCConv_init in Hinit.
  destruct (valid_nli_labels labels) eqn:Hlab; [|discriminate]. simpl in Hinit.
  destruct (List.length imagers_ =? 0) eqn:Hk; [discriminate|].
  apply Nat.eqb_neq in Hk.
  destruct (bins_of_mode b) as [edges|] eqn:Hb; [|discriminate].
  simpl in Hinit. injection Hinit as <-.
  apply bins_covering in Hb.
  set (conv := mkConv imagers_ edges labels (List.length edges - 1) 10 2
                      (List.length imagers_ * String.length labels)
                      (List.length imagers_ * String.length labels
                       * (List.length edges - 1)) agg_).
  assert (Hseg : forall i_gen,
             histos_of conv img i_gen <> [] /\
             Forall (fun h => List.length h = n_bins conv /\ list_sum h = n)
                    (histos_of conv img i_gen)).
  { intros i_gen. unfold histos_of. split.
    - destruct (valid_labels_select labels Hlab) as (i & Hi & Hsel).
      assert (Hin : In i (filter (label_selected labels) (seq 0 (List.length img)))).
      { apply filter_In. split; [|exact Hsel]. apply in_seq.
        destruct Hs as [Hd _]. lia. }
      simpl nli_labels.
      destruct (filter (label_selected labels) (seq 0 (List.length img)));
        [contradiction | discriminate].
    - rewrite Forall_map, Forall_forall. intros i_depth Hin.
      apply filter_In in Hin as [Hin _]. apply in_seq in Hin.
      destruct (np_histogram_sum edges (column img i_depth i_gen) Hb
                  (column_unit img i_depth i_gen Hu)) as [Hsum Hlen].
      simpl bins. simpl n_bins. split; [exact Hlen|].
      rewrite Hsum. apply (column_length img (3 * List.length imagers_) n m); [exact Hs|].
      destruct Hs as [Hd _]. lia. }
  unfold compute_histogram.
  rewrite (has_shape_shape _ n m img Hs) by lia.
  rewrite (mapM_map _ (fun i_gen => concat (histos_of conv img i_gen))).
  2:{ intros i_gen _. destruct (Hseg i_gen) as [Hne _].
      destruct (histos_of conv img i_gen); [congruence | reflexivity]. }
  cbn [obind]. eexists. split; [reflexivity|]. split.
  - rewrite length_firstn, length_app, length_map, length_seq, repeat_length.
    simpl n_rows. lia.
  - intros i_gen Him Hir. split; [|exact (Hseg i_gen)].
    rewrite nth_error_firstn.
    destruct (Nat.ltb_spec i_gen (n_rows conv)); [|lia].
    rewrite nth_error_app1 by now rewrite length_map, length_seq.
    exact (nth_error_map_seq (fun i => concat (histos_of conv img i)) m i_gen Him).
Qed.

Lemma histogram_segments_sum_witness :
  exists rows,
    compute_histogram demo_conv demo_image = Some rows /\
    nth_error rows 0 = Some (concat (histos_of demo_conv demo_image 0)) /\
    Forall (fun h => List.length h = 23 /\ list_sum h = 2)
           (histos_of demo_conv demo_image 0).
Proof.
  assert (Hs : has_shape (3 * List.length [demo_imager]) 2 2 demo_image)
    by (split; [reflexivity | repeat constructor]).
  assert (Hu : unit_valued demo_image)
    by (repeat constructor; unfold Qle; simpl; lia).
  destruct (histogram_segments_sum [demo_imager] Percentile "e" "mean" demo_conv
              demo_image 2 2 eq_refl Hs (le_S 1 1 (le_n 1)) Hu)
    as (rows & Hc & _ & Hr).
  exists rows. split; [exact Hc|].
  destruct (Hr 0) as (H1 & _ & H2); [lia | simpl; lia |].
  split; [exact H1 | exact H2].
Defined.

(** ** Batches *)

Lemma batcher_go_concat {A : Type} (n : nat) (l batch : list A) :
  concat (batcher_go n batch l) = batch ++ l.
Proof.
  revert batch; induction l as [|x l IH]; intros batch; simpl.
  - destruct batch; simpl; now rewrite ?app_nil_r.
  - destruct (List.length (batch ++ [x]) =? n); simpl; rewrite IH;
      now rewrite <- app_assoc.
Qed.

(** the batches are the dataset cut into pieces, in order *)
Lemma batcher_concat {A : Type} (l : list A) (n : nat) : concat (batcher l n) = l.
Proof. unfold batcher. now rewrite batcher_go_concat. Qed.

Lemma fold_left_concat {A B : Type} (g : A -> B -> A) (ls : list (list B)) (a : A) :
  fold_left (fun acc l => fold_left g l acc) ls a = fold_left g (concat ls) a.
Proof.
  revert a; induction ls as [|l ls IH]; intros a; simpl; [reflexivity|].
  now rewrite fold_left_app, IH.
Qed.

Lemma fold_left_combine_map {A B C : Type} (g : A -> B -> C -> A) (f : B -> C)
    (l : list B) (a : A) :
  fold_left (fun acc bp => g acc (fst bp) (snd bp)) (combine l (map f l)) a
  = fold_left (fun acc b => g acc b (f b)) l a.
Proof.
  revert a; induction l as [|b l IH]; intros a; simpl; [reflexivity | apply IH].
Qed.

Lemma fold_left_ext_eq {A B : Type} (f g : A -> B -> A) (l : list B) (a : A) :
  (forall a b, f a b = g a b) -> fold_left f l a = fold_left g l a.
Proof.
  intros H. revert a; induction l as [|b l IH]; intros a; simpl; [reflexivity|].
  now rewrite H, IH.
Qed.

Lemma fill_batch_fold (im : SummaCImager) (img : image) (batch : list ChunkPair) :
  fill_batch im img batch = fold_left (write_one im) batch img.
Proof.
  unfold fill_batch, batch_probs.
  exact (fold_left_combine_map (write_probs im)
           (fun b => nli_model im (premise b) (hypothesis b)) batch img).
Qed.

Lemma scatter_batch_fold (im : SummaCImager) (imgs : list image)
    (batch : list ChunkPair) :
  scatter_batch im imgs batch = fold_left (scatter_one im) batch imgs.
Proof.
  unfold scatter_batch, batch_probs.
  exact (fold_left_combine_map
           (fun imgs b p =>
              match pair_idx b with
              | Some k => list_update k (fun img => write_probs im img b p) imgs
              | None => imgs
              end)
           (fun b => nli_model im (premise b) (hypothesis b)) batch imgs).
Qed.

(** the batch size does not matter: the batch loop of [build_image] makes
    the writes of the dataset in order *)
Lemma fill_batches (im : SummaCImager) (ds : list ChunkPair) (n : nat) (img : image) :
  fold_left (fill_batch im) (batcher ds n) img = fold_left (write_one im) ds img.
Proof.
  transitivity (fold_left (fun acc l => fold_left (write_one im) l acc) (batcher ds n) img).
  - apply fold_left_ext_eq. intros a b. apply fill_batch_fold.
  - now rewrite fold_left_concat, batcher_concat.
Qed.

Lemma scatter_batches (im : SummaCImager) (ds : list ChunkPair) (n : nat)
    (imgs : list image) :
  fold_left (scatter_batch im) (batcher ds n) imgs = fold_left (scatter_one im) ds imgs.
Proof.
  transitivity (fold_left (fun acc l => fold_left (scatter_one im) l acc)
                          (batcher ds n) imgs).
  - apply fold_left_ext_eq. intros a b. apply scatter_batch_fold.
  - now rewrite fold_left_concat, batcher_concat.
Qed.

(** ** The single-pair builder *)

Lemma build_image_hit (im : SummaCImager) (original generated : string) (c : image) :
  use_cache im = true ->
  dict_get key_dec [original; generated] (cache im) = Some c ->
  build_image im original generated = (slice_rows (max_doc_sents im) c, im).
Proof. intros Hu Hc. unfold build_image. now rewrite Hu, Hc. Qed.

Lemma build_image_miss (im : SummaCImager) (original generated : string) :
  use_cache im = false \/ dict_get key_dec [original; generated] (cache im) = None ->
  fst (build_image im original generated) = compute_image im original generated.
Proof.
  intros Hmiss. unfold build_image, compute_image.
  assert (Hlook : (if use_cache im
                   then dict_get key_dec [original; generated] (cache im)
                   else None) = None).
  { destruct Hmiss as [-> | ->]; [reflexivity | now destruct (use_cache im)]. }
  rewrite Hlook.
  destruct (build_chunk_dataset im original generated None) as [[ds n] m].
  destruct (List.length ds =? 0); [reflexivity|].
  rewrite fill_batches. now destruct (use_cache im).
Qed.

Lemma build_image_no_cache (im : SummaCImager) (original generated : string) :
  use_cache im = false -> snd (build_image im original generated) = im.
Proof.
  intros Hu. unfold build_image. rewrite Hu.
  destruct (build_chunk_dataset im original generated None) as [[ds n] m].
  now destruct (List.length ds =? 0).
Qed.

(** ** The bulk builder *)

Lemma build_chunk_dataset_pair_idx (im : SummaCImager) (original generated : string)
    (p : option nat) :
  build_chunk_dataset im original generated p
  = (map (set_pair_idx p) (fst (fst (build_chunk_dataset im original generated None))),
     snd (fst (build_chunk_dataset im original generated None)),
     snd (build_chunk_dataset im original generated None)).
Proof.
  unfold build_chunk_dataset.
  destruct (match snd (grans im) with
            | [] => (fst (grans im), fst (grans im))
            | g1 :: _ => (fst (grans im), g1)
            end) as [gd gs].
  cbn [fst snd]. f_equal. f_equal.
  rewrite !flat_map_concat_map, concat_map, map_map. f_equal.
  apply map_ext. intros i. rewrite map_map. reflexivity.
Qed.

Lemma write_one_set_pair_idx (im : SummaCImager) (img : image) (p : option nat)
    (b : ChunkPair) :
  write_one im img (set_pair_idx p b) = write_one im img b.
Proof. reflexivity. Qed.

Lemma fold_write_set_pair_idx (im : SummaCImager) (p : option nat)
    (ds : list ChunkPair) (img : image) :
  fold_left (write_one im) (map (set_pair_idx p) ds) img = fold_left (write_one im) ds img.
Proof.
  revert img; induction ds as [|b ds IH]; intros img; simpl; [reflexivity|].
  now rewrite write_one_set_pair_idx, IH.
Qed.

Lemma list_update_app {A : Type} (f : A -> A) (pre : list A) (z : A) (rest : list A) :
  list_update (List.length pre) f (pre ++ z :: rest) = pre ++ f z :: rest.
Proof. induction pre as [|x pre IH]; simpl; [reflexivity | now rewrite IH]. Qed.

Lemma scatter_own_image (im : SummaCImager) (ds : list ChunkPair)
    (pre : list image) (z : image) (rest : list image) :
  (forall b, In b ds -> pair_idx b = Some (List.length pre)) ->
  fold_left (scatter_one im) ds (pre ++ z :: rest)
  = pre ++ fold_left (write_one im) ds z :: rest.
Proof.
  revert z; induction ds as [|b ds IH]; intros z H; simpl; [reflexivity|].
  unfold scatter_one at 2. rewrite (H b) by now left.
  rewrite list_update_app. apply IH. intros b' Hb'. apply H. now right.
Qed.

Lemma second_loop (im : SummaCImager) (E : list (nat * (string * string)))
    (acc : list ChunkPair * list image) :
  fold_left (fun acc ip =>
               let '(dataset, N_ori, N_gen) :=
                 build_chunk_dataset im (fst (snd ip)) (snd (snd ip)) (Some (fst ip)) in
               let img := if List.length dataset =? 0 then zeros 3 1 1
                          else zeros 3 N_ori N_gen in
               (fst acc ++ dataset, snd acc ++ [img]))
            E acc
  = (fst acc ++ concat (map (indexed_dataset im) E),
     snd acc ++ map (indexed_zeros im) E).
Proof.
  revert acc; induction E as [|ip E IH]; intros [a b]; simpl.
  - now rewrite !app_nil_r.
  - rewrite IH. unfold indexed_dataset at 2, indexed_zeros at 2.
    destruct (build_chunk_dataset im (fst (snd ip)) (snd (snd ip)) (Some (fst ip)))
      as [[ds n] m].
    cbn [fst snd]. now rewrite <- !app_assoc.
Qed.

Lemma indexed_dataset_pair_idx (im : SummaCImager) (ip : nat * (string * string))
    (b : ChunkPair) :
  In b (indexed_dataset im ip) -> pair_idx b = Some (fst ip).
Proof.
  unfold indexed_dataset. rewrite build_chunk_dataset_pair_idx. cbn [fst].
  intros Hin. apply in_map_iff in Hin as (b0 & <- & _). reflexivity.
Qed.

Lemma indexed_image (im : SummaCImager) (ip : nat * (string * string)) :
  fold_left (write_one im) (indexed_dataset im ip) (indexed_zeros im ip)
  = compute_image im (fst (snd ip)) (snd (snd ip)).
Proof.
  unfold indexed_dataset, indexed_zeros, compute_image.
  rewrite build_chunk_dataset_pair_idx.
  destruct (build_chunk_dataset im (fst (snd ip)) (snd (snd ip)) None) as [[ds n] m].
  cbn [fst snd]. rewrite length_map, fold_write_set_pair_idx.
  destruct ds as [|b ds]; reflexivity.
Qed.

Lemma scatter_all (im : SummaCImager) (todo : list (string * string))
    (pre : list image) :
  let E := combine (seq (List.length pre) (List.length todo)) todo in
  fold_left (scatter_one im) (concat (map (indexed_dataset im) E))
            (pre ++ map (indexed_zeros im) E)
  = pre ++ map (fun og => compute_image im (fst og) (snd og)) todo.
Proof.
  revert pre; induction todo as [|og todo IH]; intros pre; cbn zeta.
  - reflexivity.
  - cbn [List.length seq combine map concat].
    rewrite fold_left_app.
    rewrite scatter_own_image
      by (intros b Hb; now apply indexed_dataset_pair_idx in Hb).
    rewrite indexed_image. cbn [fst snd].
    specialize (IH (pre ++ [compute_image im (fst og) (snd og)])).
    cbn zeta in IH. rewrite length_app, Nat.add_1_r, <- !app_assoc in IH.
    exact IH.
Qed.

Lemma nth_error_middle {A : Type} (pre : list A) (x : A) (rest : list A) :
  nth_error (pre ++ x :: rest) (List.length pre) = Some x.
Proof. induction pre as [|y pre IH]; simpl; [reflexivity | exact IH]. Qed.

Lemma third_loop (im : SummaCImager) (todo : list (string * string))
    (pre : list image) (c : list (list string * image)) :
  fold_left (fun oc ip =>
               c <- oc ;;
               img <- nth_error
                        (pre ++ map (fun og => compute_image im (fst og) (snd og)) todo)
                        (fst ip) ;;
               Some (dict_set key_dec [fst (snd ip); snd (snd ip)] img c))
            (combine (seq (List.length pre) (List.length todo)) todo) (Some c)
  = Some (store_images im todo c).
Proof.
  revert pre c; induction todo as [|og todo IH]; intros pre c.
  - reflexivity.
  - cbn [List.length seq combine map fold_left fst snd obind].
    rewrite nth_error_middle. cbn [obind].
    specialize (IH (pre ++ [compute_image im (fst og) (snd og)])
                   (dict_set key_dec [fst og; snd og]
                             (compute_image im (fst og) (snd og)) c)).
    rewrite length_app, Nat.add_1_r, <- !app_assoc in IH.
    exact IH.
Qed.

Lemma store_images_other (im : SummaCImager) (todo : list (string * string))
    (c : list (list string * image)) (k : list string) :
  ~ In k (map (fun og => [fst og; snd og]) todo) ->
  dict_get key_dec k (store_images im todo c) = dict_get key_dec k c.
Proof.
  revert c; induction todo as [|og todo IH]; intros c Hk; [reflexivity|].
  simpl in Hk. unfold store_images in *. cbn [fold_left].
  rewrite IH by tauto. apply dict_get_set_neq. intros ->. tauto.
Qed.

Lemma store_images_stored (im : SummaCImager) (todo : list (string * string))
    (c : list (list string * image)) (o g : string) :
  In (o, g) todo ->
  dict_get key_dec [o; g] (store_images im todo c) = Some (compute_image im o g).
Proof.
  revert c; induction todo as [|og todo IH]; intros c Hin; [contradiction|].
  unfold store_images in *. cbn [fold_left].
  destruct (in_dec (list_eq_dec string_dec) [o; g]
                   (map (fun og => [fst og; snd og]) todo)) as [Hlater|Hlast].
  - apply in_map_iff in Hlater as ([o' g'] & E & Hin'). cbn [fst snd] in E.
    injection E as -> ->. now apply IH.
  - fold (store_images im todo
            (dict_set key_dec [fst og; snd og] (compute_image im (fst og) (snd og)) c)).
    rewrite store_images_other by exact Hlast.
    destruct Hin as [->|Hin].
    + cbn [fst snd]. apply dict_get_set_eq.
    + exfalso. apply Hlast. apply in_map_iff. exists (o, g). split; [reflexivity | exact Hin].
Qed.

Lemma store_images_lookup (im : SummaCImager) (originals generateds : list string)
    (og : string * string) :
  In og (combine originals generateds) ->
  dict_get key_dec [fst og; snd og]
           (store_images im (todo_pairs im originals generateds) (cache im))
  = Some (bulk_image im og).
Proof.
  intros Hin. unfold bulk_image.
  destruct (dict_get key_dec [fst og; snd og] (cache im)) as [c|] eqn:E.
  - rewrite store_images_other; [exact E|].
    intros Hk. apply in_map_iff in Hk as (og' & Ek & Hin').
    unfold todo_pairs in Hin'. apply filter_In in Hin' as [_ Hmem].
    rewrite Ek in Hmem. unfold dict_mem in Hmem. rewrite E in Hmem. discriminate.
  - destruct og as [o g]. cbn [fst snd] in *. apply store_images_stored.
    unfold todo_pairs. apply filter_In. split; [exact Hin|].
    cbn [fst snd]. unfold dict_mem. now rewrite E.
Qed.

(** [build_images] in closed form: it always returns, the images are the
    cached or computed images in input order, and the cache holds the
    computed images of the pairs that were not cached *)
Lemma build_images_eq (im : SummaCImager) (originals generateds : list string)
    (batch_size : nat) :
  build_images im originals generateds batch_size
  = Some (map (bulk_image im) (combine originals generateds),
          set_cache im (store_images im (todo_pairs im originals generateds) (cache im))).
Proof.
  unfold build_images. fold (todo_pairs im originals generateds).
  set (todo := todo_pairs im originals generateds).
  unfold enumerate. rewrite second_loop. cbn [fst snd app].
  rewrite scatter_batches.
  pose proof (scatter_all im todo []) as Hsc. cbn zeta in Hsc.
  cbn [List.length app] in Hsc. rewrite Hsc.
  pose proof (third_loop im todo [] (cache im)) as H3.
  cbn [List.length app] in H3. rewrite H3. cbn [obind].
  rewrite (mapM_map _ (bulk_image im)); [reflexivity|].
  intros og Hin. now apply store_images_lookup.
Qed.

(** C10: [build_images] always returns, whatever [use_cache] is; afterwards
    the cache has an entry for every input pair, the entries that were
    there are kept, every pair that was not cached now has its computed
    image, and the returned images are the cache entries of the input
    pairs in order.  [build_image] leaves the imager as it is when
    [use_cache] is false. *)
Theorem build_images_fills_cache (im : SummaCImager) (originals generateds : list string)
    (batch_size : nat) :
  exists images im',
    build_images im originals generateds batch_size = Some (images, im') /\
    (forall og, In og (combine originals generateds) ->
       dict_mem key_dec [fst og; snd og] (cache im') = true) /\
    (forall og c, In og (combine originals generateds) ->
       dict_get key_dec [fst og; snd og] (cache im) = Some c ->
       dict_get key_dec [fst og; snd og] (cache im') = Some c) /\
    (forall og, In og (combine originals generateds) ->
       dict_get key_dec [fst og; snd og] (cache im) = None ->
       dict_get key_dec [fst og; snd og] (cache im')
       = Some (compute_image im (fst og) (snd og))) /\
    mapM (fun og => dict_get key_dec [fst og; snd og] (cache im'))
         (combine originals generateds) = Some images /\
    (forall original generated,
       use_cache im = false -> snd (build_image im original generated) = im).
Proof.
  eexists _, _. split; [apply build_images_eq|].
  change (cache (set_cache im ?c)) with c.
  cbn [cache set_cache].
  split; [|split; [|split; [|split]]].
  - intros og Hin. unfold dict_mem. now rewrite store_images_lookup.
  - intros og c Hin Hc. rewrite store_images_lookup by exact Hin.
    unfold bulk_image. now rewrite Hc.
  - intros og Hin Hc. rewrite store_images_lookup by exact Hin.
    unfold bulk_image. now rewrite Hc.
  - apply mapM_map. intros og Hin. now apply store_images_lookup.
  - intros original generated Hu. now apply build_image_no_cache.
Qed.

Lemma build_images_fills_cache_witness :
  snd (build_image demo_uncached demo_doc demo_sum) = demo_uncached.
Proof.
  destruct (build_images_fills_cache demo_uncached [demo_doc] [demo_sum] 128)
    as (images & im' & _ & _ & _ & _ & _ & H).
  apply H. reflexivity.
Defined.

(** ** Cells of a computed image *)

Lemma nth_error_list_update {A : Type} (f : A -> A) (l : list A) (n k : nat) :
  nth_error (list_update n f l) k
  = if n =? k then option_map f (nth_error l k) else nth_error l k.
Proof.
  revert n k; induction l as [|x l IH]; intros n k.
  - destruct n, k; simpl; try reflexivity; now destruct (n =? k).
  - destruct n, k; simpl; try reflexivity. apply IH.
Qed.

Lemma get_cell_set_cell (img : image) (d i j d' i' j' : nat) (v : Q) :
  get_cell (set_cell img d i j v) d' i' j'
  = if (d =? d') && (i =? i') && (j =? j')
    then option_map (fun _ => v) (get_cell img d' i' j')
    else get_cell img d' i' j'.
Proof.
  unfold get_cell, set_cell. rewrite nth_error_list_update.
  destruct (d =? d'); [|reflexivity].
  destruct (nth_error img d') as [p|]; cbn [option_map obind andb].
  2:{ now destruct ((i =? i') && (j =? j')). }
  rewrite nth_error_list_update.
  destruct (i =? i'); [|reflexivity].
  destruct (nth_error p i') as [r|]; cbn [option_map obind andb].
  2:{ now destruct (j =? j'). }
  rewrite nth_error_list_update.
  destruct (j =? j'); reflexivity.
Qed.

Lemma option_map_const_twice {A : Type} (v w : A) (o : option A) :
  option_map (fun _ => v) (option_map (fun _ => w) o) = option_map (fun _ => v) o.
Proof. now destruct o. Qed.

Lemma get_cell_write_one (im : SummaCImager) (img : image) (b : ChunkPair)
    (d i j : nat) :
  d < 3 ->
  get_cell (write_one im img b) d i j
  = if (doc_i b =? i) && (gen_i b =? j)
    then option_map
           (fun _ => pick (class_idx im d) (nli_model im (premise b) (hypothesis b)))
           (get_cell img d i j)
    else get_cell img d i j.
Proof.
  intros Hd. unfold write_one, write_probs. rewrite !get_cell_set_cell.
  destruct d as [|[|[|d]]]; [| | |lia]; cbn [Nat.eqb andb class_idx];
    destruct ((doc_i b =? i) && (gen_i b =? j)); reflexivity.
Qed.

Lemma get_cell_fold_write (im : SummaCImager) (oc gc : list string)
    (ds : list ChunkPair) (img : image) (d i j : nat) :
  d < 3 ->
  (forall b, In b ds ->
     premise b = nth (doc_i b) oc EmptyString /\
     hypothesis b = nth (gen_i b) gc EmptyString) ->
  get_cell (fold_left (write_one im) ds img) d i j
  = if existsb (fun b => (doc_i b =? i) && (gen_i b =? j)) ds
    then option_map
           (fun _ => pick (class_idx im d)
                          (nli_model im (nth i oc EmptyString) (nth j gc EmptyString)))
           (get_cell img d i j)
    else get_cell img d i j.
Proof.
  intros Hd. revert img; induction ds as [|b ds IH]; intros img Hds; [reflexivity|].
  cbn [fold_left existsb]. rewrite IH by (intros b' Hb'; apply Hds; now right).
  rewrite get_cell_write_one by exact Hd.
  destruct (Hds b (or_introl eq_refl)) as [Hp Hh].
  destruct ((doc_i b =? i) && (gen_i b =? j)) eqn:E; cbn [orb].
  - apply andb_true_iff in E as [Ei Ej].
    apply Nat.eqb_eq in Ei. apply Nat.eqb_eq in Ej.
    rewrite Hp, Hh, Ei, Ej.
    destruct (existsb _ ds); [apply option_map_const_twice | reflexivity].
  - reflexivity.
Qed.

Lemma get_cell_zeros (dd n m d i j : nat) :
  d < dd -> i < n -> j < m -> get_cell (zeros dd n m) d i j = Some 0%Q.
Proof.
  intros Hd Hi Hj. unfold get_cell, zeros.
  rewrite nth_error_repeat by exact Hd. cbn [obind].
  rewrite nth_error_repeat by exact Hi. cbn [obind].
  now apply nth_error_repeat.
Qed.

Lemma build_chunk_dataset_form (im : SummaCImager) (original generated : string)
    (p : option nat) :
  exists oc gc,
    build_chunk_dataset im original generated p
    = (flat_map (fun i =>
                   map (fun j => mkChunk (nth i oc EmptyString) (nth j gc EmptyString)
                                         i j p)
                       (seq 0 (List.length gc)))
                (seq 0 (List.length oc)),
       List.length oc, List.length gc).
Proof.
  unfold build_chunk_dataset.
  destruct (match snd (grans im) with
            | [] => (fst (grans im), fst (grans im))
            | g1 :: _ => (fst (grans im), g1)
            end) as [gd gs].
  now eexists _, _.
Qed.

(** the cells of a computed image: the probabilities of the pair of units
    at that row and column, by class *)
Lemma compute_image_cell (im : SummaCImager) (original generated : string) :
  fst (fst (build_chunk_dataset im original generated None)) <> [] ->
  exists oc gc,
    forall d i j, d < 3 -> i < N_ori_of im original generated ->
                  j < N_gen_of im original generated ->
      get_cell (compute_image im original generated) d i j
      = Some (pick (class_idx im d)
                   (nli_model im (nth i oc EmptyString) (nth j gc EmptyString))).
Proof.
  unfold compute_image, N_ori_of, N_gen_of.
  destruct (build_chunk_dataset_form im original generated None) as (oc & gc & E).
  rewrite E. cbv beta iota. cbn [fst snd].
  remember (flat_map (fun i =>
                        map (fun j => mkChunk (nth i oc EmptyString)
                                              (nth j gc EmptyString) i j None)
                            (seq 0 (List.length gc)))
                     (seq 0 (List.length oc))) as ds eqn:Eds.
  intros Hne. exists oc, gc. intros d i j Hd Hi Hj.
  assert (Hds : forall b, In b ds ->
                  premise b = nth (doc_i b) oc EmptyString /\
                  hypothesis b = nth (gen_i b) gc EmptyString).
  { intros b Hb. rewrite Eds in Hb. apply in_flat_map in Hb as (i0 & _ & Hb).
    apply in_map_iff in Hb as (j0 & <- & _). split; reflexivity. }
  assert (Hex : existsb (fun b => (doc_i b =? i) && (gen_i b =? j)) ds = true).
  { apply existsb_exists.
    exists (mkChunk (nth i oc EmptyString) (nth j gc EmptyString) i j None).
    split.
    - rewrite Eds. apply in_flat_map. exists i. split; [apply in_seq; lia|].
      apply in_map_iff. exists j. split; [reflexivity | apply in_seq; lia].
    - cbn [doc_i gen_i]. now rewrite !Nat.eqb_refl. }
  destruct (List.length ds =? 0) eqn:El.
  { apply Nat.eqb_eq in El. destruct ds; [congruence | discriminate]. }
  rewrite (get_cell_fold_write im oc gc ds _ d i j Hd Hds), Hex.
  now rewrite get_cell_zeros.
Qed.

Lemma dict_get_In {K V : Type} (K_dec : forall a b : K, {a = b} + {a <> b})
    (k : K) (v : V) (d : list (K * V)) :
  dict_get K_dec k d = Some v -> In (k, v) d.
Proof.
  induction d as [|[k' v'] d IH]; simpl; [discriminate|].
  destruct (K_dec k k') as [->|Hne].
  - intros H. injection H as ->. now left.
  - intros H. right. now apply IH.
Qed.

(** the three class indices of a model are 0, 1 and 2 in some order: the
    three planes carry the three probabilities of the pair *)
Lemma picks_sum (im : SummaCImager) (p : probs) :
  indices_of_model_map im -> distribution p ->
  (pick (class_idx im 0) p + pick (class_idx im 1) p + pick (class_idx im 2) p == 1)%Q.
Proof.
  intros [(name & info & Hget & Hent & Hcon) Hneu] (_ & _ & _ & Hsum).
  cbn [class_idx]. rewrite Hneu, Hent, Hcon.
  apply dict_get_In in Hget. simpl in Hget.
  destruct p as [[a b] c]. cbn [fst snd] in Hsum.
  destruct Hget as [E|[E|[E|[E|[E|[E|[E|[E|[]]]]]]]]];
    injection E as _ <-; cbn [fst snd get_neutral_idx filter Nat.eqb negb andb hd pick];
    lra.
Qed.

Lemma compute_image_cells (im : SummaCImager) (original generated : string) :
  indices_of_model_map im -> (forall p h, distribution (nli_model im p h)) ->
  fst (fst (build_chunk_dataset im original generated None)) <> [] ->
  cells_sum_to_one (N_ori_of im original generated) (N_gen_of im original generated)
                   (compute_image im original generated).
Proof.
  intros Hidx Hdist Hne.
  destruct (compute_image_cell im original generated Hne) as (oc & gc & Hcell).
  intros i j Hi Hj. eexists _, _, _.
  split; [apply (Hcell 0); [lia | exact Hi | exact Hj]|].
  split; [apply (Hcell 1); [lia | exact Hi | exact Hj]|].
  split; [apply (Hcell 2); [lia | exact Hi | exact Hj]|].
  apply picks_sum; [exact Hidx | apply Hdist].
Qed.

(** C2: when the predictor returns a distribution for every pair of units,
    the image that [build_image] computes for a pair with units on both
    sides, and the image that [build_images] computes for it, have at every
    cell an entailment, a contradiction and a neutral value that add up to
    one. *)
Theorem image_cells_sum_to_one (im : SummaCImager) (original generated : string) :
  indices_of_model_map im -> (forall p h, distribution (nli_model im p h)) ->
  fst (fst (build_chunk_dataset im original generated None)) <> [] ->
  (use_cache im = false
   \/ dict_get key_dec [original; generated] (cache im) = None ->
   cells_sum_to_one (N_ori_of im original generated) (N_gen_of im original generated)
                    (fst (build_image im original generated))) /\
  (dict_get key_dec [original; generated] (cache im) = None ->
   forall originals generateds batch_size k,
     nth_error (combine originals generateds) k = Some (original, generated) ->
     exists images im' img,
       build_images im originals generateds batch_size = Some (images, im') /\
       nth_error images k = Some img /\
       cells_sum_to_one (N_ori_of im original generated)
                        (N_gen_of im original generated) img).
Proof.
  intros Hidx Hdist Hne.
  pose proof (compute_image_cells im original generated Hidx Hdist Hne) as Hcells.
  split.
  - intros Hmiss. now rewrite build_image_miss.
  - intros Hmiss originals generateds batch_size k Hk.
    eexists _, _, _. split; [apply build_images_eq|]. split.
    + rewrite nth_error_map, Hk. reflexivity.
    + unfold bulk_image. cbn [fst snd]. now rewrite Hmiss.
Qed.

Lemma demo_nli_distribution (p h : string) : distribution (demo_nli p h).
Proof.
  unfold demo_nli.
  destruct (p =? h)%string; [|destruct (String.length p =? String.length h)];
    unfold distribution; cbn [fst snd]; repeat split;
    try (unfold Qle; simpl; lia); reflexivity.
Qed.

Lemma image_cells_sum_to_one_witness :
  cells_sum_to_one 2 1 (fst (build_image demo_imager demo_doc demo_sum)).
Proof.
  refine (proj1 (image_cells_sum_to_one demo_imager demo_doc demo_sum _ _ _)
                (or_intror eq_refl)).
  - split; [|reflexivity]. exists "vitc", ("tals/albert-xlarge-vitaminc-mnli", 0, 1).
    repeat split.
  - exact demo_nli_distribution.
  - vm_compute. discriminate.
Defined.

(** ** The bulk builder against the single-pair builder *)

(** C1 fails on the code.  The sample imager (at most 100 original units)
    builds and caches the image of the sample pair and saves its cache; an
    imager of the same model and granularity with at most one original unit
    loads that cache.  For the pair, [build_image] then returns the cached
    image cut to one row, and [build_images] returns it with both rows. *)
Theorem build_images_ignores_row_cap :
  exists loaded,
    snd (load_cache demo_capped
           (save_cache (snd (build_image demo_imager demo_doc demo_sum)) (mkFS [] [])))
    = Returned loaded /\
    shape (fst (build_image loaded demo_doc demo_sum)) = (3, 1, 1) /\
    exists img im',
      build_images loaded [demo_doc] [demo_sum] 128 = Some ([img], im') /\
      shape img = (3, 2, 1) /\
      img <> fst (build_image loaded demo_doc demo_sum).
Proof.
  eexists. split; [vm_compute; reflexivity|].
  split; [vm_compute; reflexivity|].
  eexists _, _. split; [vm_compute; reflexivity|].
  split; [vm_compute; reflexivity|].
  vm_compute. discriminate.
Qed.

Lemma list_update_length {A : Type} (f : A -> A) (l : list A) (n : nat) :
  List.length (list_update n f l) = List.length l.
Proof.
  revert n; induction l as [|x l IH]; intros [|n]; simpl; auto.
Qed.

Lemma Forall_list_update {A : Type} (P : A -> Prop) (f : A -> A) (l : list A) (n : nat) :
  (forall x, P x -> P (f x)) -> Forall P l -> Forall P (list_update n f l).
Proof.
  intros Hf. revert n; induction l as [|x l IH]; intros [|n] H; simpl;
    inversion H; subst; constructor; auto.
Qed.

Lemma set_cell_shape (d n m : nat) (img : image) (d' i j : nat) (v : Q) :
  has_shape d n m img -> has_shape d n m (set_cell img d' i j v).
Proof.
  intros [Hd Hall]. unfold set_cell. split.
  - now rewrite list_update_length.
  - apply Forall_list_update; [|exact Hall].
    intros p [Hp Hrows]. split.
    + now rewrite list_update_length.
    + apply Forall_list_update; [|exact Hrows].
      intros r Hr. now rewrite list_update_length.
Qed.

Lemma fold_write_shape (im : SummaCImager) (d n m : nat) (ds : list ChunkPair)
    (img : image) :
  has_shape d n m img -> has_shape d n m (fold_left (write_one im) ds img).
Proof.
  revert img; induction ds as [|b ds IH]; intros img H; simpl; [exact H|].
  apply IH. unfold write_one, write_probs. now repeat apply set_cell_shape.
Qed.

Lemma zeros_shape (d n m : nat) : has_shape d n m (zeros d n m).
Proof.
  unfold zeros. split; [apply repeat_length|].
  apply Forall_forall. intros p Hp. apply repeat_spec in Hp. subst p.
  split; [apply repeat_length|].
  apply Forall_forall. intros r Hr. apply repeat_spec in Hr. subst r.
  apply repeat_length.
Qed.

Lemma slice_rows_id (d n m k : nat) (img : image) :
  has_shape d n m img -> n <= k -> slice_rows k img = img.
Proof.
  intros [_ Hall] Hk. unfold slice_rows. rewrite <- (map_id img) at 2.
  apply map_ext_in. intros p Hp. rewrite Forall_forall in Hall.
  destruct (Hall p Hp) as [Hn _]. apply firstn_all2. lia.
Qed.

Lemma N_ori_capped (im : SummaCImager) (original generated : string) :
  N_ori_of im original generated <= max_doc_sents im.
Proof.
  unfold N_ori_of, build_chunk_dataset.
  destruct (match snd (grans im) with
            | [] => (fst (grans im), fst (grans im))
            | g1 :: _ => (fst (grans im), g1)
            end) as [gd gs].
  cbn [fst snd]. rewrite length_firstn. lia.
Qed.

(** a computed image with units on both sides is within the cap *)
Lemma compute_image_within_cap (im : SummaCImager) (original generated : string) :
  fst (fst (build_chunk_dataset im original generated None)) <> [] ->
  slice_rows (max_doc_sents im) (compute_image im original generated)
  = compute_image im original generated.
Proof.
  intros Hne.
  apply (slice_rows_id 3 (N_ori_of im original generated)
                       (N_gen_of im original generated));
    [|apply N_ori_capped].
  unfold compute_image, N_ori_of, N_gen_of.
  destruct (build_chunk_dataset im original generated None) as [[ds n] m].
  cbn [fst snd] in *. destruct ds as [|b ds]; [congruence|].
  cbn [List.length Nat.eqb]. apply fold_write_shape, zeros_shape.
Qed.

Lemma build_image_set_cache (im : SummaCImager) (c : list (list string * image))
    (o g : string) :
  build_image (set_cache im c) o g
  = match (if use_cache im then dict_get key_dec [o; g] c else None) with
    | Some x => (slice_rows (max_doc_sents im) x, set_cache im c)
    | None =>
        (compute_image im o g,
         if use_cache im
            && negb (List.length (fst (fst (build_chunk_dataset im o g None))) =? 0)
         then set_cache im (dict_set key_dec [o; g] (compute_image im o g) c)
         else set_cache im c)
    end.
Proof.
  unfold build_image, compute_image. cbn [use_cache cache max_doc_sents set_cache].
  destruct (if use_cache im then dict_get key_dec [o; g] c else None); [reflexivity|].
  change (build_chunk_dataset (set_cache im c) o g None)
    with (build_chunk_dataset im o g None).
  destruct (build_chunk_dataset im o g None) as [[ds n] m]. cbn [fst snd].
  destruct (List.length ds =? 0).
  - now rewrite andb_false_r.
  - rewrite fill_batches. rewrite andb_true_r.
    destruct (use_cache im); reflexivity.
Qed.

(** one call of [build_image] on a grown cache returns what it returns on
    the cache of [im], and leaves a grown cache *)
Lemma build_image_grown (im : SummaCImager) (c : list (list string * image))
    (og : string * string) :
  cache_grown im c ->
  exists c', build_image (set_cache im c) (fst og) (snd og)
             = (single_image im og, set_cache im c') /\ cache_grown im c'.
Proof.
  intros Hinv. destruct og as [o g]. cbn [fst snd].
  rewrite build_image_set_cache. unfold single_image. cbn [fst snd].
  destruct (use_cache im) eqn:Hu.
  - destruct (Hinv o g) as [Heq | (Hnone & Hsome & Hslice)].
    + rewrite Heq. destruct (dict_get key_dec [o; g] (cache im)) as [x|] eqn:Hx.
      * exists c. split; [reflexivity | exact Hinv].
      * cbn [andb].
        destruct (List.length (fst (fst (build_chunk_dataset im o g None))) =? 0) eqn:El;
          cbn [negb].
        -- exists c. split; [reflexivity | exact Hinv].
        -- eexists. split; [reflexivity|].
           intros o' g'. destruct (key_dec [o'; g'] [o; g]) as [E|Hne].
           ++ injection E as -> ->. right. split; [exact Hx|].
              split; [apply dict_get_set_eq|].
              apply compute_image_within_cap. intros Hnil. rewrite Hnil in El.
              discriminate.
           ++ rewrite dict_get_set_neq by exact Hne. apply Hinv.
    + rewrite Hsome, Hnone, Hslice. exists c. split; [reflexivity | exact Hinv].
  - exists c. split; [reflexivity | exact Hinv].
Qed.

Lemma build_image_each_grown (im : SummaCImager) (pairs : list (string * string))
    (c : list (list string * image)) :
  cache_grown im c ->
  fst (build_image_each (set_cache im c) pairs) = map (single_image im) pairs.
Proof.
  revert c; induction pairs as [|og pairs IH]; intros c Hinv; [reflexivity|].
  cbn [build_image_each map].
  destruct (build_image_grown im c og Hinv) as (c' & E & Hinv').
  rewrite E. specialize (IH c' Hinv').
  destruct (build_image_each (set_cache im c') pairs) as [imgs im2].
  cbn [fst] in *. now rewrite IH.
Qed.

Lemma set_cache_same (im : SummaCImager) : set_cache im (cache im) = im.
Proof. now destruct im. Qed.

(** successive calls of [build_image] do not influence one another: each
    returns what a call on the first imager returns *)
Lemma build_image_each_independent (im : SummaCImager) (pairs : list (string * string)) :
  fst (build_image_each im pairs) = map (single_image im) pairs.
Proof.
  rewrite <- (set_cache_same im) at 1. apply build_image_each_grown.
  intros o g. now left.
Qed.

(** The bulk builder and the single-pair builder agree on every input whose
    cached pairs, if any, are read by [build_image] (caching is enabled)
    and hold an image within the cap on original units. *)
Theorem build_images_agrees_with_build_image (im : SummaCImager)
    (originals generateds : list string) (batch_size : nat) :
  (forall og c, In og (combine originals generateds) ->
     dict_get key_dec [fst og; snd og] (cache im) = Some c ->
     use_cache im = true /\ slice_rows (max_doc_sents im) c = c) ->
  exists im',
    build_images im originals generateds batch_size
    = Some (fst (build_image_each im (combine originals generateds)), im').
Proof.
  intros Hcached. eexists. rewrite build_images_eq, build_image_each_independent.
  f_equal. f_equal. apply map_ext_in. intros og Hin.
  unfold bulk_image, single_image.
  destruct (dict_get key_dec [fst og; snd og] (cache im)) as [c|] eqn:E.
  - destruct (Hcached og c Hin E) as [-> ->]. reflexivity.
  - now destruct (use_cache im).
Qed.

Lemma build_images_agrees_with_build_image_witness :
  exists im',
    build_images demo_imager [demo_doc; demo_doc] [demo_sum; "Too short."] 128
    = Some (fst (build_image_each demo_imager
                   (combine [demo_doc; demo_doc] [demo_sum; "Too short."])), im').
Proof.
  apply build_images_agrees_with_build_image.
  intros og c _ H. discriminate H.
Defined.

(** * Further properties of the code *)

(** ** Model names and model cards *)

Lemma card2name_table :
  dict_of_items string_dec (map (fun kv => (fst (fst (snd kv)), fst kv)) model_map)
  = [ ("boychaboy/SNLI_roberta-base", "snli-base");
      ("boychaboy/SNLI_roberta-large", "snli-large");
      ("microsoft/deberta-base-mnli", "mnli-base");
      ("roberta-large-mnli", "mnli");
      ("ynie/roberta-large-snli_mnli_fever_anli_R1_R2_R3-nli", "anli");
      ("tals/albert-base-vitaminc-mnli", "vitc-base");
      ("tals/albert-xlarge-vitaminc-mnli", "vitc");
      ("tals/albert-xlarge-vitaminc", "vitc-only") ].
Proof. vm_compute. reflexivity. Qed.

Lemma card_to_name_other (s : string) : is_card s = false -> card_to_name s = s.
Proof.
  intros H. unfold card_to_name. rewrite card2name_table.
  unfold is_card, model_map in H. cbn [existsb fst snd] in H.
  repeat (apply orb_false_elim in H; destruct H as [? H]).
  cbn [dict_get].
  repeat match goal with
         | |- context [string_dec s ?c] =>
             destruct (string_dec s c) as [E|_];
             [subst s; rewrite String.eqb_refl in *; discriminate|]
         end.
  reflexivity.
Qed.

Lemma name_to_card_other (s : string) :
  dict_get string_dec s model_map = None -> name_to_card s = s.
Proof. intros H. unfold name_to_card. now rewrite H. Qed.

(** X1: a model name of the table is found again from its card, a string
    that is neither a name nor a card is left as it is by both functions,
    and a card of the table is found again from its name. *)
Theorem name_card_round_trip (s : string) :
  (is_card s = false -> card_to_name (name_to_card s) = s) /\
  (dict_get string_dec s model_map = None -> name_to_card (card_to_name s) = s).
Proof.
  split.
  - intros Hc. destruct (dict_get string_dec s model_map) as [info|] eqn:E.
    + apply dict_get_In in E. unfold model_map in E. cbn [In] in E.
      repeat (destruct E as [E|E]; [injection E as <- <-; vm_compute; reflexivity|]).
      contradiction.
    + rewrite name_to_card_other by exact E. now apply card_to_name_other.
  - intros Hn. destruct (is_card s) eqn:E.
    + unfold is_card, model_map in E. cbn [existsb fst snd] in E.
      repeat (apply orb_prop in E; destruct E as [E|E];
              [apply String.eqb_eq in E; subst s; vm_compute; reflexivity|]).
      discriminate.
    + rewrite card_to_name_other by exact E. now apply name_to_card_other.
Qed.

Lemma name_card_round_trip_witness :
  card_to_name (name_to_card "mnli") = "mnli" /\
  name_to_card (card_to_name "roberta-large-mnli") = "roberta-large-mnli".
Proof.
  split.
  - apply (proj1 (name_card_round_trip "mnli")). reflexivity.
  - apply (proj2 (name_card_round_trip "roberta-large-mnli")). reflexivity.
Defined.

(** X2: the neutral index is one of 0, 1, 2 and differs from the entailment
    and from the contradiction index, whatever these are. *)
Theorem get_neutral_idx_third (ent_idx con_idx : nat) :
  get_neutral_idx ent_idx con_idx < 3 /\
  get_neutral_idx ent_idx con_idx <> ent_idx /\
  get_neutral_idx ent_idx con_idx <> con_idx.
Proof.
  destruct ent_idx as [|[|[|e]]], con_idx as [|[|[|c]]];
    cbv [get_neutral_idx filter Nat.eqb negb andb hd]; repeat split; lia.
Qed.

(** ** Construction of an imager *)

Lemma split_go_nonempty (sep s : string) (skip : nat) (cur : string) :
  PyStr.split_go sep s skip cur <> [].
Proof.
  revert skip cur; induction s as [|c s IH]; intros skip cur; simpl; [discriminate|].
  destruct skip; [|apply IH].
  destruct (PyStr.startswith sep (String c s)); [discriminate | apply IH].
Qed.

Lemma mapM_nonempty {A B : Type} (f : A -> option B) (l : list A) (v : list B) :
  l <> [] -> mapM f l = Some v -> v <> [].
Proof.
  intros Hl H. apply mapM_length in H. destruct l; [congruence|].
  destruct v; [discriminate | discriminate].
Qed.

Lemma model_map_indices (name : string) (info : string * nat * nat) :
  dict_get string_dec name model_map = Some info ->
  snd (fst info) < 3 /\ snd info < 3 /\ snd (fst info) <> snd info.
Proof.
  intros H. apply dict_get_In in H. unfold model_map in H. cbn [In] in H.
  repeat (destruct H as [H|H]; [injection H as _ <-; cbn [fst snd]; lia|]).
  contradiction.
Qed.

(** X3: an imager that [__init__] accepts has an empty cache, keeps the
    arguments it was given, has one or two granularities, and has three
    different class indices among 0, 1, 2, taken from its [model_map]
    entry. *)
Theorem SummaCImager_init_valid (tok : string -> list string)
    (nli : string -> string -> probs) (name granularity_ : string)
    (use_cache_ : bool) (max_doc_sents_ : nat) (im : SummaCImager) :
  SummaCImager_init tok nli name granularity_ use_cache_ max_doc_sents_ = Some im ->
  cache im = [] /\ use_cache im = use_cache_ /\ max_doc_sents im = max_doc_sents_ /\
  model_name im = name /\ granularity im = granularity_ /\
  model_card im = name_to_card name /\
  List.length (snd (grans im)) <= 1 /\
  indices_of_model_map im /\
  entailment_idx im < 3 /\ contradiction_idx im < 3 /\ neutral_idx im < 3 /\
  entailment_idx im <> contradiction_idx im /\
  neutral_idx im <> entailment_idx im /\ neutral_idx im <> contradiction_idx im.
Proof.
  unfold SummaCImager_init.
  destruct (mapM gran_of_string (PyStr.split "-" granularity_)) as [gs|] eqn:Eg;
    [|discriminate].
  cbn [obind]. destruct (List.length gs <=? 2) eqn:El; [|discriminate].
  cbn [negb]. destruct (dict_get string_dec name model_map) as [info|] eqn:En;
    [|discriminate].
  cbn [obind]. destruct gs as [|g rest]; [discriminate|].
  intros H. injection H as <-. cbn.
  apply Nat.leb_le in El. simpl in El.
  destruct (model_map_indices name info En) as (He & Hc & Hx).
  assert (get_neutral_idx (snd (fst info)) (snd info) < 3 /\
          get_neutral_idx (snd (fst info)) (snd info) <> snd (fst info) /\
          get_neutral_idx (snd (fst info)) (snd info) <> snd info)
    as (Hn & Hne & Hnc).
  { destruct (snd (fst info)) as [|[|[|e]]], (snd info) as [|[|[|c]]];
      cbv [get_neutral_idx filter Nat.eqb negb andb hd]; repeat split; lia. }
  repeat split; try assumption; try lia.
  exists name, info. repeat split. exact En.
Qed.

Lemma SummaCImager_init_valid_witness :
  cache demo_imager = [] /\ indices_of_model_map demo_imager.
Proof.
  destruct (SummaCImager_init_valid demo_tokenize demo_nli "vitc" "sentence" true 100
              demo_imager eq_refl) as (H1 & _ & _ & _ & _ & _ & _ & H2 & _).
  split; [exact H1 | exact H2].
Defined.

(** X4: [__init__] fails exactly when the model name is not in [model_map],
    when a token of the granularity is not recognised, or when the
    granularity has more than two tokens. *)
Theorem SummaCImager_init_fails_iff (tok : string -> list string)
    (nli : string -> string -> probs) (name granularity_ : string)
    (use_cache_ : bool) (max_doc_sents_ : nat) :
  SummaCImager_init tok nli name granularity_ use_cache_ max_doc_sents_ = None <->
  (dict_get string_dec name model_map = None \/
   mapM gran_of_string (PyStr.split "-" granularity_) = None \/
   2 < List.length (PyStr.split "-" granularity_)).
Proof.
  unfold SummaCImager_init.
  destruct (mapM gran_of_string (PyStr.split "-" granularity_)) as [gs|] eqn:Eg;
    cbn [obind]; [|tauto].
  pose proof (mapM_length _ _ _ Eg) as Hlen.
  pose proof (mapM_nonempty _ _ _ (split_go_nonempty _ _ _ _) Eg) as Hne.
  rewrite <- Hlen.
  destruct (Nat.leb_spec (List.length gs) 2) as [Hle|Hgt]; cbn [negb].
  - destruct (dict_get string_dec name model_map) as [info|]; cbn [obind].
    + destruct gs as [|g rest]; [congruence|].
      split; [discriminate|]. intros [H|[H|H]]; try discriminate. lia.
    + tauto.
  - tauto.
Qed.

(** ** The chunk dataset *)

Lemma nth_error_flat_map_const {A B : Type} (f : A -> list B) (l : list A)
    (m i j : nat) (d : A) :
  (forall x, List.length (f x) = m) -> i < List.length l -> j < m ->
  nth_error (flat_map f l) (i * m + j) = nth_error (f (nth i l d)) j.
Proof.
  intros Hf. revert i; induction l as [|x l IH]; intros i Hi Hj; simpl in Hi; [lia|].
  simpl flat_map. destruct i as [|i].
  - simpl. apply nth_error_app1. now rewrite Hf.
  - rewrite nth_error_app2 by (rewrite Hf; simpl; lia).
    rewrite Hf. replace (S i * m + j - m) with (i * m + j) by (simpl; lia).
    simpl nth. apply IH; [lia | exact Hj].
Qed.

Lemma build_chunk_dataset_unfold (im : SummaCImager) (original generated : string)
    (p : option nat) :
  build_chunk_dataset im original generated p
  = (flat_map (fun i =>
       map (fun j =>
              mkChunk (nth i (firstn (max_doc_sents im)
                                     (split_text im original (gran_doc im))) EmptyString)
                      (nth j (split_text im generated (gran_sum im)) EmptyString)
                      i j p)
           (seq 0 (List.length (split_text im generated (gran_sum im)))))
       (seq 0 (List.length (firstn (max_doc_sents im)
                                   (split_text im original (gran_doc im))))),
     List.length (firstn (max_doc_sents im) (split_text im original (gran_doc im))),
     List.length (split_text im generated (gran_sum im))).
Proof.
  unfold build_chunk_dataset, gran_doc, gran_sum.
  destruct (snd (grans im)); reflexivity.
Qed.

(** X5: the dataset of a pair is the full cross product of the original
    units, cut to [max_doc_sents], with the generated units, in row-major
    order: the chunk pair of original unit [i] and generated unit [j] is at
    position [i * N_gen + j], with their two indices and the given pair
    index; there are [N_ori * N_gen] chunk pairs and [N_ori] is at most
    [max_doc_sents]. *)
Theorem build_chunk_dataset_cross_product (im : SummaCImager)
    (original generated : string) (p : option nat)
    (ds : list ChunkPair) (n m : nat) :
  build_chunk_dataset im original generated p = (ds, n, m) ->
  n = Nat.min (max_doc_sents im)
              (List.length (split_text im original (gran_doc im))) /\
  m = List.length (split_text im generated (gran_sum im)) /\
  List.length ds = n * m /\
  forall i j, i < n -> j < m ->
    nth_error ds (i * m + j)
    = Some (mkChunk (nth i (split_text im original (gran_doc im)) EmptyString)
                    (nth j (split_text im generated (gran_sum im)) EmptyString)
                    i j p).
Proof.
  intros H. pose proof (build_chunk_dataset_length _ _ _ _ _ _ _ H) as Hlen.
  rewrite build_chunk_dataset_unfold in H. injection H as <- <- <-.
  split; [apply length_firstn|]. split; [reflexivity|]. split; [exact Hlen|].
  intros i j Hi Hj.
  rewrite (nth_error_flat_map_const _ _ _ i j 0);
    [| intros x; now rewrite length_map, length_seq
     | now rewrite length_seq | exact Hj].
  rewrite seq_nth by exact Hi. cbn [Nat.add].
  rewrite (nth_error_map_seq _ _ j Hj). f_equal. f_equal.
  rewrite length_firstn in Hi.
  rewrite <- (firstn_skipn (max_doc_sents im)
                (split_text im original (gran_doc im))) at 2.
  rewrite app_nth1; [reflexivity | rewrite length_firstn; exact Hi].
Qed.

Lemma build_chunk_dataset_cross_product_witness :
  nth_error (fst (fst (build_chunk_dataset demo_imager demo_doc demo_sum (Some 7)))) 1
  = Some (mkChunk "He led developer evangelism for Windows NT."
                  "Jeff joined Microsoft in 1992." 1 0 (Some 7)).
Proof.
  destruct (build_chunk_dataset_cross_product demo_imager demo_doc demo_sum (Some 7)
              _ _ _ eq_refl) as (_ & _ & _ & H).
  exact (H 1 0 (le_n 2) (le_n 1)).
Defined.

(** ** Units *)

Lemma join_length_head (sep x : string) (rest : list string) :
  String.length x <= String.length (PyStr.join sep (x :: rest)).
Proof.
  destruct rest as [|y rest]; [simpl; lia|].
  change (PyStr.join sep (x :: y :: rest))
    with (x ++ sep ++ PyStr.join sep (y :: rest))%string.
  rewrite str_length_app. lia.
Qed.

Lemma filter_long (l : list string) (u : string) :
  In u (filter (fun s => 10 <? String.length s) l) -> 10 < String.length u.
Proof. intros H. apply filter_In in H as [_ H]. now apply Nat.ltb_lt. Qed.

(** X6: every unit of the sentence, paragraph, 2sents and mixed
    granularities is longer than 10 characters; the document granularity
    gives one unit, the text itself, whatever its length. *)
Theorem split_text_unit_lengths (im : SummaCImager) (text : string) (g : gran) :
  (g = Document -> split_text im text g = [text]) /\
  (g <> Document -> forall u, In u (split_text im text g) -> 10 < String.length u).
Proof.
  split; [intros ->; reflexivity|].
  intros Hg u Hu. destruct g; [| | congruence | |]; simpl in Hu.
  - unfold split_paragraphs in Hu. now apply filter_long in Hu.
  - unfold split_sentences in Hu. now apply filter_long in Hu.
  - unfold split_2sents in Hu. apply in_map_iff in Hu as (i & <- & Hi).
    apply in_seq in Hi.
    set (sents := filter (fun s => 10 <? String.length s) (sent_tokenize im text)) in *.
    destruct (nth_error sents i) as [a|] eqn:Ea.
    2:{ apply nth_error_None in Ea. lia. }
    assert (Ha : 10 < String.length a)
      by (apply (filter_long (sent_tokenize im text)), (nth_error_In _ _ Ea)).
    rewrite nth_error_skipn_0 in Ea.
    destruct (skipn i sents) as [|a' rest]; [discriminate|].
    injection Ea as ->. destruct rest as [|b rest].
    + simpl. exact Ha.
    + change (firstn 2 (a :: b :: rest)) with [a; b].
      pose proof (join_length_head " " a [b]). lia.
  - apply in_app_or in Hu as [Hu|Hu].
    + unfold split_sentences in Hu. now apply filter_long in Hu.
    + unfold split_paragraphs in Hu. now apply filter_long in Hu.
Qed.

Lemma split_text_unit_lengths_witness :
  10 < String.length "He led developer evangelism for Windows NT.".
Proof.
  apply (proj2 (split_text_unit_lengths demo_imager demo_doc TwoSents)
               ltac:(discriminate)).
  right. left. reflexivity.
Defined.

(** ** Document granularity, end to end *)

Lemma document_image (im : SummaCImager) (original generated : string) :
  gran_doc im = Document -> gran_sum im = Document -> 1 <= max_doc_sents im ->
  compute_image im original generated
  = [ [[pick (entailment_idx im) (nli_model im original generated)]];
      [[pick (contradiction_idx im) (nli_model im original generated)]];
      [[pick (neutral_idx im) (nli_model im original generated)]] ].
Proof.
  intros Hd Hs Hmax. unfold compute_image.
  rewrite build_chunk_dataset_unfold, Hd, Hs. cbn [split_text].
  destruct (max_doc_sents im) as [|k]; [lia|].
  cbn [firstn]. rewrite firstn_nil. reflexivity.
Qed.

Lemma singleton_score (zs : SummaCZS) (e c u : Q) :
  oq_eq (image2score zs [[[e]]; [[c]]; [[u]]])
        (if use_ent zs && use_con zs then Some (e - c)%Q
         else if use_ent zs then Some e
         else if use_con zs then Some (1 - c)%Q
         else None).
Proof.
  unfold image2score.
  destruct (op1 zs =? "mean")%string, (op1 zs =? "min")%string,
           (op2 zs =? "min")%string, (op2 zs =? "max")%string,
           (use_ent zs), (use_con zs);
    cbn -[Qplus Qminus Qdiv Qmult inject_Z]; try exact I;
    try reflexivity; unfold Qdiv; change (/ inject_Z 1)%Q with 1%Q; ring.
Qed.

(** X7: with the document granularity on both sides, at least one original
    unit allowed and the pair not answered from the cache, [score_one]
    builds the 3 x 1 x 1 image of the predictor's probabilities for the two
    whole texts, and the score is entailment minus contradiction, the
    entailment, or one minus the contradiction, by the two flags, for every
    [op1] and [op2]. *)
Theorem score_one_document (zs : SummaCZS) (original generated : string) :
  gran_doc (imager zs) = Document -> gran_sum (imager zs) = Document ->
  1 <= max_doc_sents (imager zs) ->
  use_cache (imager zs) = false
  \/ dict_get key_dec [original; generated] (cache (imager zs)) = None ->
  snd (fst (score_one zs original generated))
  = [ [[pick (entailment_idx (imager zs)) (nli_model (imager zs) original generated)]];
      [[pick (contradiction_idx (imager zs)) (nli_model (imager zs) original generated)]];
      [[pick (neutral_idx (imager zs)) (nli_model (imager zs) original generated)]] ] /\
  oq_eq (fst (fst (score_one zs original generated)))
        (if use_ent zs && use_con zs
         then Some (pick (entailment_idx (imager zs))
                         (nli_model (imager zs) original generated)
                    - pick (contradiction_idx (imager zs))
                           (nli_model (imager zs) original generated))%Q
         else if use_ent zs
         then Some (pick (entailment_idx (imager zs))
                         (nli_model (imager zs) original generated))
         else if use_con zs
         then Some (1 - pick (contradiction_idx (imager zs))
                              (nli_model (imager zs) original generated))%Q
         else None).
Proof.
  intros Hd Hs Hmax Hmiss.
  pose proof (build_image_miss (imager zs) original generated Hmiss) as Himg.
  rewrite (document_image _ _ _ Hd Hs Hmax) in Himg.
  unfold score_one.
  destruct (build_image (imager zs) original generated) as [img im'].
  cbn [fst snd] in *. subst img. split; [reflexivity | apply singleton_score].
Qed.

Lemma score_one_document_witness :
  oq_eq (fst (fst (score_one demo_document_zs demo_doc demo_sum)))
        (Some ((1#10) - (5#10))%Q).
Proof.
  apply (proj2 (score_one_document demo_document_zs demo_doc demo_sum
                  eq_refl eq_refl ltac:(simpl; lia) (or_intror eq_refl))).
Defined.

(** ** The separator in cached texts *)

Lemma dict_set_other_file {V : Type} (k k0 : string) (v : V) (d : list (string * V)) :
  k0 <> k -> dict_get string_dec k0 (dict_set string_dec k v d) = dict_get string_dec k0 d.
Proof. apply dict_get_set_neq. Qed.

(** X8: two cached pairs whose texts contain the separator can be joined to
    the same key of the cache file.  With texts [a], [b], [c] that do not
    contain it, a cache holding an image under the pair (a[///]b, c) and
    another under the pair (a, b[///]c) is saved as one entry, the later
    one, and is loaded back as a cache with the single key (a, b, c):
    neither pair is found again. *)
Theorem save_load_separator_collision (im : SummaCImager) (fs : filesystem)
    (a b c : string) (img1 img2 : image) :
  PyStr.contains SEP a = false -> PyStr.contains SEP b = false ->
  PyStr.contains SEP c = false ->
  cache im = [ ([(a ++ SEP ++ b)%string; c], img1);
               ([a; (b ++ SEP ++ c)%string], img2) ] ->
  dict_wf (cache im) /\
  snd (load_cache im (save_cache im fs)) = Returned (set_cache im [([a; b; c], img2)]).
Proof.
  intros Ha Hb Hc Hcache. split.
  - rewrite Hcache. unfold dict_wf, dict_keys. cbn [map fst].
    constructor; [|constructor; [intros []|constructor]].
    intros [E|[]]. injection E as E _. symmetry in E. revert E.
    apply str_app_neq. discriminate.
  - assert (Hjoin : dict_of_items string_dec
                      (map (fun kv => (PyStr.join SEP (fst kv), snd kv)) (cache im))
                    = [(PyStr.join SEP [a; b; c], img2)]).
    { rewrite Hcache. unfold dict_of_items. cbn [map fst snd fold_left dict_set PyStr.join].
      rewrite !str_app_assoc.
      destruct (string_dec (a ++ SEP ++ b ++ SEP ++ c) (a ++ SEP ++ b ++ SEP ++ c));
        [reflexivity | congruence]. }
    unfold save_cache. rewrite Hjoin.
    pose proof (get_cache_file_path im fs) as Hp.
    pose proof (get_cache_file_folder im fs) as Hd.
    destruct (get_cache_file im fs) as [cache_file fs1]. cbn [fst snd] in Hp, Hd.
    subst cache_file. unfold load_cache. rewrite get_cache_file_present.
    + cbn [files snd]. rewrite dict_get_set_eq. cbn [snd map fst].
      rewrite split_join
        by (split; [discriminate | repeat constructor; assumption]).
      reflexivity.
    + unfold path_exists in *. cbn [dirs files].
      apply orb_true_iff in Hd as [Hd|Hd]; [now rewrite Hd|].
      rewrite (dict_mem_set string_dec _ _ _ _ Hd). apply orb_true_r.
Qed.

Lemma save_load_separator_collision_witness :
  snd (load_cache
         (set_cache demo_imager
            [ (["Jeff[///]joined"; "Microsoft"], demo_image);
              (["Jeff"; "joined[///]Microsoft"], zeros 3 1 1) ])
         (save_cache
            (set_cache demo_imager
               [ (["Jeff[///]joined"; "Microsoft"], demo_image);
                 (["Jeff"; "joined[///]Microsoft"], zeros 3 1 1) ])
            (mkFS [] [])))
  = Returned (set_cache demo_imager [(["Jeff"; "joined"; "Microsoft"], zeros 3 1 1)]).
Proof.
  apply (proj2 (save_load_separator_collision
                  (set_cache demo_imager
                     [ (["Jeff[///]joined"; "Microsoft"], demo_image);
                       (["Jeff"; "joined[///]Microsoft"], zeros 3 1 1) ])
                  (mkFS [] []) "Jeff" "joined" "Microsoft" demo_image (zeros 3 1 1)
                  eq_refl eq_refl eq_refl eq_refl)).
Defined.

(** ** What the file operations leave alone *)

Lemma get_cache_file_frame (im : SummaCImager) (fs : filesystem) (path : string) :
  path <> cache_path im ->
  dict_get string_dec path (files (snd (get_cache_file im fs)))
  = dict_get string_dec path (files fs).
Proof.
  intros Hp. unfold get_cache_file. fold (cache_path im).
  destruct (negb (path_exists fs (cache_folder im))); [|reflexivity].
  match goal with |- context [if ?c then _ else _] => destruct c end;
    cbn [snd files]; [now apply dict_get_set_neq | reflexivity].
Qed.

Lemma get_cache_file_keeps (im : SummaCImager) (fs : filesystem) (d : file_data) :
  dict_get string_dec (cache_path im) (files fs) = Some d ->
  get_cache_file im fs
  = (cache_path im,
     if path_exists fs (cache_folder im) then fs
     else mkFS (cache_folder im :: dirs fs) (files fs)).
Proof.
  intros Hd. unfold get_cache_file. fold (cache_path im).
  destruct (path_exists fs (cache_folder im)); cbn [negb]; [reflexivity|].
  assert (He : path_exists (mkFS (cache_folder im :: dirs fs) (files fs))
                           (cache_path im) = true).
  { unfold path_exists, dict_mem. cbn [files]. rewrite Hd. apply orb_true_r. }
  now rewrite He.
Qed.

(** X9: [save_cache] and [load_cache] touch no file but the cache file of
    the imager, and [load_cache] leaves a cache file that is there as it
    is. *)
Theorem cache_file_frame (im : SummaCImager) (fs : filesystem) :
  (forall path, path <> cache_path im ->
     dict_get string_dec path (files (save_cache im fs))
     = dict_get string_dec path (files fs)) /\
  (forall path, path <> cache_path im ->
     dict_get string_dec path (files (fst (load_cache im fs)))
     = dict_get string_dec path (files fs)) /\
  (forall d, dict_get string_dec (cache_path im) (files fs) = Some d ->
     dict_get string_dec (cache_path im) (files (fst (load_cache im fs))) = Some d).
Proof.
  split; [|split].
  - intros path Hp. unfold save_cache.
    pose proof (get_cache_file_path im fs) as Hpath.
    pose proof (get_cache_file_frame im fs path Hp) as Hfr.
    destruct (get_cache_file im fs) as [cache_file fs1]. cbn [fst snd] in *.
    subst cache_file. cbn [files]. now rewrite dict_get_set_neq.
  - intros path Hp. unfold load_cache.
    pose proof (get_cache_file_frame im fs path Hp) as Hfr.
    destruct (get_cache_file im fs) as [cache_file fs1]. cbn [snd] in Hfr.
    destruct (dict_get string_dec cache_file (files fs1)) as [[|doc]|]; exact Hfr.
  - intros d Hd. unfold load_cache. rewrite (get_cache_file_keeps im fs d Hd).
    assert (Hsame : dict_get string_dec (cache_path im)
                      (files (if path_exists fs (cache_folder im) then fs
                              else mkFS (cache_folder im :: dirs fs) (files fs)))
                    = Some d)
      by (destruct (path_exists fs (cache_folder im)); exact Hd).
    rewrite Hsame. destruct d; exact Hsame.
Qed.

Lemma cache_file_frame_witness :
  dict_get string_dec "notes.txt"
           (files (save_cache demo_cached (mkFS [] [("notes.txt", EmptyFile)])))
  = Some EmptyFile.
Proof.
  rewrite (proj1 (cache_file_frame demo_cached (mkFS [] [("notes.txt", EmptyFile)])))
    by discriminate.
  reflexivity.
Defined.

(** ** The range of the score *)

Lemma qsum_bounds (lo hi : Q) (l : list Q) :
  Forall (fun x => (lo <= x)%Q /\ (x <= hi)%Q) l ->
  (lo * inject_Z (Z.of_nat (List.length l)) <= qsum l)%Q /\
  (qsum l <= hi * inject_Z (Z.of_nat (List.length l)))%Q.
Proof.
  induction 1 as [|x l [Hlo Hhi] Hl [IH1 IH2]].
  - cbn [List.length Z.of_nat qsum fold_right]. change (inject_Z 0) with 0%Q.
    split; lra.
  - change (List.length (x :: l)) with (S (List.length l)).
    rewrite Nat2Z.inj_succ. unfold Z.succ. rewrite inject_Z_plus.
    change (inject_Z 1) with 1%Q. cbn [qsum fold_right]. fold (qsum l).
    split; lra.
Qed.

Lemma Exists_bounds (lo hi x : Q) (l : list Q) :
  Forall (fun y => (lo <= y)%Q /\ (y <= hi)%Q) l ->
  Exists (fun y => (y == x)%Q) l -> (lo <= x)%Q /\ (x <= hi)%Q.
Proof.
  intros Hall Hex. apply Exists_exists in Hex as (y & Hy & E).
  rewrite Forall_forall in Hall. destruct (Hall y Hy). rewrite <- E. tauto.
Qed.

Lemma reduction_bounds (op : string) (red : list Q -> option Q) (lo hi r : Q)
    (l : list Q) :
  reduction op = Some red ->
  Forall (fun x => (lo <= x)%Q /\ (x <= hi)%Q) l ->
  red l = Some r -> (lo <= r)%Q /\ (r <= hi)%Q.
Proof.
  unfold reduction. intros Hop Hall Hr.
  destruct (op =? "max")%string.
  { injection Hop as <-. apply np_max_greatest in Hr as [_ Hex].
    now apply (Exists_bounds lo hi r l). }
  destruct (op =? "mean")%string.
  { injection Hop as <-. destruct l as [|x l]; [discriminate|].
    unfold np_mean in Hr. injection Hr as <-.
    destruct (qsum_bounds lo hi (x :: l) Hall) as [H1 H2].
    assert (Hpos : (0 < inject_Z (Z.of_nat (List.length (x :: l))))%Q).
    { change 0%Q with (inject_Z 0). rewrite <- Zlt_Qlt. simpl. lia. }
    split; [now apply Qle_shift_div_l | now apply Qle_shift_div_r]. }
  destruct (op =? "min")%string; [|discriminate].
  injection Hop as <-. apply np_min_least in Hr as [_ Hex].
  now apply (Exists_bounds lo hi r l).
Qed.

Lemma mapM_Forall {A B : Type} (f : A -> option B) (P : B -> Prop) (l : list A)
    (v : list B) :
  mapM f l = Some v -> (forall x y, In x l -> f x = Some y -> P y) -> Forall P v.
Proof.
  revert v; induction l as [|a l IH]; intros v H HP; simpl in H.
  - injection H as <-. constructor.
  - destruct (f a) as [b|] eqn:Ea; [|discriminate]. cbn [obind] in H.
    destruct (mapM f l) as [bs|] eqn:El; [|discriminate]. cbn [obind] in H.
    injection H as <-. constructor.
    + apply (HP a); [now left | exact Ea].
    + apply IH; [reflexivity|]. intros x y Hx. apply HP. now right.
Qed.

Lemma plane_column_unit (p : plane) (j : nat) :
  Forall (Forall (fun v => (0 <= v)%Q /\ (v <= 1)%Q)) p ->
  Forall (fun v => (0 <= v)%Q /\ (v <= 1)%Q) (map (fun row => nth j row 0%Q) p).
Proof.
  intros Hp. rewrite Forall_map. eapply Forall_impl; [|exact Hp].
  intros row Hrow. destruct (nth_in_or_default j row 0%Q) as [Hin| ->].
  - rewrite Forall_forall in Hrow. now apply Hrow.
  - split; lra.
Qed.

Lemma reduce_axis0_bounds (op : string) (red : list Q -> option Q) (p : plane)
    (v : list Q) :
  reduction op = Some red ->
  Forall (Forall (fun x => (0 <= x)%Q /\ (x <= 1)%Q)) p ->
  reduce_axis0 red p = Some v ->
  Forall (fun x => (0 <= x)%Q /\ (x <= 1)%Q) v.
Proof.
  intros Hop Hp Hv. unfold reduce_axis0 in Hv. destruct p as [|r p]; [discriminate|].
  apply (mapM_Forall _ _ _ _ Hv). intros c y Hc Hy.
  unfold columns in Hc. apply in_map_iff in Hc as (j & <- & _).
  apply (reduction_bounds op red 0 1 y
           (map (fun row => nth j row 0%Q) (r :: p)) Hop); [|exact Hy].
  now apply plane_column_unit.
Qed.

Lemma combine_scores_bounds (ue uc : bool) (e c s : list Q) :
  Forall (fun x => (0 <= x)%Q /\ (x <= 1)%Q) e ->
  Forall (fun x => (0 <= x)%Q /\ (x <= 1)%Q) c ->
  combine_scores ue uc e c = Some s ->
  Forall (fun x => ((if ue && uc then -(1) else 0) <= x)%Q /\ (x <= 1)%Q) s.
Proof.
  intros He Hc. unfold combine_scores.
  destruct ue, uc; intros H; try discriminate; injection H as <-; cbn [andb].
  - rewrite Forall_map. apply Forall_forall. intros [x y] Hin. cbn [fst snd].
    rewrite Forall_forall in He, Hc.
    destruct (He x (in_combine_l _ _ _ _ Hin)), (Hc y (in_combine_r _ _ _ _ Hin)).
    split; lra.
  - exact He.
  - rewrite Forall_map. eapply Forall_impl; [|exact Hc]. intros y [H0 H1].
    split; lra.
Qed.

(** X10: on an image with values in [0, 1], the score lies in [-1, 1] when
    both flags are set, and in [0, 1] when only one of them is. *)
Theorem image2score_range (zs : SummaCZS) (img : image) (s : Q) :
  In (op1 zs) ["max"; "mean"; "min"] -> In (op2 zs) ["min"; "mean"; "max"] ->
  unit_valued img ->
  image2score zs img = Some s ->
  ((if use_ent zs && use_con zs then -(1) else 0) <= s)%Q /\ (s <= 1)%Q.
Proof.
  intros H1 H2 Hu Hs. rewrite image2score_eq_spec in Hs by assumption.
  unfold image2score_spec in Hs.
  destruct (reduction (op1 zs)) as [red1|] eqn:E1; [|discriminate].
  destruct (reduction (op2 zs)) as [red2|] eqn:E2; [|discriminate].
  cbn [obind] in Hs.
  destruct (nth_error img 0) as [p0|] eqn:Ep0; [|discriminate].
  destruct (nth_error img 1) as [p1|] eqn:Ep1; [|discriminate].
  cbn [obind] in Hs.
  destruct (reduce_axis0 red1 p0) as [e|] eqn:Ee; [|discriminate].
  destruct (reduce_axis0 red1 p1) as [c|] eqn:Ec; [|discriminate].
  cbn [obind] in Hs.
  destruct (combine_scores (use_ent zs) (use_con zs) e c) as [sc|] eqn:Esc;
    [|discriminate].
  cbn [obind] in Hs.
  unfold unit_valued in Hu. rewrite Forall_forall in Hu.
  pose proof (reduce_axis0_bounds _ _ _ _ E1 (Hu p0 (nth_error_In _ _ Ep0)) Ee) as Be.
  pose proof (reduce_axis0_bounds _ _ _ _ E1 (Hu p1 (nth_error_In _ _ Ep1)) Ec) as Bc.
  pose proof (combine_scores_bounds _ _ _ _ _ Be Bc Esc) as Bs.
  exact (reduction_bounds _ _ _ _ _ _ E2 Bs Hs).
Qed.

Lemma image2score_range_witness :
  exists s, image2score demo_zs demo_image = Some s /\ (-(1) <= s)%Q /\ (s <= 1)%Q.
Proof.
  destruct (image2score demo_zs demo_image) as [s|] eqn:E;
    [|vm_compute in E; discriminate].
  exists s. split; [reflexivity|].
  apply (image2score_range demo_zs demo_image s); [simpl; auto | simpl; auto | | exact E].
  repeat constructor; unfold Qle; simpl; lia.
Defined.

(** ** When the score is defined *)

Lemma reduction_nil (op : string) (red : list Q -> option Q) :
  reduction op = Some red -> red [] = None.
Proof.
  unfold reduction. intros H.
  destruct (op =? "max")%string; [injection H as <-; reflexivity|].
  destruct (op =? "mean")%string; [injection H as <-; reflexivity|].
  destruct (op =? "min")%string; [injection H as <-; reflexivity|].
  discriminate.
Qed.

Lemma image2score_spec_defined (zs : SummaCZS) (img : image) (d n m : nat) :
  In (op1 zs) ["max"; "mean"; "min"] -> In (op2 zs) ["min"; "mean"; "max"] ->
  use_ent zs || use_con zs = true ->
  2 <= d -> 1 <= n -> 1 <= m -> has_shape d n m img ->
  exists s, image2score_spec zs img = Some s.
Proof.
  intros H1 H2 Hflag Hd Hn Hm Hs.
  destruct (reduction_valid _ H1) as [red1 E1].
  destruct (reduction_valid (op2 zs)) as [red2 E2].
  { simpl in *. tauto. }
  destruct (has_shape_plane d n m 0 img Hs) as (r0 & p0 & Hp0 & Hr0); [lia | lia |].
  destruct (has_shape_plane d n m 1 img Hs) as (r1 & p1 & Hp1 & Hr1); [lia | lia |].
  destruct (reduce_axis0_total red1 r0 p0 (reduction_total _ _ E1)) as (e & He & Hle).
  destruct (reduce_axis0_total red1 r1 p1 (reduction_total _ _ E1)) as (c & Hc & Hlc).
  unfold image2score_spec. rewrite E1, E2, Hp0, Hp1. cbn [obind].
  rewrite He, Hc. cbn [obind].
  assert (Hcomb : exists x xs, combine_scores (use_ent zs) (use_con zs) e c = Some (x :: xs)).
  { unfold combine_scores.
    destruct e as [|e0 e]; [simpl in Hle; lia|].
    destruct c as [|c0 c]; [simpl in Hlc; lia|].
    destruct (use_ent zs), (use_con zs); simpl in *; try discriminate; eauto. }
  destruct Hcomb as (x & xs & ->). cbn [obind].
  apply (reduction_total _ _ E2).
Qed.

Lemma reduce_axis0_length (red : list Q -> option Q) (p : plane) (v : list Q) (m : nat) :
  Forall (fun r => List.length r = m) p ->
  reduce_axis0 red p = Some v -> p <> [] /\ List.length v = m.
Proof.
  intros Hrows Hv. unfold reduce_axis0 in Hv. destruct p as [|r p]; [discriminate|].
  split; [discriminate|]. apply mapM_length in Hv. rewrite Hv.
  unfold columns. rewrite length_map, length_seq. now inversion Hrows.
Qed.

(** X11: on a rectangular d x N x M image, with valid [op1] and [op2],
    [image2score] returns a number exactly when the image has at least two
    planes, at least one row and one column, and at least one of the two
    flags is set; in every other case it raises or yields nan. *)
Theorem image2score_defined_iff (zs : SummaCZS) (img : image) (d n m : nat) :
  In (op1 zs) ["max"; "mean"; "min"] -> In (op2 zs) ["min"; "mean"; "max"] ->
  has_shape d n m img ->
  ((exists s, image2score zs img = Some s) <->
   2 <= d /\ 1 <= n /\ 1 <= m /\ use_ent zs || use_con zs = true).
Proof.
  intros H1 H2 Hs. rewrite image2score_eq_spec by assumption. split.
  - intros [s Hsc]. unfold image2score_spec in Hsc.
    destruct (reduction (op1 zs)) as [red1|] eqn:E1; [|discriminate].
    destruct (reduction (op2 zs)) as [red2|] eqn:E2; [|discriminate].
    cbn [obind] in Hsc.
    destruct (nth_error img 0) as [p0|] eqn:Ep0; [|discriminate].
    destruct (nth_error img 1) as [p1|] eqn:Ep1; [|discriminate].
    cbn [obind] in Hsc.
    destruct (reduce_axis0 red1 p0) as [e|] eqn:Ee; [|discriminate].
    destruct (reduce_axis0 red1 p1) as [c|] eqn:Ec; [|discriminate].
    cbn [obind] in Hsc.
    destruct (combine_scores (use_ent zs) (use_con zs) e c) as [sc|] eqn:Esc;
      [|discriminate].
    cbn [obind] in Hsc.
    destruct (has_shape_nth _ _ _ _ _ _ Hs Ep0) as [Hn0 Hr0].
    destruct (has_shape_nth _ _ _ _ _ _ Hs Ep1) as [Hn1 Hr1].
    destruct (reduce_axis0_length _ _ _ _ Hr0 Ee) as [Hne0 Hle].
    destruct (reduce_axis0_length _ _ _ _ Hr1 Ec) as [_ Hlc].
    pose proof (combine_scores_length _ _ _ _ _ m Hle Hlc Esc) as Hlsc.
    assert (Hd : 1 < List.length img) by (apply nth_error_Some; congruence).
    destruct Hs as [Hd' _].
    repeat split.
    + lia.
    + destruct p0; [congruence | simpl in Hn0; lia].
    + destruct sc as [|x sc]; [|simpl in Hlsc; lia].
      rewrite (reduction_nil _ _ E2) in Hsc. discriminate.
    + unfold combine_scores in Esc.
      destruct (use_ent zs), (use_con zs); try reflexivity. discriminate.
  - intros (Hd & Hn & Hm & Hflag).
    now apply (image2score_spec_defined zs img d n m).
Qed.

Lemma image2score_defined_iff_witness :
  exists s, image2score demo_zs demo_image = Some s.
Proof.
  apply (proj2 (image2score_defined_iff demo_zs demo_image 3 2 2
                  ltac:(simpl; auto) ltac:(simpl; auto)
                  ltac:(split; [reflexivity | repeat constructor]))).
  repeat split; lia.
Defined.

(** ** The histogram matrix *)

Lemma label_selected_mod (labels : string) (k r : nat) :
  r < 3 -> label_selected labels (3 * k + r) = label_selected labels r.
Proof.
  intros Hr. unfold label_selected.
  replace ((3 * k + r) mod 3) with (r mod 3); [reflexivity|].
  rewrite Nat.add_comm, Nat.mul_comm. symmetry. apply Nat.Div0.mod_add.
Qed.

Lemma selected_count (labels : string) (k : nat) :
  valid_nli_labels labels = true ->
  List.length (filter (label_selected labels) (seq 0 (3 * k))) = k * String.length labels.
Proof.
  intros Hv. induction k as [|k IH]; [reflexivity|].
  replace (3 * S k) with (3 * k + 3) by lia.
  rewrite seq_app, filter_app, length_app, IH. cbn [Nat.add seq filter].
  replace (3 * k) with (3 * k + 0) at 1 by lia.
  replace (S (3 * k)) with (3 * k + 1) by lia.
  replace (S (3 * k + 1)) with (3 * k + 2) by lia.
  rewrite !label_selected_mod by lia.
  unfold valid_nli_labels in Hv. rewrite existsb_exists in Hv.
  destruct Hv as (l & Hin & Heq). apply String.eqb_eq in Heq. subst l.
  simpl in Hin.
  destruct Hin as [<-|[<-|[<-|[<-|[<-|[<-|[<-|[]]]]]]]]; simpl; lia.
Qed.

Lemma concat_length_const {A : Type} (hs : list (list A)) (k : nat) :
  Forall (fun h => List.length h = k) hs ->
  List.length (concat hs) = List.length hs * k.
Proof.
  induction 1 as [|h hs Hh Hhs IH]; simpl; [reflexivity|].
  now rewrite length_app, Hh, IH.
Qed.

Lemma np_histogram_length (edges a : list Q) :
  List.length (np_histogram edges a) = List.length edges - 1.
Proof.
  unfold np_histogram. destruct edges as [|lo rest]; [reflexivity|].
  rewrite histogram_from_length. simpl. lia.
Qed.

Lemma in_firstn {A : Type} (n : nat) (l : list A) (x : A) :
  In x (firstn n l) -> In x l.
Proof.
  intros H. rewrite <- (firstn_skipn n l). apply in_or_app. now left.
Qed.

Lemma SummaCConv_init_fields (imagers_ : list SummaCImager) (b : bins_mode)
    (labels agg_ : string) (conv : SummaCConv) :
  SummaCConv_init imagers_ b labels agg_ = Some conv ->
  valid_nli_labels labels = true /\ imagers_ <> [] /\
  bins_of_mode b = Some (bins conv) /\
  imagers conv = imagers_ /\ nli_labels conv = labels /\
  n_bins conv = List.length (bins conv) - 1 /\ n_rows conv = 10 /\
  n_depth conv = List.length imagers_ * String.length labels /\
  full_size conv = n_depth conv * n_bins conv.
Proof.
  unfold SummaCConv_init.
  destruct (valid_nli_labels labels); [|discriminate]. cbn [negb].
  destruct (List.length imagers_ =? 0) eqn:Hk; [discriminate|].
  destruct (bins_of_mode b) as [edges|]; [|discriminate].
  cbn [obind]. intros H. injection H as <-. cbn.
  repeat split. intros ->. discriminate.
Qed.

Lemma histos_of_shape (conv : SummaCConv) (img : image) (i_gen k : nat) :
  valid_nli_labels (nli_labels conv) = true ->
  List.length img = 3 * k -> 1 <= k ->
  histos_of conv img i_gen <> [] /\
  List.length (concat (histos_of conv img i_gen))
  = k * String.length (nli_labels conv) * (List.length (bins conv) - 1).
Proof.
  intros Hv Hd Hk. unfold histos_of. split.
  - intros Hnil. apply (f_equal (@List.length _)) in Hnil.
    rewrite length_map, Hd, selected_count in Hnil by exact Hv.
    simpl in Hnil.
    assert (1 <= String.length (nli_labels conv)).
    { unfold valid_nli_labels in Hv. rewrite existsb_exists in Hv.
      destruct Hv as (l & Hin & Heq). apply String.eqb_eq in Heq. rewrite Heq.
      simpl in Hin.
      destruct Hin as [<-|[<-|[<-|[<-|[<-|[<-|[<-|[]]]]]]]]; simpl; lia. }
    nia.
  - rewrite (concat_length_const _ (List.length (bins conv) - 1)).
    + now rewrite length_map, Hd, selected_count.
    + rewrite Forall_map. apply Forall_forall. intros i_depth _.
      apply np_histogram_length.
Qed.

Lemma compute_histogram_rows (imagers_ : list SummaCImager) (b : bins_mode)
    (labels agg_ : string) (conv : SummaCConv) (img : image) (n m : nat) :
  SummaCConv_init imagers_ b labels agg_ = Some conv ->
  has_shape (3 * List.length imagers_) n m img -> 1 <= n ->
  compute_histogram conv img
  = Some (firstn 10 (map (fun i_gen => concat (histos_of conv img i_gen)) (seq 0 m)
                     ++ repeat (repeat 0 (full_size conv)) (10 - m))).
Proof.
  intros Hinit Hs Hn.
  destruct (SummaCConv_init_fields _ _ _ _ _ Hinit)
    as (Hv & Hne & _ & _ & Hl & _ & Hrows & _ & _).
  assert (Hk : 1 <= List.length imagers_) by (destruct imagers_; [congruence | simpl; lia]).
  unfold compute_histogram. rewrite (has_shape_shape _ n m img Hs) by lia.
  rewrite (mapM_map _ (fun i_gen => concat (histos_of conv img i_gen))).
  - cbn [obind]. now rewrite Hrows, length_map, length_seq.
  - intros i_gen _. rewrite <- Hl in Hv.
    destruct (histos_of_shape conv img i_gen (List.length imagers_) Hv (proj1 Hs) Hk)
      as [Hnil _].
    destruct (histos_of conv img i_gen); [congruence | reflexivity].
Qed.

(** X12: for an image of the imagers of a [SummaCConv] with at least one
    original unit, the histogram matrix always has 10 rows of [full_size]
    counts: the rows of the first 10 generated units, in order, then rows of
    zeros when there are fewer than 10; generated units after the tenth are
    left out. *)
Theorem histogram_matrix_shape (imagers_ : list SummaCImager) (b : bins_mode)
    (labels agg_ : string) (conv : SummaCConv) (img : image) (n m : nat) :
  SummaCConv_init imagers_ b labels agg_ = Some conv ->
  has_shape (3 * List.length imagers_) n m img -> 1 <= n ->
  exists rows,
    compute_histogram conv img = Some rows /\
    List.length rows = 10 /\
    Forall (fun r => List.length r = full_size conv) rows /\
    (forall i, i < m -> i < 10 ->
       nth_error rows i = Some (concat (histos_of conv img i))) /\
    (forall i, m <= i -> i < 10 ->
       nth_error rows i = Some (repeat 0 (full_size conv))).
Proof.
  intros Hinit Hs Hn. eexists.
  split; [exact (compute_histogram_rows imagers_ b labels agg_ conv img n m Hinit Hs Hn)|].
  destruct (SummaCConv_init_fields _ _ _ _ _ Hinit)
    as (Hv & Hne & _ & _ & Hl & Hnb & _ & Hnd & Hfs).
  assert (Hk : 1 <= List.length imagers_) by (destruct imagers_; [congruence | simpl; lia]).
  split; [|split; [|split]].
  - rewrite length_firstn, length_app, length_map, length_seq, repeat_length. lia.
  - apply Forall_forall. intros r Hr. apply in_firstn in Hr.
    apply in_app_or in Hr as [Hr|Hr].
    + apply in_map_iff in Hr as (i & <- & _). rewrite <- Hl in Hv.
      destruct (histos_of_shape conv img i (List.length imagers_) Hv (proj1 Hs) Hk)
        as [_ Hlen].
      rewrite Hlen, Hfs, Hnd, Hnb, Hl. reflexivity.
    + apply repeat_spec in Hr. subst r. apply repeat_length.
  - intros i Him Hi. rewrite nth_error_firstn.
    destruct (Nat.ltb_spec i 10); [|lia].
    rewrite nth_error_app1 by now rewrite length_map, length_seq.
    exact (nth_error_map_seq (fun i => concat (histos_of conv img i)) m i Him).
  - intros i Him Hi. rewrite nth_error_firstn.
    destruct (Nat.ltb_spec i 10); [|lia].
    rewrite nth_error_app2 by (rewrite length_map, length_seq; exact Him).
    rewrite length_map, length_seq. apply nth_error_repeat. lia.
Qed.

Lemma histogram_matrix_shape_witness :
  exists rows,
    compute_histogram demo_conv demo_image = Some rows /\
    List.length rows = 10 /\
    nth_error rows 2 = Some (repeat 0 23).
Proof.
  destruct (histogram_matrix_shape [demo_imager] Percentile "e" "mean" demo_conv
              demo_image 2 2 eq_refl
              ltac:(split; [reflexivity | repeat constructor]) ltac:(lia))
    as (rows & Hc & Hl & _ & _ & Hpad).
  exists rows. split; [exact Hc|]. split; [exact Hl|].
  apply (Hpad 2); lia.
Defined.

Lemma list_sum_concat_const (hs : list (list nat)) (n : nat) :
  Forall (fun h => list_sum h = n) hs -> list_sum (concat hs) = List.length hs * n.
Proof.
  induction 1 as [|h hs Hh Hhs IH]; simpl; [reflexivity|].
  now rewrite list_sum_app, Hh, IH.
Qed.

Lemma list_sum_zeros (k : nat) : list_sum (repeat 0 k) = 0.
Proof. induction k as [|k IH]; simpl; [reflexivity | exact IH]. Qed.

Lemma valid_labels_length (labels : string) :
  valid_nli_labels labels = true -> 1 <= String.length labels.
Proof.
  unfold valid_nli_labels. rewrite existsb_exists.
  intros (l & Hin & Heq). apply String.eqb_eq in Heq. subst l. simpl in Hin.
  destruct Hin as [<-|[<-|[<-|[<-|[<-|[<-|[<-|[]]]]]]]]; simpl; lia.
Qed.

(** X13: for an image of the imagers of a [SummaCConv] with values in
    [0, 1] and N >= 1 original units, the counts of the row of a generated
    unit add up to N times the number of models times the number of
    labels, and a row of the histogram matrix is all zeros exactly when it
    is a padding row: the number of non-zero rows, which [forward] takes
    as the number of generated units, is the smaller of M and 10. *)
Theorem histogram_rows_nonzero (imagers_ : list SummaCImager) (b : bins_mode)
    (labels agg_ : string) (conv : SummaCConv) (img : image) (n m : nat) :
  SummaCConv_init imagers_ b labels agg_ = Some conv ->
  has_shape (3 * List.length imagers_) n m img -> 1 <= n ->
  unit_valued img ->
  exists rows,
    compute_histogram conv img = Some rows /\
    forall i row, i < 10 -> nth_error rows i = Some row ->
      (i < m -> list_sum row = List.length imagers_ * String.length labels * n) /\
      (list_sum row = 0 <-> m <= i).
Proof.
  intros Hinit Hs Hn Hu. eexists.
  split; [exact (compute_histogram_rows imagers_ b labels agg_ conv img n m Hinit Hs Hn)|].
  destruct (SummaCConv_init_fields _ _ _ _ _ Hinit)
    as (Hv & Hne & Hb & _ & Hl & _ & _ & _ & _).
  assert (Hk : 1 <= List.length imagers_) by (destruct imagers_; [congruence | simpl; lia]).
  pose proof (valid_labels_length labels Hv) as Hlab.
  apply bins_covering in Hb.
  assert (Hreal : forall i, list_sum (concat (histos_of conv img i))
                            = List.length imagers_ * String.length labels * n).
  { intros i. rewrite (list_sum_concat_const _ n).
    - unfold histos_of. rewrite length_map, Hl, (proj1 Hs), selected_count by exact Hv.
      reflexivity.
    - unfold histos_of. rewrite Forall_map. apply Forall_forall.
      intros i_depth Hin. apply filter_In in Hin as [Hin _]. apply in_seq in Hin.
      destruct (np_histogram_sum (bins conv) (column img i_depth i) Hb
                  (column_unit img i_depth i Hu)) as [Hsum _].
      rewrite Hsum. apply (column_length img (3 * List.length imagers_) n m); [exact Hs|].
      destruct Hs as [Hd _]. lia. }
  intros i row Hi Hrow. rewrite nth_error_firstn in Hrow.
  destruct (Nat.ltb_spec i 10); [|lia].
  destruct (Nat.lt_ge_cases i m) as [Him|Him].
  - rewrite nth_error_app1 in Hrow by now rewrite length_map, length_seq.
    rewrite (nth_error_map_seq (fun i => concat (histos_of conv img i)) m i Him) in Hrow.
    injection Hrow as <-. rewrite Hreal. split; [reflexivity|]. split; nia.
  - rewrite nth_error_app2 in Hrow by (rewrite length_map, length_seq; exact Him).
    rewrite length_map, length_seq, nth_error_repeat in Hrow by lia.
    injection Hrow as <-. rewrite list_sum_zeros. split; [lia | tauto].
Qed.

Lemma histogram_rows_nonzero_witness :
  exists rows,
    compute_histogram demo_conv demo_image = Some rows /\
    forall row, nth_error rows 1 = Some row -> list_sum row = 2.
Proof.
  destruct (histogram_rows_nonzero [demo_imager] Percentile "e" "mean" demo_conv
              demo_image 2 2 eq_refl
              ltac:(split; [reflexivity | repeat constructor]) ltac:(lia)
              ltac:(repeat constructor; unfold Qle; simpl; lia))
    as (rows & Hc & Hr).
  exists rows. split; [exact Hc|]. intros row Hrow.
  destruct (Hr 1 row ltac:(lia) Hrow) as [H _]. apply H. lia.
Defined.

(** ** Repeated calls of the builders *)

Lemma filter_none {A : Type} (f : A -> bool) (l : list A) :
  (forall x, In x l -> f x = false) -> filter f l = [].
Proof.
  induction l as [|x l IH]; intros H; simpl; [reflexivity|].
  rewrite (H x) by now left. apply IH. intros y Hy. apply H. now right.
Qed.

(** X14: a second call of [build_images] on the same inputs, with any batch
    size, returns the same images and leaves the imager as the first call
    left it: nothing is computed or stored again. *)
Theorem build_images_idempotent (im im' : SummaCImager)
    (originals generateds : list string) (b1 b2 : nat) (images : list image) :
  build_images im originals generateds b1 = Some (images, im') ->
  build_images im' originals generateds b2 = Some (images, im').
Proof.
  rewrite build_images_eq. intros H. injection H as <- <-.
  rewrite build_images_eq.
  set (c' := store_images im (todo_pairs im originals generateds) (cache im)).
  assert (Htodo : todo_pairs (set_cache im c') originals generateds = []).
  { unfold todo_pairs. apply filter_none. intros og Hin. cbn [cache set_cache].
    unfold dict_mem, c'. now rewrite store_images_lookup. }
  rewrite Htodo. f_equal. f_equal.
  apply map_ext_in. intros og Hin. unfold bulk_image at 1. cbn [cache set_cache].
  unfold c'. now rewrite store_images_lookup.
Qed.

Lemma build_images_idempotent_witness :
  build_images
      (set_cache demo_cached
         (store_images demo_cached
            (todo_pairs demo_cached [demo_doc; demo_doc] [demo_sum; "Too short."])
            (cache demo_cached)))
      [demo_doc; demo_doc] [demo_sum; "Too short."] 128
  = build_images demo_cached [demo_doc; demo_doc] [demo_sum; "Too short."] 1.
Proof.
  rewrite (build_images_idempotent demo_cached _ _ _ 1 128 _
             (build_images_eq demo_cached [demo_doc; demo_doc]
                              [demo_sum; "Too short."] 1)).
  symmetry. apply build_images_eq.
Defined.

(** X15: a second call of [build_image] on the same pair returns the same
    image and leaves the imager as the first call left it. *)
Theorem build_image_idempotent (im im1 : SummaCImager) (original generated : string)
    (img : image) :
  build_image im original generated = (img, im1) ->
  build_image im1 original generated = (img, im1).
Proof.
  rewrite <- (set_cache_same im) at 1. rewrite build_image_set_cache.
  destruct (use_cache im) eqn:Hu.
  - destruct (dict_get key_dec [original; generated] (cache im)) as [x|] eqn:Hx.
    + intros H. injection H as <- <-.
      rewrite build_image_set_cache, Hu, Hx. reflexivity.
    + cbn [andb].
      destruct (List.length (fst (fst (build_chunk_dataset im original generated None)))
                =? 0) eqn:El; cbn [negb]; intros H; injection H as <- <-.
      * rewrite build_image_set_cache, Hu, Hx. cbn [andb]. now rewrite El.
      * rewrite build_image_set_cache, Hu, dict_get_set_eq.
        rewrite compute_image_within_cap; [reflexivity|].
        intros Hnil. rewrite Hnil in El. discriminate.
  - intros H. injection H as <- <-. rewrite build_image_set_cache, Hu. reflexivity.
Qed.

Lemma build_image_idempotent_witness :
  build_image (snd (build_image demo_imager demo_doc demo_sum)) demo_doc demo_sum
  = build_image demo_imager demo_doc demo_sum.
Proof.
  rewrite (build_image_idempotent demo_imager _ demo_doc demo_sum _
             (surjective_pairing (build_image demo_imager demo_doc demo_sum))).
  symmetry. apply surjective_pairing.
Defined.

(** X17: [build_images] returns the same result for every batch size. *)
Theorem build_images_batch_size (im : SummaCImager) (originals generateds : list string)
    (b1 b2 : nat) :
  build_images im originals generateds b1 = build_images im originals generateds b2.
Proof. now rewrite !build_images_eq. Qed.

(** X16: a pair that leaves no unit on one side is never stored by
    [build_image], whatever [use_cache] is, whereas [build_images] stores
    the 3 x 1 x 1 zero image for it. *)
Theorem degenerate_pair_caching (im : SummaCImager) (original generated : string) :
  dict_get key_dec [original; generated] (cache im) = None ->
  N_ori_of im original generated = 0 \/ N_gen_of im original generated = 0 ->
  build_image im original generated = (zeros 3 1 1, im) /\
  forall originals generateds batch_size,
    In (original, generated) (combine originals generateds) ->
    exists images im',
      build_images im originals generateds batch_size = Some (images, im') /\
      dict_get key_dec [original; generated] (cache im') = Some (zeros 3 1 1).
Proof.
  intros Hmiss Hempty.
  assert (Hlen : List.length (fst (fst (build_chunk_dataset im original generated None)))
                 = 0).
  { unfold N_ori_of, N_gen_of in Hempty.
    destruct (build_chunk_dataset im original generated None) as [[ds n] m] eqn:E.
    apply build_chunk_dataset_length in E. cbn [fst snd] in *.
    destruct Hempty; subst; lia. }
  assert (Hci : compute_image im original generated = zeros 3 1 1).
  { unfold compute_image.
    destruct (build_chunk_dataset im original generated None) as [[ds n] m].
    cbn [fst] in Hlen. now rewrite Hlen. }
  split.
  - rewrite <- (set_cache_same im) at 1. rewrite build_image_set_cache, Hmiss, Hlen, Hci.
    cbn [Nat.eqb negb]. rewrite andb_false_r, set_cache_same.
    now destruct (use_cache im).
  - intros originals generateds batch_size Hin.
    eexists _, _. split; [apply build_images_eq|]. cbn [cache set_cache].
    pose proof (store_images_lookup im originals generateds (original, generated) Hin)
      as Hl.
    unfold bulk_image in Hl. cbn [fst snd] in Hl. now rewrite Hl, Hmiss, Hci.
Qed.

Lemma degenerate_pair_caching_witness :
  build_image demo_imager demo_doc "Too short." = (zeros 3 1 1, demo_imager).
Proof.
  apply (proj1 (degenerate_pair_caching demo_imager demo_doc "Too short."
                  eq_refl (or_intror eq_refl))).
Defined.

(** ** Scoring many pairs *)

Lemma mapM_Forall2 {A B : Type} (f : A -> option B) (l : list A) (v : list B) :
  mapM f l = Some v -> Forall2 (fun x y => f x = Some y) l v.
Proof.
  revert v; induction l as [|a l IH]; intros v H; simpl in H.
  - injection H as <-. constructor.
  - destruct (f a) as [b|] eqn:Ea; [|discriminate]. cbn [obind] in H.
    destruct (mapM f l) as [bs|] eqn:El; [|discriminate]. cbn [obind] in H.
    injection H as <-. constructor; [exact Ea | now apply IH].
Qed.

(** a computed image is a rectangular array of three planes with at least
    one row and one column *)
Lemma compute_image_shape (im : SummaCImager) (original generated : string) :
  exists n m, 1 <= n /\ 1 <= m /\ has_shape 3 n m (compute_image im original generated).
Proof.
  unfold compute_image.
  destruct (build_chunk_dataset im original generated None) as [[ds n] m] eqn:E.
  apply build_chunk_dataset_length in E.
  destruct (List.length ds =? 0) eqn:El.
  - exists 1, 1. repeat split; try lia; apply (zeros_shape 3 1 1).
  - apply Nat.eqb_neq in El. exists n, m.
    split; [nia|]. split; [nia|]. apply fold_write_shape, zeros_shape.
Qed.

(** X18: with valid operators and at least one flag set, [score] on pairs
    that the imager has not cached returns one score and one image per
    zipped pair, and they are the score and the image that [score_one]
    gives for that pair. *)
Theorem score_fresh_pairs (zs : SummaCZS) (sources generateds : list string)
    (batch_size : nat) :
  In (op1 zs) ["max"; "mean"; "min"] -> In (op2 zs) ["min"; "mean"; "max"] ->
  use_ent zs || use_con zs = true ->
  (forall og, In og (combine sources generateds) ->
              dict_get key_dec [fst og; snd og] (cache (imager zs)) = None) ->
  exists scores images zs',
    score zs sources generateds batch_size = Some (scores, images, zs') /\
    List.length scores = Nat.min (List.length sources) (List.length generateds) /\
    Forall2 (fun og s => fst (fst (score_one zs (fst og) (snd og))) = Some s)
            (combine sources generateds) scores /\
    images = map (fun og => snd (fst (score_one zs (fst og) (snd og))))
                 (combine sources generateds).
Proof.
  intros H1 H2 Hf Hfresh. unfold score. rewrite build_images_eq. cbn [obind fst snd].
  assert (Hone : forall og, In og (combine sources generateds) ->
            bulk_image (imager zs) og = snd (fst (score_one zs (fst og) (snd og))) /\
            image2score zs (bulk_image (imager zs) og)
            = fst (fst (score_one zs (fst og) (snd og)))).
  { intros og Hin. unfold bulk_image. rewrite (Hfresh og Hin).
    pose proof (build_image_miss (imager zs) (fst og) (snd og)
                  (or_intror (Hfresh og Hin))) as Hm.
    unfold score_one.
    destruct (build_image (imager zs) (fst og) (snd og)) as [img im'].
    cbn [fst snd] in *. now subst img. }
  destruct (mapM_total (image2score zs)
              (map (bulk_image (imager zs)) (combine sources generateds)))
    as [scores Hsc].
  { intros img Himg. apply in_map_iff in Himg as (og & <- & Hin).
    unfold bulk_image. rewrite (Hfresh og Hin).
    destruct (compute_image_shape (imager zs) (fst og) (snd og)) as (n & m & Hn & Hm & Hs).
    rewrite image2score_eq_spec by assumption.
    apply (image2score_spec_defined zs _ 3 n m H1 H2 Hf); [lia | exact Hn | exact Hm | exact Hs]. }
  rewrite Hsc. cbn [obind]. eexists _, _, _. split; [reflexivity|].
  split.
  { rewrite (mapM_length _ _ _ Hsc), length_map, length_combine. reflexivity. }
  split.
  - apply mapM_Forall2 in Hsc. revert Hsc Hone.
    generalize (combine sources generateds) as pairs. intros pairs. revert scores.
    induction pairs as [|og pairs IH]; intros scores Hsc Hone; cbn [map] in Hsc;
      inversion Hsc as [|img s imgs ss Hs Hrest]; subst; constructor.
    + rewrite <- Hs. symmetry. apply Hone. now left.
    + apply IH; [exact Hrest|]. intros og' Hin. apply Hone. now right.
  - apply map_ext_in. intros og Hin. apply Hone, Hin.
Qed.

Lemma score_fresh_pairs_witness :
  exists scores images zs',
    score demo_zs [demo_doc; demo_doc; demo_sum] [demo_sum; "Too short."] 2
    = Some (scores, images, zs') /\
    List.length scores = 2.
Proof.
  destruct (score_fresh_pairs demo_zs [demo_doc; demo_doc; demo_sum]
              [demo_sum; "Too short."] 2)
    as (scores & images & zs' & Hs & Hl & _).
  - simpl. auto.
  - simpl. auto.
  - reflexivity.
  - intros og _. reflexivity.
  - exists scores, images, zs'. split; [exact Hs | exact Hl].
Defined.

(** ** The image of a [SummaCConv] *)

Lemma build_chunk_dataset_same_splitting (im im0 : SummaCImager)
    (original generated : string) (p : option nat) :
  same_splitting im im0 ->
  build_chunk_dataset im original generated p
  = build_chunk_dataset im0 original generated p.
Proof.
  intros (Ht & Hg & Hm). destruct im, im0. cbn in Ht, Hg, Hm. subst. reflexivity.
Qed.

Lemma units_of_same_splitting (im im0 : SummaCImager) (original generated : string) :
  same_splitting im im0 ->
  units_of im original generated = units_of im0 original generated.
Proof.
  intros H. unfold units_of, N_ori_of, N_gen_of.
  now rewrite (build_chunk_dataset_same_splitting im im0 _ _ _ H).
Qed.

Lemma compute_image_units (im : SummaCImager) (original generated : string) :
  1 <= fst (units_of im original generated) /\
  1 <= snd (units_of im original generated) /\
  has_shape 3 (fst (units_of im original generated))
            (snd (units_of im original generated))
            (compute_image im original generated).
Proof.
  unfold units_of, compute_image, N_ori_of, N_gen_of.
  destruct (build_chunk_dataset im original generated None) as [[ds n] m] eqn:E.
  apply build_chunk_dataset_length in E. cbn [fst snd]. rewrite E.
  destruct (n * m =? 0) eqn:El; cbn [fst snd].
  - repeat split; try lia; apply (zeros_shape 3 1 1).
  - apply Nat.eqb_neq in El.
    split; [nia|]. split; [nia|]. apply fold_write_shape, zeros_shape.
Qed.

Lemma zeros_unit_valued (d n m : nat) : unit_valued (zeros d n m).
Proof.
  unfold unit_valued, zeros.
  repeat (apply Forall_forall; intros ? Hin; apply repeat_spec in Hin; subst).
  split; [apply Qle_refl | unfold Qle; simpl; lia].
Qed.

Lemma set_cell_unit_valued (img : image) (d i j : nat) (v : Q) :
  (0 <= v)%Q /\ (v <= 1)%Q -> unit_valued img -> unit_valued (set_cell img d i j v).
Proof.
  intros Hv Hu. unfold unit_valued, set_cell.
  apply Forall_list_update; [|exact Hu]. intros p Hp.
  apply Forall_list_update; [|exact Hp]. intros r Hr.
  apply Forall_list_update; [|exact Hr]. intros _ _. exact Hv.
Qed.

Lemma pick_unit (idx : nat) (p : probs) :
  distribution p -> (0 <= pick idx p)%Q /\ (pick idx p <= 1)%Q.
Proof.
  intros (H0 & H1 & H2 & Hs). destruct idx as [|[|idx]]; cbn [pick]; split; lra.
Qed.

Lemma compute_image_unit_valued (im : SummaCImager) (original generated : string) :
  (forall p h, distribution (nli_model im p h)) ->
  unit_valued (compute_image im original generated).
Proof.
  intros Hdist. unfold compute_image.
  destruct (build_chunk_dataset im original generated None) as [[ds n] m].
  destruct (List.length ds =? 0); [apply zeros_unit_valued|].
  generalize (zeros_unit_valued 3 n m). generalize (zeros 3 n m).
  induction ds as [|b ds IH]; intros img Hu; cbn [fold_left]; [exact Hu|].
  apply IH. unfold write_one, write_probs.
  repeat apply set_cell_unit_valued; try apply pick_unit; try apply Hdist. exact Hu.
Qed.

Lemma np_concatenate_same (n m : nat) (arrays : list image) :
  arrays <> [] -> Forall (has_shape 3 n m) arrays -> 1 <= n ->
  np_concatenate arrays = Some (concat arrays).
Proof.
  intros Hne Hall Hn. destruct arrays as [|a0 rest]; [congruence|].
  unfold np_concatenate. rewrite Forall_forall in Hall.
  rewrite (proj2 (forallb_forall _ _)); [reflexivity|].
  intros a Ha.
  rewrite (has_shape_shape 3 n m a) by (try apply Hall; try exact Ha; lia).
  rewrite (has_shape_shape 3 n m a0) by (try apply Hall; try (now left); lia).
  cbn [fst snd]. now rewrite !Nat.eqb_refl.
Qed.

Lemma concat_shape (n m : nat) (arrays : list image) :
  Forall (has_shape 3 n m) arrays ->
  has_shape (3 * List.length arrays) n m (concat arrays).
Proof.
  induction 1 as [|a arrays [Ha Hp] _ [IHl IHp]]; cbn [concat List.length].
  - split; [reflexivity | constructor].
  - split; [rewrite length_app; lia | apply Forall_app; split; assumption].
Qed.

(** X19: in a [SummaCConv] whose imagers split texts alike and whose
    predictors return probability distributions, [compute_histogram]
    called with the two texts of a pair that no imager answers from its
    cache returns; the image is the images of the imagers in order, three
    planes each (plane 3k + d is plane d of the k-th imager), a rectangular
    array with at least one row and one column and values in [0, 1]; the
    histogram matrix is that of this image and has 10 rows. *)
Theorem conv_histogram_of_fresh_pair (imagers_ : list SummaCImager) (b : bins_mode)
    (labels agg_ : string) (conv : SummaCConv) (im0 : SummaCImager)
    (original generated : string) :
  SummaCConv_init imagers_ b labels agg_ = Some conv ->
  (forall im, In im imagers_ -> same_splitting im im0) ->
  (forall im, In im imagers_ -> forall p h, distribution (nli_model im p h)) ->
  (forall im, In im imagers_ ->
     use_cache im = false
     \/ dict_get key_dec [original; generated] (cache im) = None) ->
  exists img rows,
    fst (compute_histogram_of_texts conv original generated) = Some (img, rows) /\
    img = concat (map (fun im => compute_image im original generated) imagers_) /\
    has_shape (3 * List.length imagers_) (fst (units_of im0 original generated))
              (snd (units_of im0 original generated)) img /\
    1 <= fst (units_of im0 original generated) /\
    1 <= snd (units_of im0 original generated) /\
    unit_valued img /\
    compute_histogram conv img = Some rows /\
    List.length rows = 10.
Proof.
  intros Hinit Hsplit Hdist Hfresh.
  destruct (SummaCConv_init_fields _ _ _ _ _ Hinit)
    as (_ & Hne & _ & Himgs & _).
  set (n := fst (units_of im0 original generated)).
  set (m := snd (units_of im0 original generated)).
  set (arrays := map (fun im => compute_image im original generated) imagers_).
  assert (Hbuilt : map fst (map (fun imager => build_image imager original generated)
                                imagers_) = arrays).
  { rewrite map_map. apply map_ext_in. intros im Hin.
    apply build_image_miss, Hfresh, Hin. }
  assert (Hn : 1 <= n /\ 1 <= m).
  { destruct imagers_ as [|im1 rest]; [congruence|].
    destruct (compute_image_units im1 original generated) as (H1 & H2 & _).
    unfold n, m. rewrite <- (units_of_same_splitting im1 im0) by (apply Hsplit; now left).
    now split. }
  assert (Hshapes : Forall (has_shape 3 n m) arrays).
  { apply Forall_forall. intros a Ha. apply in_map_iff in Ha as (im & <- & Hin).
    unfold n, m. rewrite <- (units_of_same_splitting im im0) by (apply Hsplit, Hin).
    apply compute_image_units. }
  assert (Hshape : has_shape (3 * List.length imagers_) n m (concat arrays)).
  { replace (List.length imagers_) with (List.length arrays)
      by (unfold arrays; apply length_map).
    apply concat_shape, Hshapes. }
  assert (Hunit : unit_valued (concat arrays)).
  { unfold unit_valued. apply Forall_concat. apply Forall_forall. intros a Ha.
    apply in_map_iff in Ha as (im & <- & Hin).
    apply compute_image_unit_valued, Hdist, Hin. }
  pose proof (compute_histogram_rows imagers_ b labels agg_ conv (concat arrays) n m
                Hinit Hshape (proj1 Hn)) as Hrows.
  eexists (concat arrays), _.
  split.
  { unfold compute_histogram_of_texts, SummaCConv_build_image. rewrite Himgs, Hbuilt.
    rewrite (np_concatenate_same n m arrays); [| | exact Hshapes | apply Hn].
    - cbn [fst obind]. rewrite Hrows. reflexivity.
    - intros Hnil. apply Hne. apply map_eq_nil in Hnil. exact Hnil. }
  split; [reflexivity|]. split; [exact Hshape|].
  split; [apply Hn|]. split; [apply Hn|]. split; [exact Hunit|].
  split; [exact Hrows|].
  rewrite length_firstn, length_app, length_map, length_seq, repeat_length. lia.
Qed.

Lemma conv_histogram_of_fresh_pair_witness :
  exists img rows,
    fst (compute_histogram_of_texts demo_conv demo_doc demo_sum) = Some (img, rows) /\
    has_shape 3 2 1 img /\ List.length rows = 10.
Proof.
  destruct (conv_histogram_of_fresh_pair [demo_imager] Percentile "e" "mean" demo_conv
              demo_imager demo_doc demo_sum eq_refl)
    as (img & rows & Hr & _ & Hs & _ & _ & _ & _ & Hl).
  - intros im [<-|[]]. repeat split.
  - intros im [<-|[]] p h. unfold demo_imager, demo_nli. cbn [nli_model].
    destruct (p =? h)%string; [|destruct (String.length p =? String.length h)];
      repeat split; unfold Qle, Qeq; simpl; lia.
  - intros im [<-|[]]. right. reflexivity.
  - exists img, rows. split; [exact Hr|]. split; [exact Hs | exact Hl].
Defined.

(** ** A scorer made by [SummaCZS.__init__] *)

Lemma image2score_no_flag (zs : SummaCZS) (img : image) :
  use_ent zs = false -> use_con zs = false -> image2score zs img = None.
Proof.
  intros He Hc. unfold image2score. rewrite He, Hc. cbn [andb].
  destruct (nth_error img 0) as [p0|]; [|reflexivity]. cbn [obind].
  destruct (reduce_axis0 np_max p0); [|reflexivity]. cbn [obind].
  destruct (nth_error img 1) as [p1|]; [|reflexivity]. cbn [obind].
  destruct (reduce_axis0 np_max p1); [|reflexivity]. cbn [obind].
  destruct (op1 zs =? "mean")%string.
  - destruct (reduce_axis0 np_mean p0); [|reflexivity]. cbn [obind].
    destruct (reduce_axis0 np_mean p1); reflexivity.
  - destruct (op1 zs =? "min")%string; [|reflexivity].
    destruct (reduce_axis0 np_min p0); [|reflexivity]. cbn [obind].
    destruct (reduce_axis0 np_min p1); reflexivity.
Qed.

(** X20: [SummaCZS.__init__] checks the two operators but not the flags:
    a scorer it returns has valid operators, and on a pair that is not
    answered from the cache [score_one] returns a score exactly when at
    least one of [use_ent] and [use_con] is set; with both flags off every
    such call raises. *)
Theorem SummaCZS_init_score_one (im : SummaCImager) (o1 o2 : string) (ue uc : bool)
    (zs : SummaCZS) (original generated : string) :
  SummaCZS_init im o1 o2 ue uc = Some zs ->
  use_cache im = false \/ dict_get key_dec [original; generated] (cache im) = None ->
  In o1 ["max"; "mean"; "min"] /\ In o2 ["min"; "mean"; "max"] /\
  ((exists s, fst (fst (score_one zs original generated)) = Some s)
   <-> ue || uc = true).
Proof.
  unfold SummaCZS_init. intros Hinit Hfresh.
  destruct (existsb (String.eqb o2) ["min"; "mean"; "max"]) eqn:E2; [|discriminate].
  destruct (existsb (String.eqb o1) ["max"; "mean"; "min"]) eqn:E1; [|discriminate].
  cbn [negb] in Hinit. injection Hinit as <-.
  apply existsb_exists in E1 as (x1 & Hin1 & Hx1). apply String.eqb_eq in Hx1. subst x1.
  apply existsb_exists in E2 as (x2 & Hin2 & Hx2). apply String.eqb_eq in Hx2. subst x2.
  split; [exact Hin1|]. split; [exact Hin2|].
  pose proof (build_image_miss im original generated Hfresh) as Hm.
  unfold score_one. cbn [imager].
  destruct (build_image im original generated) as [img im']. cbn [fst snd] in *. subst img.
  split.
  - intros [s Hs]. destruct ue, uc; try reflexivity.
    now rewrite image2score_no_flag in Hs.
  - intros Hf.
    destruct (compute_image_shape im original generated) as (n & m & Hn & Hm & Hs).
    rewrite image2score_eq_spec by assumption.
    apply (image2score_spec_defined _ _ 3 n m); try assumption. lia.
Qed.

Lemma SummaCZS_init_score_one_witness :
  fst (fst (score_one (mkZS demo_imager "max" "mean" false false) demo_doc demo_sum))
  = None.
Proof.
  destruct (SummaCZS_init_score_one demo_imager "max" "mean" false false
              (mkZS demo_imager "max" "mean" false false) demo_doc demo_sum
              eq_refl (or_intror eq_refl)) as (_ & _ & [H _]).
  destruct (fst (fst (score_one (mkZS demo_imager "max" "mean" false false)
                                demo_doc demo_sum))) as [s|]; [|reflexivity].
  specialize (H (ex_intro _ s eq_refl)). discriminate H.
Defined.
